(** * Helio Workstation: the automation track's diff and merge logic

    A shallow embedding of [Source/Core/VCS/DiffLogic/AutomationTrackDiffLogic.cpp].

    - Identifiers (delta types, node tags, attribute keys) are an enumeration;
    - [SerializedData] is a possibly invalid handle on an ordered tree of tagged
      nodes with attributes;
    - [float] is abstract: the code only compares floats, so the development
      is stated over any type with an equality test and an order test;
    - the arrays of event pointers are lists of allocated objects, an object
      being an address paired with the event stored there, because
      [removeAllInstancesOf] and [addIfNotAlreadyThere] compare pointers;
    - [Diff] and [TrackedItem] are ordered lists of deltas paired with their data;
    - every [for] loop is a [fold_left] over the array it walks, and an inner
      search loop that ends in [break] is a [find] or an [existsb]. *)

From Stdlib Require Import List ZArith Bool String Lia Permutation Sorted.
From Stdlib Require OrderedTypeEx.
Import ListNotations.
Local Open Scope Z_scope.

(** ** Identifiers *)

(** Modelled from the spec: the identifiers of [Serialization::VCS] and
    [Serialization::Midi] are schema constants declared outside this
    translation unit, opaque identifiers for equality and dispatch; what
    matters is that they are pairwise distinct.  The keys of the four
    attributes of an event are [attrId], [attrBeat], [attrCurvature] and
    [attrValue]; [otherIdentifier] stands for every other identifier a tree
    or a tracked item may carry. *)
Inductive Identifier : Type :=
| trackPath | trackColour | trackInstrument | trackController
| timeSignaturesChanged
| eventsAdded | eventsRemoved | eventsChanged
| clipsAdded | clipsRemoved | clipsChanged
| automationEvent | clip
| attrId | attrBeat | attrCurvature | attrValue
| otherIdentifier (name : string).

Definition Identifier_eq_dec (a b : Identifier) : {a = b} + {a <> b}.
Proof. decide equality. apply string_dec. Defined.

Definition Identifier_eqb (a b : Identifier) : bool :=
  if Identifier_eq_dec a b then true else false.

(** ** Floats *)

(** What the code asks of a [float]: [operator==] (through [!=]) and
    [operator<], and the value a missing attribute reads as.  Nothing is
    assumed of them, so the statements also cover an order with NaN. *)
Class FloatOps (float : Type) : Type := {
  float_zero : float;
  float_eqb : float -> float -> bool;
  float_ltb : float -> float -> bool }.

(** The floats the concrete examples run on: beats and values that happen to
    be whole numbers. *)
Definition Z_FloatOps : FloatOps Z :=
  {| float_zero := 0; float_eqb := Z.eqb; float_ltb := Z.ltb |}.

(** ** Deltas *)

(** Modelled from the spec: a delta is a type tag, a description and,
    optionally, a change count; [DeltaDescription] and [Delta] are declared
    in headers outside this translation unit.  [DeltaDescription(text)] has
    no count, [DeltaDescription(text, numChanges)] has one. *)
Record DeltaDescription : Type := mkDeltaDescription {
  stringToTranslate : string;
  intParameter : option Z }.

(** Modelled from the spec: [Serialization::VCS::headStateDelta] is a
    constant declared outside this translation unit, the description of the
    deltas a merge makes up; no statement depends on its text. *)
Definition headStateDelta : string := "head state"%string.

Record Delta : Type := mkDelta {
  getDescription : DeltaDescription;
  getType : Identifier }.

Definition hasType (d : Delta) (t : Identifier) : bool := Identifier_eqb (getType d) t.

(** [Delta::createCopy]: a delta with the same description and type. *)
Definition Delta_createCopy (d : Delta) : Delta := mkDelta (getDescription d) (getType d).

Section Model.

Context {float : Type} {floatOps : FloatOps float}.

(** ** Serialized trees *)

(** Modelled from the spec: the serialization container is declared outside
    this translation unit, an ordered tree of named nodes with child lookup
    by type tag and deep copy, whose record nodes carry scalar attributes as
    primitive fields. *)
Inductive var : Type :=
| varInt (i : Z)
| varFloat (x : float)
| varString (s : string).

#[warnings="-register-all"] Inductive Node : Type := mkNode {
  nodeType : Identifier;
  properties : list (Identifier * var);
  children : list Node }.

(** A default-constructed [SerializedData] holds no tree and is not valid. *)
Definition SerializedData : Type := option Node.

Definition isValid (d : SerializedData) : bool :=
  match d with Some _ => true | None => false end.

(** [SerializedData tree(tag)]: a valid tree with no attribute and no child. *)
Definition emptyTree (tag : Identifier) : SerializedData := Some (mkNode tag [] []).

Definition appendChild (tree child : SerializedData) : SerializedData :=
  match tree, child with
  | Some t, Some c => Some (mkNode (nodeType t) (properties t) (children t ++ [c]))
  | _, _ => tree
  end.

(** [createCopy] is a deep copy; values have no sharing to break. *)
Definition createCopy (d : SerializedData) : SerializedData := d.

Definition getProperty (n : Node) (key : Identifier) : option var :=
  option_map snd (find (fun p => Identifier_eqb (fst p) key) (properties n)).

(** The children the macro [forEachChildWithType (tree, e, type)] visits. *)
Definition childrenWithType (d : SerializedData) (type : Identifier) : list Node :=
  match d with
  | Some t => filter (fun c => Identifier_eqb (nodeType c) type) (children t)
  | None => []
  end.

(** ** Automation events *)

(** Modelled from the spec: an automation event is a stable id, a beat, a
    curvature and a controller value; the class is declared outside this
    translation unit.  Ids are only compared for equality. *)
Record AutomationEvent : Type := mkAutomationEvent {
  getId : Z;
  getBeat : float;
  getCurvature : float;
  getControllerValue : float }.

(** Modelled from the spec: [AutomationEvent::serialize] is defined outside
    this translation unit; the record node is tagged by its kind and carries
    the attributes id, beat, curvature and value as primitive fields. *)
Definition serialize (e : AutomationEvent) : SerializedData :=
  Some (mkNode automationEvent
          [ (attrId, varInt (getId e));
            (attrBeat, varFloat (getBeat e));
            (attrCurvature, varFloat (getCurvature e));
            (attrValue, varFloat (getControllerValue e)) ]
          []).

Definition intProperty (n : Node) (key : Identifier) : Z :=
  match getProperty n key with Some (varInt i) => i | _ => 0 end.

Definition floatProperty (n : Node) (key : Identifier) : float :=
  match getProperty n key with Some (varFloat x) => x | _ => float_zero end.

(** Modelled from the spec: [AutomationEvent::deserialize], the inverse
    reading of the same four attributes; a missing attribute reads as zero. *)
Definition deserialize (n : Node) : AutomationEvent :=
  {| getId := intProperty n attrId;
     getBeat := floatProperty n attrBeat;
     getCurvature := floatProperty n attrCurvature;
     getControllerValue := floatProperty n attrValue |}.

(** An object made by [new AutomationEvent()]: where it lives, what it holds.
    Two pointers are equal when they hold the same address. *)
Record MidiEventPtr : Type := mkPtr {
  address : nat;
  pointee : AutomationEvent }.

Definition ptr_eqb (p q : MidiEventPtr) : bool := Nat.eqb (address p) (address q).

(** Modelled from the spec: the comparator that [addSorted] is given is the
    event itself, and its [compareElements] is defined outside this
    translation unit; events within one sequence are kept sorted by beat. *)
Definition compareElements (first second : AutomationEvent) : Z :=
  if float_ltb (getBeat first) (getBeat second) then -1
  else if float_ltb (getBeat second) (getBeat first) then 1
  else 0.

(** The comparator that [addSorted] is called with is the event, whose
    [compareElements] is given two pointers and compares what they point
    to. *)
Definition compareEvents (first second : MidiEventPtr) : Z :=
  compareElements (pointee first) (pointee second).

(** [findInsertIndexInSortedArray] of the JUCE library, a template over the
    type of the elements and the comparator: a binary search between
    [firstElement] and [lastElement].  It stops at an element that compares
    equal to the new one, when the two bounds are neighbours, and else
    halves the distance of the bounds, which is what [fuel] counts: the loop
    is run with the distance as its fuel and ends before it is used up (see
    [findInsertIndexInSortedArray_fuel]).  [array [i]] is read at indices
    below [lastElement] only, so the default of [nth] is never read; the
    indices are [int]s whose sum does not wrap for an array of less than
    [2 ^ 30] elements. *)
Fixpoint findInsertIndexInSortedArray {A : Type} (compare : A -> A -> Z)
    (array : list A) (newElement : A) (fuel firstElement lastElement : nat) : nat :=
  match fuel with
  | O => firstElement
  | S fuel =>
      if (firstElement <? lastElement)%nat then
        if compare newElement (nth firstElement array newElement) =? 0
        then S firstElement
        else
          let halfway := Nat.div2 (firstElement + lastElement) in
          if (halfway =? firstElement)%nat then
            if compare newElement (nth halfway array newElement) >=? 0
            then S firstElement
            else firstElement
          else if compare newElement (nth halfway array newElement) >=? 0
          then findInsertIndexInSortedArray compare array newElement fuel halfway lastElement
          else findInsertIndexInSortedArray compare array newElement fuel firstElement halfway
      else firstElement
  end.

(** [insert (index, newObject)]: the new element goes in front of the
    element at [index], and at the end when there is none. *)
Definition insert {A : Type} (indexToInsertAt : nat) (newElement : A) (array : list A)
  : list A :=
  firstn indexToInsertAt array ++ newElement :: skipn indexToInsertAt array.

(** [OwnedArray::addSorted] of the JUCE library. *)
Definition addSorted {A : Type} (compare : A -> A -> Z) (newElement : A) (array : list A)
  : list A :=
  insert
    (findInsertIndexInSortedArray compare array newElement
       (List.length array) 0 (List.length array))
    newElement array.

(** One [forEachChildWithType] loop of [deserializeAutoTrackChanges]; [heap]
    is the next free address. *)
Fixpoint deserializeEvents (heap : nat) (nodes : list Node) (notes : list MidiEventPtr)
  : nat * list MidiEventPtr :=
  match nodes with
  | [] => (heap, notes)
  | e :: rest =>
      let event := mkPtr heap (deserialize e) in
      deserializeEvents (S heap) rest (addSorted compareEvents event notes)
  end.

Definition deserializeAutoTrackChanges (state changes : SerializedData)
  : list MidiEventPtr * list MidiEventPtr :=
  let '(heap, stateNotes) :=
    if isValid state
    then deserializeEvents 0 (childrenWithType state automationEvent) []
    else (0%nat, []) in
  let '(_, changesNotes) :=
    if isValid changes
    then deserializeEvents heap (childrenWithType changes automationEvent) []
    else (heap, []) in
  (stateNotes, changesNotes).

Definition serializeAutoSequence (changes : list MidiEventPtr) (tag : Identifier) : SerializedData :=
  fold_left (fun tree event => appendChild tree (serialize (pointee event))) changes (emptyTree tag).

(** ** Merge *)

Definition mergeController (state changes : SerializedData) : SerializedData :=
  createCopy changes.

(** The inner loop of the three merges and of the diff: is there a note in
    [notes] with the id of [note]? *)
Definition foundNoteIn (notes : list MidiEventPtr) (note : MidiEventPtr) : bool :=
  existsb (fun other => getId (pointee other) =? getId (pointee note)) notes.

Definition mergeAutoEventsAdded (state changes : SerializedData) : SerializedData :=
  let '(stateNotes, changesNotes) := deserializeAutoTrackChanges state changes in
  let result :=
    fold_left
      (fun result changesNote =>
         if foundNoteIn stateNotes changesNote then result else result ++ [changesNote])
      changesNotes stateNotes in
  serializeAutoSequence result eventsAdded.

Definition mergeAutoEventsRemoved (state changes : SerializedData) : SerializedData :=
  let '(stateNotes, changesNotes) := deserializeAutoTrackChanges state changes in
  let result :=
    fold_left
      (fun result stateNote =>
         if foundNoteIn changesNotes stateNote then result else result ++ [stateNote])
      stateNotes [] in
  serializeAutoSequence result eventsAdded.

(** [Array::removeAllInstancesOf] and [Array::addIfNotAlreadyThere] of the
    JUCE library, on an array of pointers. *)
Definition removeAllInstancesOf (p : MidiEventPtr) (array : list MidiEventPtr) : list MidiEventPtr :=
  filter (fun q => negb (ptr_eqb q p)) array.

Definition addIfNotAlreadyThere (p : MidiEventPtr) (array : list MidiEventPtr) : list MidiEventPtr :=
  if existsb (fun q => ptr_eqb q p) array then array else array ++ [p].

(** The first note of [notes] with the id of [note]: where the inner loop breaks. *)
Definition findNoteIn (notes : list MidiEventPtr) (note : MidiEventPtr) : option MidiEventPtr :=
  find (fun other => getId (pointee note) =? getId (pointee other)) notes.

Definition mergeAutoEventsChanged (state changes : SerializedData) : SerializedData :=
  let '(stateNotes, changesNotes) := deserializeAutoTrackChanges state changes in
  let result :=
    fold_left
      (fun result stateNote =>
         match findNoteIn changesNotes stateNote with
         | Some changesNote =>
             addIfNotAlreadyThere changesNote (removeAllInstancesOf stateNote result)
         | None => result
         end)
      stateNotes stateNotes in
  serializeAutoSequence result eventsAdded.

(** ** Diff *)

(** Modelled from the spec: a [DeltaDiff] pairs one delta with its payload; a
    [Diff] is the ordered collection of the deltas applied to it, empty when
    it is made; a [TrackedItem] hands out its deltas and their data by
    index.  The three classes are declared outside this translation unit. *)
Record DeltaDiff : Type := mkDeltaDiff {
  delta : Delta;
  deltaData : SerializedData }.

Definition Diff : Type := list DeltaDiff.
Definition TrackedItem : Type := list DeltaDiff.

Definition applyDelta (diff : Diff) (newDelta : Delta) (data : SerializedData) : Diff :=
  diff ++ [mkDeltaDiff newDelta data].

Definition serializeAutoTrackChanges (changes : list MidiEventPtr)
    (description : string) (numChanges : Z) (deltaType : Identifier) : DeltaDiff :=
  mkDeltaDiff
    (mkDelta (mkDeltaDescription description (Some numChanges)) deltaType)
    (serializeAutoSequence changes deltaType).

Definition eventHasChanged (stateEvent changesEvent : AutomationEvent) : bool :=
  negb (float_eqb (getBeat stateEvent) (getBeat changesEvent))
  || negb (float_eqb (getCurvature stateEvent) (getCurvature changesEvent))
  || negb (float_eqb (getControllerValue stateEvent) (getControllerValue changesEvent)).

(** The three arrays [createAutoEventsDiffs] fills before it serializes them. *)
Record EventGroups : Type := mkEventGroups {
  addedEvents : list MidiEventPtr;
  removedEvents : list MidiEventPtr;
  changedEvents : list MidiEventPtr }.

Definition compareAutoEvents (stateEvents changesEvents : list MidiEventPtr) : EventGroups :=
  let '(removed, changed) :=
    fold_left
      (fun '(removed, changed) stateEvent =>
         match findNoteIn changesEvents stateEvent with
         | Some changesEvent =>
             if eventHasChanged (pointee stateEvent) (pointee changesEvent)
             then (removed, changed ++ [changesEvent])
             else (removed, changed)
         | None => (removed ++ [stateEvent], changed)
         end)
      stateEvents ([], []) in
  let added :=
    fold_left
      (fun added changesNote =>
         if foundNoteIn stateEvents changesNote then added else added ++ [changesNote])
      changesEvents [] in
  mkEventGroups added removed changed.

Definition size (array : list MidiEventPtr) : Z := Z.of_nat (List.length array).

Definition createAutoEventsDiffs (state changes : SerializedData) : list DeltaDiff :=
  let '(stateEvents, changesEvents) := deserializeAutoTrackChanges state changes in
  let groups := compareAutoEvents stateEvents changesEvents in
  let res := [] in
  let res :=
    if size (addedEvents groups) >? 0
    then res ++ [serializeAutoTrackChanges (addedEvents groups)
                   "added {x} events"%string (size (addedEvents groups)) eventsAdded]
    else res in
  let res :=
    if size (removedEvents groups) >? 0
    then res ++ [serializeAutoTrackChanges (removedEvents groups)
                   "removed {x} events"%string (size (removedEvents groups)) eventsRemoved]
    else res in
  let res :=
    if size (changedEvents groups) >? 0
    then res ++ [serializeAutoTrackChanges (changedEvents groups)
                   "changed {x} events"%string (size (changedEvents groups)) eventsChanged]
    else res in
  res.

Definition checkIfDeltaIsEventsType (d : Delta) : bool :=
  hasType d eventsAdded || hasType d eventsChanged || hasType d eventsRemoved.

(** ** The merges shared by all tracks *)

(** Modelled from the spec: [mergePath], [mergeColour], [mergeInstrument] and
    [mergeTimeSignature] are declared [extern] and defined with the piano
    track's diff logic; a scalar merge is last-write-wins, a deep copy of the
    changes. *)
Definition mergePath (state changes : SerializedData) : SerializedData :=
  createCopy changes.

Definition mergeColour (state changes : SerializedData) : SerializedData :=
  createCopy changes.

Definition mergeInstrument (state changes : SerializedData) : SerializedData :=
  createCopy changes.

Definition mergeTimeSignature (state changes : SerializedData) : SerializedData :=
  createCopy changes.

(** Modelled from the spec: [PatternDiffHelpers::checkIfDeltaIsPatternType] is
    defined with the pattern helpers; the pattern family is clips added,
    removed and changed, as the events family is for events. *)
Definition checkIfDeltaIsPatternType (d : Delta) : bool :=
  hasType d clipsAdded || hasType d clipsChanged || hasType d clipsRemoved.

(** ** createMergedItem *)

(** The three clip merges of [PatternDiffHelpers], defined outside this
    translation unit: what follows holds whatever they compute. *)
Class PatternDiffHelpers : Type := {
  mergeClipsAdded : SerializedData -> SerializedData -> SerializedData;
  mergeClipsRemoved : SerializedData -> SerializedData -> SerializedData;
  mergeClipsChanged : SerializedData -> SerializedData -> SerializedData }.

Section MergedItem.

Context {patternDiffHelpers : PatternDiffHelpers}.

(** The variables the loop over the target's deltas updates. *)
Record MergePass : Type := mkMergePass {
  deltaFoundInChanges : bool;
  eventsDeltaData : SerializedData;
  clipsDeltaData : SerializedData;
  diff : Diff }.

(** The body of the loop over [j], for the state delta at hand. *)
Definition mergeTargetDelta (stateDelta : Delta) (stateDeltaData : SerializedData)
    (pass : MergePass) (target : DeltaDiff) : MergePass :=
  let targetDelta := delta target in
  let targetDeltaData := deltaData target in
  let typesMatchStrictly := Identifier_eqb (getType stateDelta) (getType targetDelta) in
  let pass :=
    if typesMatchStrictly then
      let diffDelta := mkDelta (getDescription targetDelta) (getType targetDelta) in
      let merged (diffDeltaData : SerializedData) :=
        mkMergePass true (eventsDeltaData pass) (clipsDeltaData pass)
          (applyDelta (diff pass) diffDelta diffDeltaData) in
      if hasType targetDelta trackPath
      then merged (mergePath stateDeltaData targetDeltaData)
      else if hasType targetDelta trackColour
      then merged (mergeColour stateDeltaData targetDeltaData)
      else if hasType targetDelta trackInstrument
      then merged (mergeInstrument stateDeltaData targetDeltaData)
      else if hasType targetDelta trackController
      then merged (mergeController stateDeltaData targetDeltaData)
      else if hasType targetDelta timeSignaturesChanged
      then merged (mergeTimeSignature stateDeltaData targetDeltaData)
      else mkMergePass true (eventsDeltaData pass) (clipsDeltaData pass) (diff pass)
    else pass in
  let bothDeltasAreNotesType :=
    checkIfDeltaIsEventsType stateDelta && checkIfDeltaIsEventsType targetDelta in
  let pass :=
    if bothDeltasAreNotesType then
      let incrementalMerge := isValid (eventsDeltaData pass) in
      let base := if incrementalMerge then eventsDeltaData pass else stateDeltaData in
      let merged (data : SerializedData) :=
        mkMergePass true data (clipsDeltaData pass) (diff pass) in
      if hasType targetDelta eventsAdded
      then merged (mergeAutoEventsAdded base targetDeltaData)
      else if hasType targetDelta eventsRemoved
      then merged (mergeAutoEventsRemoved base targetDeltaData)
      else if hasType targetDelta eventsChanged
      then merged (mergeAutoEventsChanged base targetDeltaData)
      else merged (eventsDeltaData pass)
    else pass in
  let bothDeltasArePatternType :=
    checkIfDeltaIsPatternType stateDelta && checkIfDeltaIsPatternType targetDelta in
  if bothDeltasArePatternType then
    let incrementalMerge := isValid (clipsDeltaData pass) in
    let base := if incrementalMerge then clipsDeltaData pass else stateDeltaData in
    let merged (data : SerializedData) :=
      mkMergePass true (eventsDeltaData pass) data (diff pass) in
    if hasType targetDelta clipsAdded
    then merged (mergeClipsAdded base targetDeltaData)
    else if hasType targetDelta clipsRemoved
    then merged (mergeClipsRemoved base targetDeltaData)
    else if hasType targetDelta clipsChanged
    then merged (mergeClipsChanged base targetDeltaData)
    else merged (clipsDeltaData pass)
  else pass.

(** The body of the loop over [i] of step 1. *)
Definition mergeStateDelta (target : TrackedItem) (diff0 : Diff) (state : DeltaDiff) : Diff :=
  let stateDelta := delta state in
  let stateDeltaData := deltaData state in
  let eventsDelta := mkDelta (mkDeltaDescription headStateDelta None) eventsAdded in
  let clipsDelta := mkDelta (mkDeltaDescription headStateDelta None) clipsAdded in
  let pass :=
    fold_left (mergeTargetDelta stateDelta stateDeltaData) target
      (mkMergePass false None None diff0) in
  let diff1 :=
    if isValid (eventsDeltaData pass)
    then applyDelta (diff pass) eventsDelta (eventsDeltaData pass)
    else diff pass in
  let diff2 :=
    if isValid (clipsDeltaData pass)
    then applyDelta diff1 clipsDelta (clipsDeltaData pass)
    else diff1 in
  if negb (deltaFoundInChanges pass)
  then applyDelta diff2 (Delta_createCopy stateDelta) stateDeltaData
  else diff2.

(** Step 2, the time signatures a state of an earlier version lacks. *)
Definition resolveTimeSignature (target : TrackedItem) (diff0 : Diff) : Diff :=
  let emptyTimeSignatureDeltaData := emptyTree timeSignaturesChanged in
  let timeSignatureDelta :=
    mkDelta (mkDeltaDescription headStateDelta None) timeSignaturesChanged in
  let mergedTimeSignatureDeltaData :=
    fold_left
      (fun merged targetDelta =>
         if hasType (delta targetDelta) timeSignaturesChanged
         then mergeTimeSignature emptyTimeSignatureDeltaData (deltaData targetDelta)
         else merged)
      target None in
  if isValid mergedTimeSignatureDeltaData
  then applyDelta diff0 timeSignatureDelta mergedTimeSignatureDeltaData
  else applyDelta diff0 timeSignatureDelta emptyTimeSignatureDeltaData.

(** Step 2, the clips a state of an earlier version lacks. *)
Definition resolveClips (target : TrackedItem) (diff0 : Diff) : Diff :=
  let emptyClipsDeltaData := emptyTree clipsAdded in
  let clipsDelta := mkDelta (mkDeltaDescription headStateDelta None) clipsAdded in
  let mergedClipsDeltaData :=
    fold_left
      (fun merged targetDelta =>
         if checkIfDeltaIsPatternType (delta targetDelta) then
           let incrementalMerge := isValid merged in
           let base := if incrementalMerge then merged else emptyClipsDeltaData in
           if hasType (delta targetDelta) clipsAdded
           then mergeClipsAdded base (deltaData targetDelta)
           else if hasType (delta targetDelta) clipsRemoved
           then mergeClipsRemoved base (deltaData targetDelta)
           else if hasType (delta targetDelta) clipsChanged
           then mergeClipsChanged base (deltaData targetDelta)
           else merged
         else merged)
      target None in
  if isValid mergedClipsDeltaData
  then applyDelta diff0 clipsDelta mergedClipsDeltaData
  else applyDelta diff0 clipsDelta emptyClipsDeltaData.

(** [AutomationTrackDiffLogic::createMergedItem]: [target] is the item the
    logic is bound to, [initialState] the argument. *)
Definition createMergedItem (target initialState : TrackedItem) : Diff :=
  let diff0 : Diff := [] in
  let diff1 := fold_left (mergeStateDelta target) initialState diff0 in
  let stateHasClips :=
    fold_left (fun has stateDelta => has || checkIfDeltaIsPatternType (delta stateDelta))
      initialState false in
  let stateHasTrackTimeSignature :=
    fold_left (fun has stateDelta => has || hasType (delta stateDelta) timeSignaturesChanged)
      initialState false in
  let diff2 :=
    if negb stateHasTrackTimeSignature then resolveTimeSignature target diff1 else diff1 in
  if negb stateHasClips then resolveClips target diff2 else diff2.

(** ** The vocabulary of the statements *)

(** The node [serialize] makes of an event. *)
Definition eventNode (e : AutomationEvent) : Node :=
  mkNode automationEvent
    [ (attrId, varInt (getId e));
      (attrBeat, varFloat (getBeat e));
      (attrCurvature, varFloat (getCurvature e));
      (attrValue, varFloat (getControllerValue e)) ]
    [].

(** The payload that lists [events] in this order under [tag]. *)
Definition sequenceTree (tag : Identifier) (events : list AutomationEvent) : SerializedData :=
  Some (mkNode tag [] (map eventNode events)).

(** The sequence of events a payload deserializes into. *)
Definition eventsOf (d : SerializedData) : list AutomationEvent :=
  map pointee (fst (deserializeAutoTrackChanges d None)).

Definition ids (events : list AutomationEvent) : list Z := map getId events.

(** The test of the collecting loops, on events rather than on pointers. *)
Definition idIn (events : list AutomationEvent) (e : AutomationEvent) : bool :=
  existsb (fun other => getId other =? getId e) events.

(** The objects the loop allocates, in the order of the nodes. *)
Fixpoint allocated (heap : nat) (nodes : list Node) : list MidiEventPtr :=
  match nodes with
  | [] => []
  | e :: rest => mkPtr heap (deserialize e) :: allocated (S heap) rest
  end.

(** What the inner loop of the changed-merge and of the diff finds for a
    state event: the first changes event with its id. *)
Definition counterpart (changesEvents : list AutomationEvent) (stateEvent : AutomationEvent)
  : option AutomationEvent :=
  find (fun c => getId stateEvent =? getId c) changesEvents.

Definition optionToList {A : Type} (o : option A) : list A :=
  match o with Some a => [a] | None => [] end.

(** What a state event contributes to the changed group of the diff. *)
Definition changedCounterpart (changesEvents : list AutomationEvent)
    (stateEvent : AutomationEvent) : list AutomationEvent :=
  match counterpart changesEvents stateEvent with
  | Some changesEvent =>
      if eventHasChanged stateEvent changesEvent then [changesEvent] else []
  | None => []
  end.

(** The deltas a group of the diff is emitted as: none when it is empty, else
    one, tagged [tag], whose description carries the count. *)
Definition deltaGroup (description : string) (tag : Identifier)
    (events : list AutomationEvent) : list DeltaDiff :=
  match events with
  | [] => []
  | _ :: _ =>
      [ mkDeltaDiff
          (mkDelta (mkDeltaDescription description (Some (Z.of_nat (List.length events)))) tag)
          (sequenceTree tag events) ]
  end.

(** Sorted by beat: no event has a beat less than that of an event before it. *)
Definition beatLe (a b : AutomationEvent) : Prop :=
  float_ltb (getBeat b) (getBeat a) = false.

Definition sortedByBeat (events : list AutomationEvent) : Prop :=
  StronglySorted beatLe events.

(** The event children of a payload, in the order the payload lists them. *)
Definition listedEvents (d : SerializedData) : list AutomationEvent :=
  map deserialize (childrenWithType d automationEvent).

(** ** The vocabulary of the statements on [createMergedItem] *)

(** The five scalar delta types [createMergedItem] dispatches on. *)
Definition isScalarType (t : Identifier) : bool :=
  match t with
  | trackPath | trackColour | trackInstrument | trackController
  | timeSignaturesChanged => true
  | _ => false
  end.

Definition isEventsFamily (d : Delta) : bool := checkIfDeltaIsEventsType d.
Definition isClipsFamily (d : Delta) : bool := checkIfDeltaIsPatternType d.

(** A target delta matches a state delta when the loop over the target sets
    [deltaFoundInChanges] at it. *)
Definition matchesInTarget (stateDelta targetDelta : Delta) : bool :=
  Identifier_eqb (getType stateDelta) (getType targetDelta)
  || (checkIfDeltaIsEventsType stateDelta && checkIfDeltaIsEventsType targetDelta)
  || (checkIfDeltaIsPatternType stateDelta && checkIfDeltaIsPatternType targetDelta).

Definition countDeltas (p : Delta -> bool) (d : list DeltaDiff) : nat :=
  List.length (filter (fun x => p (delta x)) d).

(** What one target delta adds to the diff in the strict branch. *)
Definition strictMerge (stateDelta : Delta) (target : DeltaDiff) : list DeltaDiff :=
  if Identifier_eqb (getType stateDelta) (getType (delta target))
     && isScalarType (getType (delta target))
  then [ mkDeltaDiff (mkDelta (getDescription (delta target)) (getType (delta target)))
           (deltaData target) ]
  else [].

(** What one target delta makes of [eventsDeltaData]. *)
Definition mergedEvents (stateDelta : Delta) (stateDeltaData : SerializedData)
    (eventsData : SerializedData) (target : DeltaDiff) : SerializedData :=
  if checkIfDeltaIsEventsType stateDelta && checkIfDeltaIsEventsType (delta target) then
    let base := if isValid eventsData then eventsData else stateDeltaData in
    if hasType (delta target) eventsAdded
    then mergeAutoEventsAdded base (deltaData target)
    else if hasType (delta target) eventsRemoved
    then mergeAutoEventsRemoved base (deltaData target)
    else if hasType (delta target) eventsChanged
    then mergeAutoEventsChanged base (deltaData target)
    else eventsData
  else eventsData.

(** What one target delta makes of [clipsDeltaData]. *)
Definition mergedClips (stateDelta : Delta) (stateDeltaData : SerializedData)
    (clipsData : SerializedData) (target : DeltaDiff) : SerializedData :=
  if checkIfDeltaIsPatternType stateDelta && checkIfDeltaIsPatternType (delta target) then
    let base := if isValid clipsData then clipsData else stateDeltaData in
    if hasType (delta target) clipsAdded
    then mergeClipsAdded base (deltaData target)
    else if hasType (delta target) clipsRemoved
    then mergeClipsRemoved base (deltaData target)
    else if hasType (delta target) clipsChanged
    then mergeClipsChanged base (deltaData target)
    else clipsData
  else clipsData.

Definition headDelta (type : Identifier) : Delta :=
  mkDelta (mkDeltaDescription headStateDelta None) type.

(** What step 1 applies to the diff for one state delta. *)
Definition emitted (target : TrackedItem) (state : DeltaDiff) : list DeltaDiff :=
  let events :=
    fold_left (mergedEvents (delta state) (deltaData state)) target None in
  let clips :=
    fold_left (mergedClips (delta state) (deltaData state)) target None in
  flat_map (strictMerge (delta state)) target
  ++ (if isValid events then [mkDeltaDiff (headDelta eventsAdded) events] else [])
  ++ (if isValid clips then [mkDeltaDiff (headDelta clipsAdded) clips] else [])
  ++ (if existsb (fun t => matchesInTarget (delta state) (delta t)) target
      then [] else [state]).

(** The payloads step 2 settles on, before it tests them. *)
Definition mergedTimeSignature (target : TrackedItem) : SerializedData :=
  fold_left
    (fun merged targetDelta =>
       if hasType (delta targetDelta) timeSignaturesChanged
       then mergeTimeSignature (emptyTree timeSignaturesChanged) (deltaData targetDelta)
       else merged)
    target None.

Definition mergedPattern (merged : SerializedData) (targetDelta : DeltaDiff) : SerializedData :=
  if checkIfDeltaIsPatternType (delta targetDelta) then
    let base := if isValid merged then merged else emptyTree clipsAdded in
    if hasType (delta targetDelta) clipsAdded
    then mergeClipsAdded base (deltaData targetDelta)
    else if hasType (delta targetDelta) clipsRemoved
    then mergeClipsRemoved base (deltaData targetDelta)
    else if hasType (delta targetDelta) clipsChanged
    then mergeClipsChanged base (deltaData targetDelta)
    else merged
  else merged.

Definition orDefault (merged : SerializedData) (tag : Identifier) : SerializedData :=
  if isValid merged then merged else emptyTree tag.

(** What step 2 applies to the diff. *)
Definition synthesized (target state : TrackedItem) : list DeltaDiff :=
  (if existsb (fun s => hasType (delta s) timeSignaturesChanged) state then []
   else [ mkDeltaDiff (headDelta timeSignaturesChanged)
            (orDefault (mergedTimeSignature target) timeSignaturesChanged) ])
  ++ (if existsb (fun s => checkIfDeltaIsPatternType (delta s)) state then []
      else [ mkDeltaDiff (headDelta clipsAdded)
               (orDefault (fold_left mergedPattern target None) clipsAdded) ]).

(** The kind of a delta type: its family for an events or a pattern type,
    else the type itself. *)
Inductive DeltaKind : Type :=
| eventsKind
| clipsKind
| typeKind (type : Identifier).

Definition kindOf (d : Delta) : DeltaKind :=
  if checkIfDeltaIsEventsType d then eventsKind
  else if checkIfDeltaIsPatternType d then clipsKind
  else typeKind (getType d).

(** The delta types that [createMergedItem] names. *)
Definition dispatchedTypes : list Identifier :=
  [ trackPath; trackColour; trackInstrument; trackController; timeSignaturesChanged;
    eventsAdded; eventsRemoved; eventsChanged;
    clipsAdded; clipsRemoved; clipsChanged ].

(** The payload the next events merge of the loop starts from: what was
    merged so far, or the state's payload when nothing was. *)
Definition mergeBase (stateDeltaData eventsData : SerializedData) : SerializedData :=
  if isValid eventsData then eventsData else stateDeltaData.

End MergedItem.

(** ** createDiff *)

(** What [createDiff] uses and this translation unit does not define: the
    four diffs shared by all tracks, declared [extern];
    [PatternDiffHelpers::createClipsDiffs]; and the comparison
    [SerializedData::isEquivalentTo].  What follows holds whatever they
    compute. *)
Class TrackDiffs : Type := {
  createPathDiff : SerializedData -> SerializedData -> DeltaDiff;
  createColourDiff : SerializedData -> SerializedData -> DeltaDiff;
  createInstrumentDiff : SerializedData -> SerializedData -> DeltaDiff;
  createTimeSignatureDiff : SerializedData -> SerializedData -> DeltaDiff;
  createClipsDiffs : SerializedData -> SerializedData -> list DeltaDiff;
  isEquivalentTo : SerializedData -> SerializedData -> bool }.

Section DiffOfItems.

Context {trackDiffs : TrackDiffs}.

Definition createAutoTrackControllerDiff (state changes : SerializedData) : DeltaDiff :=
  mkDeltaDiff
    (mkDelta (mkDeltaDescription "controller changed"%string None) trackController)
    (createCopy changes).

(** [Diff::applyDelta (DeltaDiff &&)] and [Diff::applyDeltas]. *)
Definition applyDeltaDiff (diff : Diff) (deltaDiff : DeltaDiff) : Diff :=
  applyDelta diff (delta deltaDiff) (deltaData deltaDiff).

Definition applyDeltas (diff : Diff) (deltaDiffs : list DeltaDiff) : Diff :=
  fold_left applyDeltaDiff deltaDiffs diff.

(** A delta of the target of [createDiff], its data, and what
    [deltaHasDefaultData] answers at its index. *)
Record TargetDelta : Type := mkTargetDelta {
  targetDelta : DeltaDiff;
  deltaHasDefaultData : bool }.

(** The loop over [j]: the first delta of the state with the type of
    [myDelta], where the loop breaks. *)
Definition findInState (myDelta : Delta) (initialState : TrackedItem) : option DeltaDiff :=
  find (fun stateDelta => Identifier_eqb (getType myDelta) (getType (delta stateDelta)))
    initialState.

(** The body of the loop over [i]. *)
Definition diffTargetDelta (initialState : TrackedItem) (diff : Diff) (my : TargetDelta)
  : Diff :=
  let myDelta := delta (targetDelta my) in
  let myDeltaData := deltaData (targetDelta my) in
  let '(deltaFoundInState, stateDeltaData, dataHasChanged) :=
    match findInState myDelta initialState with
    | Some stateDelta =>
        (true, deltaData stateDelta,
         negb (isEquivalentTo myDeltaData (deltaData stateDelta)))
    | None => (false, None, false)
    end in
  if (negb deltaFoundInState && negb (deltaHasDefaultData my)) || dataHasChanged then
    if hasType myDelta trackPath
    then applyDeltaDiff diff (createPathDiff stateDeltaData myDeltaData)
    else if hasType myDelta trackColour
    then applyDeltaDiff diff (createColourDiff stateDeltaData myDeltaData)
    else if hasType myDelta trackInstrument
    then applyDeltaDiff diff (createInstrumentDiff stateDeltaData myDeltaData)
    else if hasType myDelta timeSignaturesChanged
    then applyDeltaDiff diff (createTimeSignatureDiff stateDeltaData myDeltaData)
    else if hasType myDelta trackController
    then applyDeltaDiff diff (createAutoTrackControllerDiff stateDeltaData myDeltaData)
    else if hasType myDelta eventsAdded
    then applyDeltas diff (createAutoEventsDiffs stateDeltaData myDeltaData)
    else if hasType myDelta clipsAdded
    then applyDeltas diff (createClipsDiffs stateDeltaData myDeltaData)
    else diff
  else diff.

(** [AutomationTrackDiffLogic::createDiff]: [target] is the item the logic
    is bound to, [initialState] the argument. *)
Definition createDiff (target : list TargetDelta) (initialState : TrackedItem) : Diff :=
  fold_left (diffTargetDelta initialState) target [].

(** The delta types that [createDiff] names. *)
Definition isDiffedType (type : Identifier) : bool :=
  match type with
  | trackPath | trackColour | trackInstrument | timeSignaturesChanged
  | trackController | eventsAdded | clipsAdded => true
  | _ => false
  end.

End DiffOfItems.

(** ** The pattern helpers of the examples *)

(** Modelled from the spec: the clip merges of [PatternDiffHelpers] are
    defined outside this translation unit; clips are id-keyed records,
    reconciled as the events are.  The concrete examples run on this
    instance; the theorems hold for every instance. *)
Definition clipRecords (d : SerializedData) : list Node := childrenWithType d clip.

Definition clipId (record : Node) : Z := intProperty record attrId.

Definition clipIn (records : list Node) (record : Node) : bool :=
  existsb (fun other => clipId other =? clipId record) records.

Definition clipsTree (records : list Node) : SerializedData :=
  Some (mkNode clipsAdded [] records).

Definition clipsUnion (state changes : SerializedData) : SerializedData :=
  clipsTree
    (clipRecords state
     ++ filter (fun c => negb (clipIn (clipRecords state) c)) (clipRecords changes)).

Definition clipsWithout (state changes : SerializedData) : SerializedData :=
  clipsTree (filter (fun s => negb (clipIn (clipRecords changes) s)) (clipRecords state)).

Definition clipsReplaced (state changes : SerializedData) : SerializedData :=
  clipsTree
    (filter (fun s => negb (clipIn (clipRecords changes) s)) (clipRecords state)
     ++ flat_map
          (fun s => optionToList (find (fun c => clipId s =? clipId c) (clipRecords changes)))
          (clipRecords state)).

Definition clipsById : PatternDiffHelpers :=
  {| mergeClipsAdded := clipsUnion;
     mergeClipsRemoved := clipsWithout;
     mergeClipsChanged := clipsReplaced |}.

End Model.

(** ** Concrete snapshots *)

Module Examples.

#[local] Existing Instance Z_FloatOps.
#[local] Existing Instance clipsById.

Local Abbreviation SerializedData := (@SerializedData Z) (only parsing).
Local Abbreviation AutomationEvent := (@AutomationEvent Z) (only parsing).
Local Abbreviation TrackedItem := (@TrackedItem Z) (only parsing).

(** An event with the given id and beat, and curvature and value zero. *)
Definition event (id beat : Z) : AutomationEvent := mkAutomationEvent id beat 0 0.

(** The snapshots of the spec's example of a collection diff. *)
Definition diffState : SerializedData :=
  sequenceTree eventsAdded [event 1 0; event 2 1].

Definition diffChanges : SerializedData :=
  sequenceTree eventsAdded [event 2 2; event 3 3].

(** A state whose only event is later than the only event of the changes. *)
Definition lateState : SerializedData := sequenceTree eventsAdded [event 1 5].

Definition earlyChanges : SerializedData := sequenceTree eventsAdded [event 2 1].

(** Two events that the changes move and swap. *)
Definition orderedState : SerializedData :=
  sequenceTree eventsAdded [event 1 0; event 2 1].

Definition swappedChanges : SerializedData :=
  sequenceTree eventsChanged [event 1 5; event 2 3].

Definition described (text : string) (type : Identifier) : Delta :=
  mkDelta (mkDeltaDescription text None) type.

(** A track path as a payload. *)
Definition pathData (path : string) : SerializedData :=
  Some (mkNode trackPath [(otherIdentifier "path", varString path)] []).

Definition stateWithPathA : TrackedItem :=
  [ mkDeltaDiff (described "moved from" trackPath) (pathData "A") ].

Definition targetWithPathB : TrackedItem :=
  [ mkDeltaDiff (described "moved to" trackPath) (pathData "B") ].

(** A time signature as a payload: one child with a numerator and a denominator. *)
Definition timeSignatureData : SerializedData :=
  Some (mkNode timeSignaturesChanged []
          [ mkNode (otherIdentifier "timeSignature")
              [ (otherIdentifier "numerator", varInt 3);
                (otherIdentifier "denominator", varInt 4) ] [] ]).

(** A state of an earlier version: events only. *)
Definition stateWithEventsOnly : TrackedItem :=
  [ mkDeltaDiff (headDelta eventsAdded) diffState ].

Definition targetWithTimeSignature : TrackedItem :=
  [ mkDeltaDiff (described "time signatures changed" timeSignaturesChanged)
      timeSignatureData ].

(** A state and a target that both carry two deltas of the events family. *)
Definition stateWithTwoEventsDeltas : TrackedItem :=
  [ mkDeltaDiff (headDelta eventsAdded) diffState;
    mkDeltaDiff (described "changed {x} events" eventsChanged) diffChanges ].

Definition targetWithTwoEventsDeltas : TrackedItem :=
  [ mkDeltaDiff (described "added {x} events" eventsAdded) lateState;
    mkDeltaDiff (described "changed {x} events" eventsChanged) swappedChanges ].

(** A delta of a type that this version of the logic does not name. *)
Definition lyrics : Identifier := otherIdentifier "lyrics".

Definition stateWithLyrics : TrackedItem :=
  [ mkDeltaDiff (described "lyrics changed" lyrics) (emptyTree lyrics);
    mkDeltaDiff (headDelta eventsAdded) diffState ].

Definition targetWithLyrics : TrackedItem :=
  [ mkDeltaDiff (described "lyrics changed" lyrics) (emptyTree lyrics) ].

(** ** The diffs of the examples *)

(** The functions [createDiff] calls and this translation unit does not
    define, for the concrete examples: two payloads are equivalent when they
    are the same tree, a scalar diff carries the data of the changes under a
    description of its own, and clips are not diffed.  The theorems hold for
    every instance. *)
Definition var_eqb (a b : @var Z) : bool :=
  match a, b with
  | varInt i, varInt j => i =? j
  | varFloat x, varFloat y => x =? y
  | varString s, varString t => String.eqb s t
  | _, _ => false
  end.

Fixpoint properties_eqb (p q : list (Identifier * @var Z)) : bool :=
  match p, q with
  | [], [] => true
  | (k, v) :: p, (l, w) :: q => Identifier_eqb k l && var_eqb v w && properties_eqb p q
  | _, _ => false
  end.

Fixpoint Node_eqb (a b : @Node Z) : bool :=
  match a, b with
  | mkNode ta pa ca, mkNode tb pb cb =>
      Identifier_eqb ta tb && properties_eqb pa pb
      && (fix children_eqb (l1 l2 : list (@Node Z)) : bool :=
            match l1, l2 with
            | [], [] => true
            | x :: l1, y :: l2 => Node_eqb x y && children_eqb l1 l2
            | _, _ => false
            end) ca cb
  end.

Definition sameTree (a b : SerializedData) : bool :=
  match a, b with
  | Some x, Some y => Node_eqb x y
  | None, None => true
  | _, _ => false
  end.

Definition scalarDiff (text : string) (type : Identifier) (state changes : SerializedData)
  : @DeltaDiff Z :=
  mkDeltaDiff (described text type) (createCopy changes).

Definition diffsOfTrees : @TrackDiffs Z :=
  {| createPathDiff := scalarDiff "moved" trackPath;
     createColourDiff := scalarDiff "recoloured" trackColour;
     createInstrumentDiff := scalarDiff "instrument changed" trackInstrument;
     createTimeSignatureDiff := scalarDiff "time signatures changed" timeSignaturesChanged;
     createClipsDiffs := fun _ _ => [];
     isEquivalentTo := sameTree |}.

(** An item that carries a path and events, and the state it is diffed
    against; the controller of [itemAtDefault] is at its default. *)
Definition itemWithPathB : list (@TargetDelta Z) :=
  [ mkTargetDelta (mkDeltaDiff (described "moved to" trackPath) (pathData "B")) false;
    mkTargetDelta (mkDeltaDiff (headDelta eventsAdded) diffChanges) false ].

Definition stateOfItem : TrackedItem :=
  [ mkDeltaDiff (described "moved from" trackPath) (pathData "A");
    mkDeltaDiff (headDelta eventsAdded) diffState ].

Definition itemAtDefault : list (@TargetDelta Z) :=
  [ mkTargetDelta (mkDeltaDiff (described "moved from" trackPath) (pathData "A")) false;
    mkTargetDelta (mkDeltaDiff (headDelta trackController) (emptyTree trackController)) true;
    mkTargetDelta (mkDeltaDiff (headDelta eventsAdded) diffState) false ].

(** ** Beats with a NaN *)

(** Floats with a NaN, [None]: it is less than no float, no float is less
    than it, and it is equal to none. *)
Definition NaN_FloatOps : FloatOps (option Z) :=
  {| float_zero := Some 0;
     float_eqb :=
       fun a b => match a, b with Some x, Some y => x =? y | _, _ => false end;
     float_ltb :=
       fun a b => match a, b with Some x, Some y => x <? y | _, _ => false end |}.

Definition eventAt (id : Z) (beat : option Z) :=
  mkAutomationEvent id beat (Some 0) (Some 0).

(** A payload that lists a beat that is a NaN, then the beats 5 and 7. *)
Definition beatsWithNaN :=
  sequenceTree eventsAdded [eventAt 1 None; eventAt 2 (Some 5); eventAt 3 (Some 7)].

End Examples.

(** * The collection of chords

    A shallow embedding of [Source/Core/Configuration/Resources/ChordsCollection.cpp]:
    the comparator that sorts the chords in the order of the file they were
    read from, and the reading of that file. *)

Module ChordsCollection.

(** [int] arithmetic: the result of an operation, wrapped to 32 bits. *)
Definition wrap (z : Z) : Z := (z + 2 ^ 31) mod 2 ^ 32 - 2 ^ 31.

Definition intOfBool (b : bool) : Z := if b then 1 else 0.

(** [StringArray::indexOf] of the JUCE library: the index of the first
    string equal to [id], or -1. *)
Fixpoint indexOfFrom (index : Z) (order : list string) (id : string) : Z :=
  match order with
  | [] => -1
  | s :: rest => if String.eqb s id then index else indexOfFrom (index + 1) rest id
  end.

Definition indexOf (order : list string) (id : string) : Z := indexOfFrom 0 order id.

(** [String::compare] of the JUCE library: zero, negative or positive. *)
Class StringCompare : Type := { String_compare : string -> string -> Z }.

(** The keys [Serialization::Resources::chords] and
    [Serialization::Midi::chord], declared outside this translation unit:
    two identifiers that differ. *)
Definition chords : Identifier := otherIdentifier "chords".
Definition chord : Identifier := otherIdentifier "chord".

Section Collection.

Context {float : Type}.

(** What the collection asks of a chord, a class declared outside this
    translation unit: its resource id, and [Chord::deserialize], here from
    the node to the chord read from it. *)
Class ChordResource (Chord : Type) : Type := {
  getResourceId : Chord -> string;
  deserializeChord : @Node float -> Chord }.

Context {Chord : Type} {chordResource : ChordResource Chord}.
Context {stringCompare : StringCompare}.

Definition compareElements (order : list string) (first second : Chord) : Z :=
  let i1 := indexOf order (getResourceId first) in
  let i2 := indexOf order (getResourceId second) in
  let mixedDiff := wrap (intOfBool (negb (i2 =? -1)) - intOfBool (negb (i1 =? -1))) in
  if negb (mixedDiff =? 0) then mixedDiff
  else
    let indexDiff :=
      wrap (intOfBool (wrap (i1 - i2) >? 0) - intOfBool (wrap (i1 - i2) <? 0)) in
    if negb (indexDiff =? 0) then indexDiff
    else String_compare (getResourceId first) (getResourceId second).

(** [SerializedData::hasType] and [SerializedData::getChildWithName]: the
    tag of the tree, and its first child with a tag, invalid when there is
    none. *)
Definition treeHasType (tree : @SerializedData float) (type : Identifier) : bool :=
  match tree with
  | Some t => Identifier_eqb (nodeType t) type
  | None => false
  end.

Definition getChildWithName (tree : @SerializedData float) (type : Identifier)
  : @SerializedData float :=
  match tree with
  | Some t => find (fun c => Identifier_eqb (nodeType c) type) (children t)
  | None => None
  end.

(** The map [outResources] the reading fills, and the member [order]. *)
Record Collection : Type := mkCollection {
  resources : string -> option Chord;
  order : list string }.

(** [outResources[id] = chord]. *)
Definition setResource (outResources : string -> option Chord) (id : string) (c : Chord)
  : string -> option Chord :=
  fun key => if String.eqb key id then Some c else outResources key.

Definition deserializeResources (tree : @SerializedData float) (collection : Collection)
  : Collection :=
  let root := if treeHasType tree chords then tree else getChildWithName tree chords in
  if negb (isValid root) then collection
  else
    fold_left
      (fun collection chordNode =>
         let c := deserializeChord chordNode in
         mkCollection
           (setResource (resources collection) (getResourceId c) c)
           (order collection ++ [getResourceId c]))
      (childrenWithType root chord) collection.

(** The chords a tree holds, in the order of the file. *)
Definition chordsOf (tree : @SerializedData float) : list Chord :=
  let root := if treeHasType tree chords then tree else getChildWithName tree chords in
  map deserializeChord (childrenWithType root chord).

End Collection.

(** The comparison of the examples: the sign of the lexicographic order. *)
Definition lexicographic : StringCompare :=
  {| String_compare :=
       fun a b => match String.compare a b with Eq => 0 | Lt => -1 | Gt => 1 end |}.

(** The chords of the examples: a chord is its name, which is its id, read
    from the attribute [name] of its node. *)
Definition chordName : Identifier := otherIdentifier "name".

Definition namedChords : @ChordResource Z string :=
  {| getResourceId := fun name => name;
     deserializeChord :=
       fun chordNode =>
         match getProperty chordNode chordName with
         | Some (varString name) => name
         | _ => EmptyString
         end |}.

Definition chordNode (name : string) : @Node Z :=
  mkNode chord [(chordName, varString name)] [].

Definition chordsFile : @SerializedData Z :=
  Some (mkNode chords [] [chordNode "min"; chordNode "maj"; chordNode "dim"]).

End ChordsCollection.

(** * Proofs *)

Section Proofs.

Context {float : Type} {floatOps : FloatOps float}.
Context {patternDiffHelpers : @PatternDiffHelpers float}.

Local Abbreviation Node := (@Node float) (only parsing).
Local Abbreviation SerializedData := (@SerializedData float) (only parsing).
Local Abbreviation AutomationEvent := (@AutomationEvent float) (only parsing).
Local Abbreviation MidiEventPtr := (@MidiEventPtr float) (only parsing).
Local Abbreviation DeltaDiff := (@DeltaDiff float) (only parsing).
Local Abbreviation TrackedItem := (@TrackedItem float) (only parsing).


Lemma Identifier_eqb_eq a b : Identifier_eqb a b = true <-> a = b.
Proof. unfold Identifier_eqb. destruct (Identifier_eq_dec a b); split; congruence. Qed.

Lemma Identifier_eqb_refl a : Identifier_eqb a a = true.
Proof. now apply Identifier_eqb_eq. Qed.

Lemma Delta_createCopy_id d : Delta_createCopy d = d.
Proof. now destruct d. Qed.

(** ** Serialization *)

Lemma serialize_eventNode (e : AutomationEvent) : serialize e = Some (eventNode e).
Proof. reflexivity. Qed.

Lemma deserialize_eventNode (e : AutomationEvent) : deserialize (eventNode e) = e.
Proof. now destruct e. Qed.

Lemma serializeAutoSequence_from (l : list MidiEventPtr) t :
  fold_left (fun tree event => appendChild tree (serialize (pointee event))) l (Some t)
  = Some (mkNode (nodeType t) (properties t) (children t ++ map eventNode (map pointee l))).
Proof.
  revert t. induction l as [|p l IH]; intros t; simpl.
  - rewrite app_nil_r. now destruct t.
  - rewrite IH. simpl. now rewrite <- app_assoc.
Qed.

Lemma serializeAutoSequence_spec (l : list MidiEventPtr) tag :
  serializeAutoSequence l tag = sequenceTree tag (map pointee l).
Proof. unfold serializeAutoSequence, emptyTree. now rewrite serializeAutoSequence_from. Qed.

Lemma childrenWithType_sequenceTree tag (events : list AutomationEvent) :
  childrenWithType (sequenceTree tag events) automationEvent = map eventNode events.
Proof.
  unfold childrenWithType, sequenceTree. simpl.
  induction events as [|e l IH]; simpl; [reflexivity|]. now rewrite IH.
Qed.

(** ** The loops that collect notes *)

Lemma fold_left_collect {A : Type} (skip : A -> bool) (l r : list A) :
  fold_left (fun result x => if skip x then result else result ++ [x]) l r
  = r ++ filter (fun x => negb (skip x)) l.
Proof.
  revert r. induction l as [|x l IH]; intros r; simpl.
  - now rewrite app_nil_r.
  - rewrite IH. destruct (skip x); simpl; [reflexivity|]. now rewrite <- app_assoc.
Qed.

Lemma idIn_spec (events : list AutomationEvent) e : idIn events e = true <-> In (getId e) (ids events).
Proof.
  unfold idIn, ids. rewrite existsb_exists, in_map_iff.
  split; intros [x [H1 H2]]; exists x.
  - split; [now apply Z.eqb_eq|assumption].
  - split; [assumption|now apply Z.eqb_eq].
Qed.

Lemma idIn_false (events : list AutomationEvent) e : idIn events e = false <-> ~ In (getId e) (ids events).
Proof. rewrite <- idIn_spec. destruct (idIn events e); split; congruence. Qed.

Lemma foundNoteIn_idIn (notes : list MidiEventPtr) note :
  foundNoteIn notes note = idIn (map pointee notes) (pointee note).
Proof.
  unfold foundNoteIn, idIn. induction notes as [|p l IH]; simpl; [reflexivity|]. now rewrite IH.
Qed.

Lemma map_filter_pointee (f : AutomationEvent -> bool) (l : list MidiEventPtr) :
  map pointee (filter (fun p => f (pointee p)) l) = filter f (map pointee l).
Proof. induction l as [|p l IH]; simpl; [reflexivity|]. destruct (f (pointee p)); simpl; now rewrite IH. Qed.

(** ** Deserialization *)

Lemma findInsertIndexInSortedArray_fuel {A : Type} (compare : A -> A -> Z)
    (array : list A) (newElement : A) :
  forall fuel fuel' firstElement lastElement : nat,
    (lastElement - firstElement <= fuel)%nat ->
    (lastElement - firstElement <= fuel')%nat ->
    findInsertIndexInSortedArray compare array newElement fuel firstElement lastElement
    = findInsertIndexInSortedArray compare array newElement fuel' firstElement lastElement.
Proof.
  induction fuel as [|fuel IH]; intros fuel' f la H H'.
  - destruct fuel' as [|fuel']; [reflexivity|]. simpl.
    destruct (Nat.ltb_spec f la); [lia|reflexivity].
  - destruct fuel' as [|fuel'].
    + simpl. destruct (Nat.ltb_spec f la); [lia|reflexivity].
    + simpl. destruct (Nat.ltb_spec f la) as [Hlt|Hge]; [|reflexivity].
      destruct (compare newElement (nth f array newElement) =? 0); [reflexivity|].
      pose proof (Nat.div2_div (f + la)) as Hhalf.
      assert (Hbounds : (f <= Nat.div2 (f + la) < la)%nat).
      { rewrite Hhalf. split.
        - apply Nat.div_le_lower_bound; lia.
        - apply Nat.Div0.div_lt_upper_bound; lia. }
      destruct (Nat.eqb_spec (Nat.div2 (f + la)) f); [reflexivity|].
      destruct (compare newElement (nth (Nat.div2 (f + la)) array newElement) >=? 0);
        apply IH; lia.
Qed.

Lemma findInsertIndexInSortedArray_map {A B : Type} (f : A -> B) (compare : B -> B -> Z)
    (array : list A) (newElement : A) :
  forall fuel firstElement lastElement : nat,
    findInsertIndexInSortedArray (fun a b => compare (f a) (f b)) array newElement
      fuel firstElement lastElement
    = findInsertIndexInSortedArray compare (map f array) (f newElement)
        fuel firstElement lastElement.
Proof.
  induction fuel as [|fuel IH]; intros fi la; simpl; [reflexivity|].
  rewrite !map_nth, !IH. reflexivity.
Qed.

Lemma addSorted_map {A B : Type} (f : A -> B) (compare : B -> B -> Z)
    (newElement : A) (array : list A) :
  map f (addSorted (fun a b => compare (f a) (f b)) newElement array)
  = addSorted compare (f newElement) (map f array).
Proof.
  unfold addSorted, insert.
  rewrite findInsertIndexInSortedArray_map, length_map, map_app. simpl.
  now rewrite firstn_map, skipn_map.
Qed.

Lemma addSorted_events (p : MidiEventPtr) (l : list MidiEventPtr) :
  map pointee (addSorted compareEvents p l)
  = addSorted compareElements (pointee p) (map pointee l).
Proof. apply (addSorted_map pointee compareElements). Qed.

Lemma addSorted_pointee p p' l l' :
  pointee p = pointee p' -> map pointee l = map pointee l' ->
  map pointee (addSorted compareEvents p l) = map pointee (addSorted compareEvents p' l').
Proof.
  intros Hp Hl. rewrite !addSorted_events. now rewrite Hp, Hl.
Qed.

Lemma deserializeEvents_pointee nodes : forall h h' acc acc',
  map pointee acc = map pointee acc' ->
  map pointee (snd (deserializeEvents h nodes acc))
  = map pointee (snd (deserializeEvents h' nodes acc')).
Proof.
  induction nodes as [|n nodes IH]; intros h h' acc acc' H; simpl; [assumption|].
  apply IH. now apply addSorted_pointee.
Qed.

Lemma addSorted_Permutation {A : Type} (compare : A -> A -> Z) (p : A) (l : list A) :
  Permutation (addSorted compare p l) (p :: l).
Proof.
  unfold addSorted, insert.
  set (i := findInsertIndexInSortedArray _ _ _ _ _ _).
  rewrite <- Permutation_middle. now rewrite firstn_skipn.
Qed.

Lemma deserializeEvents_Permutation nodes : forall h acc,
  Permutation (snd (deserializeEvents h nodes acc)) (acc ++ allocated h nodes).
Proof.
  induction nodes as [|n nodes IH]; intros h acc; simpl.
  - now rewrite app_nil_r.
  - rewrite IH, addSorted_Permutation. apply Permutation_middle.
Qed.

Lemma deserializeEvents_heap nodes : forall h acc,
  fst (deserializeEvents h nodes acc) = (h + List.length nodes)%nat.
Proof.
  induction nodes as [|n nodes IH]; intros h acc; simpl; [lia|]. rewrite IH. lia.
Qed.

Lemma allocated_address (nodes : list Node) : forall h,
  map address (allocated h nodes) = seq h (List.length nodes).
Proof. induction nodes as [|n nodes IH]; intros h; simpl; [reflexivity|]. now rewrite IH. Qed.

Lemma allocated_pointee (nodes : list Node) : forall h,
  map pointee (allocated h nodes) = map deserialize nodes.
Proof. induction nodes as [|n nodes IH]; intros h; simpl; [reflexivity|]. now rewrite IH. Qed.

Lemma deserializeAutoTrackChanges_unfold state changes :
  deserializeAutoTrackChanges state changes
  = (snd (deserializeEvents 0 (childrenWithType state automationEvent) []),
     snd (deserializeEvents (List.length (childrenWithType state automationEvent))
            (childrenWithType changes automationEvent) [])).
Proof.
  unfold deserializeAutoTrackChanges.
  destruct state as [s|]; simpl isValid; cbv iota.
  - pose proof (deserializeEvents_heap (childrenWithType (Some s) automationEvent) 0 []) as Hh.
    destruct (deserializeEvents 0 (childrenWithType (Some s) automationEvent) []) as [h S].
    simpl in Hh. subst h.
    destruct changes as [c|]; simpl isValid; cbv iota.
    + now destruct (deserializeEvents _ (childrenWithType (Some c) automationEvent) []).
    + reflexivity.
  - destruct changes as [c|]; simpl isValid; cbv iota.
    + now destruct (deserializeEvents _ (childrenWithType (Some c) automationEvent) []).
    + reflexivity.
Qed.

Lemma deserialized_state state changes :
  map pointee (fst (deserializeAutoTrackChanges state changes)) = eventsOf state.
Proof. unfold eventsOf. now rewrite !deserializeAutoTrackChanges_unfold. Qed.

Lemma deserialized_changes state changes :
  map pointee (snd (deserializeAutoTrackChanges state changes)) = eventsOf changes.
Proof.
  unfold eventsOf. rewrite !deserializeAutoTrackChanges_unfold. simpl.
  now apply deserializeEvents_pointee.
Qed.

Lemma eventsOf_Permutation d :
  Permutation (eventsOf d) (map deserialize (childrenWithType d automationEvent)).
Proof.
  unfold eventsOf. rewrite deserializeAutoTrackChanges_unfold. simpl.
  rewrite deserializeEvents_Permutation. simpl. now rewrite allocated_pointee.
Qed.

(** ** The added-merge *)

Lemma mergeAutoEventsAdded_spec state changes :
  mergeAutoEventsAdded state changes
  = sequenceTree eventsAdded
      (eventsOf state
       ++ filter (fun c => negb (idIn (eventsOf state) c)) (eventsOf changes)).
Proof.
  unfold mergeAutoEventsAdded.
  rewrite <- (deserialized_state state changes), <- (deserialized_changes state changes).
  destruct (deserializeAutoTrackChanges state changes) as [S C]. simpl.
  rewrite serializeAutoSequence_spec, fold_left_collect, map_app. do 2 f_equal.
  rewrite <- map_filter_pointee. f_equal. apply filter_ext. intros p.
  now rewrite foundNoteIn_idIn.
Qed.

Lemma NoDup_ids_app (l1 l2 : list AutomationEvent) :
  NoDup (ids l1) -> NoDup (ids l2) ->
  (forall e, In e l2 -> ~ In (getId e) (ids l1)) ->
  NoDup (ids (l1 ++ l2)).
Proof.
  intros H1 H2 H. unfold ids in *. rewrite map_app.
  induction l1 as [|x l1 IH]; simpl in *; [assumption|].
  inversion_clear H1 as [|? ? Hx Hl]. constructor.
  - rewrite in_app_iff. intros [Hin|Hin]; [contradiction|].
    apply in_map_iff in Hin. destruct Hin as [e [He Hin]].
    apply (H e Hin). now left.
  - apply IH; [assumption|]. intros e He Hin. apply (H e He). now right.
Qed.

Lemma NoDup_ids_filter (f : AutomationEvent -> bool) l :
  NoDup (ids l) -> NoDup (ids (filter f l)).
Proof.
  unfold ids. induction l as [|x l IH]; simpl; intros H; [constructor|].
  inversion_clear H as [|? ? Hx Hl]. destruct (f x); simpl; [|now apply IH].
  constructor; [|now apply IH].
  intros Hin. apply Hx. apply in_map_iff in Hin. destruct Hin as [e [He Hin]].
  apply filter_In in Hin. apply in_map_iff. exists e. tauto.
Qed.

(** The records of the added-merge, for all payloads with unique ids. *)
Lemma mergeAutoEventsAdded_records state changes :
  NoDup (ids (eventsOf state)) ->
  NoDup (ids (eventsOf changes)) ->
  exists added : list AutomationEvent,
    mergeAutoEventsAdded state changes
    = sequenceTree eventsAdded (eventsOf state ++ added)
    /\ (forall e, In e added <->
                  In e (eventsOf changes) /\ ~ In (getId e) (ids (eventsOf state)))
    /\ NoDup (ids (eventsOf state ++ added))
    /\ (forall i, In i (ids (eventsOf state ++ added)) <->
                  In i (ids (eventsOf state)) \/ In i (ids (eventsOf changes)))
    /\ (forall e, In e (eventsOf state ++ added) ->
                  In (getId e) (ids (eventsOf state)) -> In e (eventsOf state)).
Proof.
  intros HS HC.
  exists (filter (fun c => negb (idIn (eventsOf state) c)) (eventsOf changes)).
  assert (Hadded : forall e,
            In e (filter (fun c => negb (idIn (eventsOf state) c)) (eventsOf changes)) <->
            In e (eventsOf changes) /\ ~ In (getId e) (ids (eventsOf state))).
  { intros e. rewrite filter_In, negb_true_iff, idIn_false. tauto. }
  split; [apply mergeAutoEventsAdded_spec|].
  split; [exact Hadded|].
  split; [|split].
  - apply NoDup_ids_app; [assumption|now apply NoDup_ids_filter|].
    intros e He. now apply Hadded in He.
  - intros i. unfold ids at 1. rewrite map_app, in_app_iff. fold (ids (eventsOf state)).
    split.
    + intros [H|H]; [now left|]. right.
      apply in_map_iff in H. destruct H as [e [He Hin]]. apply Hadded in Hin.
      apply in_map_iff. exists e. tauto.
    + intros [H|H]; [now left|].
      destruct (in_dec Z.eq_dec i (ids (eventsOf state))) as [Hi|Hi]; [now left|].
      right. apply in_map_iff in H. destruct H as [e [He Hin]].
      apply in_map_iff. exists e. split; [assumption|]. apply Hadded. subst i. tauto.
  - intros e He Hid. apply in_app_iff in He. destruct He as [He|He]; [assumption|].
    apply Hadded in He. tauto.
Qed.

(** ** Addresses *)

Lemma deserialized_addresses state changes :
  NoDup (map address (fst (deserializeAutoTrackChanges state changes)))
  /\ NoDup (map address (snd (deserializeAutoTrackChanges state changes)))
  /\ (forall a b, In a (fst (deserializeAutoTrackChanges state changes)) ->
                  In b (snd (deserializeAutoTrackChanges state changes)) ->
                  address a <> address b).
Proof.
  rewrite deserializeAutoTrackChanges_unfold. simpl.
  set (ns := childrenWithType state automationEvent).
  set (nc := childrenWithType changes automationEvent).
  assert (HS : Permutation (map address (snd (deserializeEvents 0 ns [])))
                 (seq 0 (List.length ns))).
  { rewrite deserializeEvents_Permutation. simpl. now rewrite allocated_address. }
  assert (HC : Permutation (map address (snd (deserializeEvents (List.length ns) nc [])))
                 (seq (List.length ns) (List.length nc))).
  { rewrite deserializeEvents_Permutation. simpl. now rewrite allocated_address. }
  split; [|split].
  - apply (Permutation_NoDup (Permutation_sym HS)), seq_NoDup.
  - apply (Permutation_NoDup (Permutation_sym HC)), seq_NoDup.
  - intros a b Ha Hb.
    apply (in_map address) in Ha. apply (in_map address) in Hb.
    apply (Permutation_in _ HS) in Ha. apply (Permutation_in _ HC) in Hb.
    apply in_seq in Ha. apply in_seq in Hb. lia.
Qed.

Lemma ptr_eqb_eq (p q : MidiEventPtr) : ptr_eqb p q = true <-> address p = address q.
Proof. apply Nat.eqb_eq. Qed.

Lemma ptr_eqb_neq (p q : MidiEventPtr) : ptr_eqb p q = false <-> address p <> address q.
Proof. apply Nat.eqb_neq. Qed.

Lemma same_address (l : list MidiEventPtr) p q :
  NoDup (map address l) -> In p l -> In q l -> address p = address q -> p = q.
Proof.
  induction l as [|x l IH]; simpl; intros Hn Hp Hq E; [contradiction|].
  inversion_clear Hn as [|? ? Hx Hl].
  destruct Hp as [->|Hp], Hq as [->|Hq]; try reflexivity.
  - exfalso. apply Hx. rewrite E. now apply in_map.
  - exfalso. apply Hx. rewrite <- E. now apply in_map.
  - now apply IH.
Qed.

Lemma removeAllInstancesOf_absent (p : MidiEventPtr) l :
  (forall q, In q l -> address q <> address p) -> removeAllInstancesOf p l = l.
Proof.
  intros H. unfold removeAllInstancesOf.
  induction l as [|x l IH]; simpl; [reflexivity|].
  assert (Hx : ptr_eqb x p = false) by (apply ptr_eqb_neq, H; now left).
  rewrite Hx. simpl. f_equal. apply IH. intros q Hq. apply H. now right.
Qed.

Lemma addIfNotAlreadyThere_absent (p : MidiEventPtr) l :
  (forall q, In q l -> address q <> address p) -> addIfNotAlreadyThere p l = l ++ [p].
Proof.
  intros H. unfold addIfNotAlreadyThere.
  assert (E : existsb (fun q => ptr_eqb q p) l = false).
  { apply not_true_is_false. intros Hex. apply existsb_exists in Hex.
    destruct Hex as [q [Hq Hqp]]. apply ptr_eqb_eq in Hqp. now apply (H q). }
  now rewrite E.
Qed.

Lemma findNoteIn_In (notes : list MidiEventPtr) note c :
  findNoteIn notes note = Some c -> In c notes /\ getId (pointee note) = getId (pointee c).
Proof.
  unfold findNoteIn. intros H. apply find_some in H. now rewrite Z.eqb_eq in H.
Qed.

Lemma findNoteIn_counterpart (notes : list MidiEventPtr) note :
  option_map pointee (findNoteIn notes note) = counterpart (map pointee notes) (pointee note).
Proof.
  unfold findNoteIn, counterpart. induction notes as [|c l IH]; simpl; [reflexivity|].
  destruct (getId (pointee note) =? getId (pointee c)); [reflexivity|assumption].
Qed.

(** ** The changed-merge *)

Lemma findNoteIn_idIn (notes : list MidiEventPtr) note :
  idIn (map pointee notes) (pointee note)
  = match findNoteIn notes note with Some _ => true | None => false end.
Proof.
  unfold idIn, findNoteIn. induction notes as [|c l IH]; simpl; [reflexivity|].
  rewrite (Z.eqb_sym (getId (pointee c))).
  destruct (getId (pointee note) =? getId (pointee c)); [reflexivity|assumption].
Qed.

Lemma filter_filter {A : Type} (f g : A -> bool) l :
  filter f (filter g l) = filter (fun x => g x && f x) l.
Proof.
  induction l as [|x l IH]; simpl; [reflexivity|].
  destruct (g x); simpl; [destruct (f x)|]; now rewrite IH.
Qed.

Lemma changed_loop (C : list MidiEventPtr) :
  NoDup (map address C) ->
  forall S2 U M,
    (forall c u, In c C -> In u (U ++ S2) -> address c <> address u) ->
    NoDup (ids (map pointee S2)) ->
    incl M C ->
    (forall m s, In m M -> In s S2 -> getId (pointee m) <> getId (pointee s)) ->
    fold_left
      (fun result stateNote =>
         match findNoteIn C stateNote with
         | Some changesNote =>
             addIfNotAlreadyThere changesNote (removeAllInstancesOf stateNote result)
         | None => result
         end) S2 (U ++ M)
    = filter (fun u => negb (existsb (fun s => ptr_eqb u s
                                              && idIn (map pointee C) (pointee s)) S2)) U
      ++ M ++ flat_map (fun s => optionToList (findNoteIn C s)) S2.
Proof.
  intros HC. induction S2 as [|s S2 IH]; intros U M Haddr Hids Hincl Hfresh.
  - simpl. rewrite app_nil_r. f_equal.
    clear. induction U as [|u U IHU]; simpl; [reflexivity|]. now rewrite <- IHU.
  - cbn [fold_left flat_map existsb]. rewrite (findNoteIn_idIn C s).
    destruct (findNoteIn C s) as [c|] eqn:E.
    + destruct (findNoteIn_In _ _ _ E) as [HcC Hid].
      assert (Hrm : removeAllInstancesOf s (U ++ M)
                    = filter (fun q => negb (ptr_eqb q s)) U ++ M).
      { unfold removeAllInstancesOf at 1. rewrite filter_app. f_equal.
        apply removeAllInstancesOf_absent. intros q Hq.
        apply Haddr; [now apply Hincl|]. apply in_app_iff. right. now left. }
      rewrite Hrm.
      rewrite addIfNotAlreadyThere_absent.
      2:{ intros q Hq E'. apply in_app_iff in Hq. destruct Hq as [Hq|Hq].
          - apply filter_In in Hq. destruct Hq as [Hq _].
            apply (Haddr c q HcC); [|now symmetry]. apply in_app_iff. now left.
          - assert (q = c) by (apply (same_address C); auto). subst q.
            apply (Hfresh c s Hq); [now left|now symmetry]. }
      rewrite <- app_assoc. rewrite IH.
      * rewrite filter_filter. simpl optionToList. rewrite <- !app_assoc. simpl.
        f_equal. apply filter_ext. intros u.
        rewrite andb_true_r, negb_orb. reflexivity.
      * intros c' u Hc' Hu. apply Haddr; [assumption|].
        apply in_app_iff in Hu. apply in_app_iff. destruct Hu as [Hu|Hu].
        -- left. now apply filter_In in Hu.
        -- right. now right.
      * unfold ids in *. simpl in Hids. now inversion Hids.
      * intros m Hm. apply in_app_iff in Hm. destruct Hm as [Hm|[<-|[]]]; auto.
      * intros m s' Hm Hs'. apply in_app_iff in Hm. destruct Hm as [Hm|[<-|[]]].
        -- apply Hfresh; [assumption|now right].
        -- rewrite <- Hid. unfold ids in Hids. simpl in Hids.
           inversion_clear Hids as [|? ? Hx _]. intros E'. apply Hx. rewrite E'.
           rewrite map_map. now apply (in_map (fun p => getId (pointee p))).
    + rewrite IH.
      * simpl optionToList. simpl. f_equal. apply filter_ext. intros u.
        now rewrite andb_false_r.
      * intros c' u Hc' Hu. apply Haddr; [assumption|].
        apply in_app_iff in Hu. apply in_app_iff. destruct Hu as [Hu|Hu]; [now left|].
        right. now right.
      * unfold ids in *. simpl in Hids. now inversion Hids.
      * assumption.
      * intros m s' Hm Hs'. apply Hfresh; [assumption|now right].
Qed.

Lemma existsb_own_address (g : MidiEventPtr -> bool) l u :
  NoDup (map address l) -> In u l ->
  existsb (fun s => ptr_eqb u s && g s) l = g u.
Proof.
  intros Hn Hu. destruct (g u) eqn:E.
  - apply existsb_exists. exists u. split; [assumption|].
    rewrite E, andb_true_r. now apply ptr_eqb_eq.
  - apply not_true_is_false. intros Hex. apply existsb_exists in Hex.
    destruct Hex as [s [Hs Hus]]. apply andb_true_iff in Hus. destruct Hus as [Ha Hg].
    apply ptr_eqb_eq in Ha. assert (u = s) by (apply (same_address l); auto). subst s.
    congruence.
Qed.

Lemma map_flat_map_counterpart (C : list MidiEventPtr) l :
  map pointee (flat_map (fun s => optionToList (findNoteIn C s)) l)
  = flat_map (fun e => optionToList (counterpart (map pointee C) e)) (map pointee l).
Proof.
  induction l as [|s l IH]; simpl; [reflexivity|].
  rewrite map_app, IH. f_equal.
  rewrite <- findNoteIn_counterpart. now destruct (findNoteIn C s).
Qed.

Lemma mergeAutoEventsChanged_spec state changes :
  NoDup (ids (eventsOf state)) ->
  mergeAutoEventsChanged state changes
  = sequenceTree eventsAdded
      (filter (fun e => negb (idIn (eventsOf changes) e)) (eventsOf state)
       ++ flat_map (fun e => optionToList (counterpart (eventsOf changes) e))
            (eventsOf state)).
Proof.
  unfold mergeAutoEventsChanged.
  rewrite <- (deserialized_state state changes), <- (deserialized_changes state changes).
  destruct (deserialized_addresses state changes) as [HS [HC Hdisj]].
  destruct (deserializeAutoTrackChanges state changes) as [S C]. simpl in *.
  intros Hids. rewrite serializeAutoSequence_spec. f_equal.
  rewrite <- (app_nil_r S) at 2.
  rewrite (changed_loop C HC S S []).
  - simpl. rewrite map_app, map_flat_map_counterpart. f_equal.
    rewrite <- map_filter_pointee. f_equal.
    apply filter_ext_in. intros u Hu.
    now rewrite (existsb_own_address (fun s => idIn (map pointee C) (pointee s)) S u).
  - intros c u Hc Hu Heq. apply in_app_iff in Hu.
    assert (In u S) by tauto. now apply (Hdisj u c).
  - assumption.
  - intros m [].
  - intros m s [].
Qed.

Lemma counterpart_Some (changesEvents : list AutomationEvent) s c :
  counterpart changesEvents s = Some c -> In c changesEvents /\ getId s = getId c.
Proof. unfold counterpart. intros H. apply find_some in H. now rewrite Z.eqb_eq in H. Qed.

Lemma counterpart_None (changesEvents : list AutomationEvent) s :
  counterpart changesEvents s = None <-> ~ In (getId s) (ids changesEvents).
Proof.
  unfold counterpart, ids. split.
  - intros H Hin. apply in_map_iff in Hin. destruct Hin as [c [Hc Hin]].
    apply (find_none _ _ H) in Hin. apply Z.eqb_neq in Hin. congruence.
  - intros H. destruct (find _ changesEvents) as [c|] eqn:E; [|reflexivity].
    apply find_some in E. destruct E as [Hin E]. apply Z.eqb_eq in E.
    exfalso. apply H. rewrite E. now apply in_map.
Qed.

Lemma same_id (l : list AutomationEvent) a b :
  NoDup (ids l) -> In a l -> In b l -> getId a = getId b -> a = b.
Proof.
  unfold ids. induction l as [|x l IH]; simpl; intros Hn Ha Hb E; [contradiction|].
  inversion_clear Hn as [|? ? Hx Hl].
  destruct Ha as [->|Ha], Hb as [->|Hb]; try reflexivity.
  - exfalso. apply Hx. rewrite E. now apply in_map.
  - exfalso. apply Hx. rewrite <- E. now apply in_map.
  - now apply IH.
Qed.

Lemma counterpart_unique (changesEvents : list AutomationEvent) s c :
  NoDup (ids changesEvents) -> In c changesEvents -> getId s = getId c ->
  counterpart changesEvents s = Some c.
Proof.
  intros Hn Hc E. destruct (counterpart changesEvents s) as [c'|] eqn:Hf.
  - apply counterpart_Some in Hf. destruct Hf as [Hc' E'].
    f_equal. apply (same_id changesEvents); auto. congruence.
  - apply counterpart_None in Hf. exfalso. apply Hf. rewrite E. now apply in_map.
Qed.

Lemma ids_counterparts (changesEvents : list AutomationEvent) l :
  ids (flat_map (fun e => optionToList (counterpart changesEvents e)) l)
  = ids (filter (idIn changesEvents) l).
Proof.
  unfold ids. induction l as [|s l IH]; simpl; [reflexivity|].
  rewrite map_app, IH. destruct (counterpart changesEvents s) as [c|] eqn:E.
  - destruct (counterpart_Some _ _ _ E) as [Hc Hid].
    assert (Hin : idIn changesEvents s = true).
    { apply idIn_spec. rewrite Hid. now apply in_map. }
    rewrite Hin. simpl. now rewrite Hid.
  - apply counterpart_None in E. apply idIn_false in E. now rewrite E.
Qed.

Lemma Permutation_partition {A : Type} (f : A -> bool) l :
  Permutation (filter (fun x => negb (f x)) l ++ filter f l) l.
Proof.
  induction l as [|x l IH]; simpl; [constructor|].
  destruct (f x); simpl.
  - symmetry. rewrite <- IH at 1. apply Permutation_middle.
  - now constructor.
Qed.

(** The records of the changed-merge, for all payloads with unique ids. *)
Lemma mergeAutoEventsChanged_records state changes :
  NoDup (ids (eventsOf state)) ->
  NoDup (ids (eventsOf changes)) ->
  exists result : list AutomationEvent,
    mergeAutoEventsChanged state changes = sequenceTree eventsAdded result
    /\ (forall e, In e result <->
                  (In e (eventsOf state) /\ ~ In (getId e) (ids (eventsOf changes)))
                  \/ (In e (eventsOf changes) /\ In (getId e) (ids (eventsOf state))))
    /\ Permutation (ids result) (ids (eventsOf state))
    /\ (forall e, In e (eventsOf changes) -> ~ In (getId e) (ids (eventsOf state)) ->
                  ~ In e result).
Proof.
  intros HS HC.
  set (S := eventsOf state) in *. set (C := eventsOf changes) in *.
  exists (filter (fun e => negb (idIn C e)) S
          ++ flat_map (fun e => optionToList (counterpart C e)) S).
  assert (Hin : forall e,
            In e (filter (fun e => negb (idIn C e)) S
                  ++ flat_map (fun e => optionToList (counterpart C e)) S) <->
            (In e S /\ ~ In (getId e) (ids C)) \/ (In e C /\ In (getId e) (ids S))).
  { intros e. rewrite in_app_iff, filter_In, negb_true_iff, idIn_false, in_flat_map.
    split.
    - intros [H|[s [Hs Hc]]]; [now left|right].
      destruct (counterpart C s) as [c|] eqn:E; simpl in Hc; [|contradiction].
      destruct Hc as [<-|[]]. apply counterpart_Some in E. destruct E as [Hc Hid].
      split; [assumption|]. rewrite <- Hid. now apply in_map.
    - intros [H|[He Hid]]; [now left|right].
      apply in_map_iff in Hid. destruct Hid as [s [Hid Hs]]. exists s.
      split; [assumption|]. rewrite (counterpart_unique C s e); auto. now left. }
  split; [now apply mergeAutoEventsChanged_spec|].
  split; [exact Hin|]. split.
  - unfold ids at 1. rewrite map_app. fold (ids (filter (fun e => negb (idIn C e)) S)).
    fold (ids (flat_map (fun e => optionToList (counterpart C e)) S)).
    rewrite ids_counterparts. unfold ids. rewrite <- map_app.
    apply Permutation_map, Permutation_partition.
  - intros e He Hid H. apply Hin in H. destruct H as [[H _]|[_ H]]; [|contradiction].
    apply Hid. now apply in_map.
Qed.

(** ** The removed-merge *)

Lemma mergeAutoEventsRemoved_spec state changes :
  mergeAutoEventsRemoved state changes
  = sequenceTree eventsAdded
      (filter (fun s => negb (idIn (eventsOf changes) s)) (eventsOf state)).
Proof.
  unfold mergeAutoEventsRemoved.
  rewrite <- (deserialized_state state changes), <- (deserialized_changes state changes).
  destruct (deserializeAutoTrackChanges state changes) as [S C]. simpl.
  rewrite serializeAutoSequence_spec, fold_left_collect. simpl. f_equal.
  rewrite <- map_filter_pointee. f_equal. apply filter_ext. intros p.
  now rewrite foundNoteIn_idIn.
Qed.

(** ** The diff of two sequences *)

Lemma compare_loop (C : list MidiEventPtr) : forall S removed changed,
  fold_left
    (fun '(removed, changed) stateEvent =>
       match findNoteIn C stateEvent with
       | Some changesEvent =>
           if eventHasChanged (pointee stateEvent) (pointee changesEvent)
           then (removed, changed ++ [changesEvent])
           else (removed, changed)
       | None => (removed ++ [stateEvent], changed)
       end) S (removed, changed)
  = (removed ++ filter (fun s => negb (foundNoteIn C s)) S,
     changed ++ flat_map
                  (fun s => match findNoteIn C s with
                            | Some c => if eventHasChanged (pointee s) (pointee c)
                                        then [c] else []
                            | None => []
                            end) S).
Proof.
  induction S as [|s S IH]; intros removed changed; simpl.
  - now rewrite !app_nil_r.
  - rewrite foundNoteIn_idIn, findNoteIn_idIn.
    destruct (findNoteIn C s) as [c|]; simpl.
    + destruct (eventHasChanged (pointee s) (pointee c)); rewrite IH; simpl.
      * now rewrite <- app_assoc.
      * reflexivity.
    + rewrite IH. now rewrite <- app_assoc.
Qed.

Lemma map_flat_map_changed C l :
  map pointee
    (flat_map (fun s => match findNoteIn C s with
                        | Some c => if eventHasChanged (pointee s) (pointee c)
                                    then [c] else []
                        | None => []
                        end) l)
  = flat_map (changedCounterpart (map pointee C)) (map pointee l).
Proof.
  induction l as [|s l IH]; simpl; [reflexivity|].
  rewrite map_app, IH. f_equal. unfold changedCounterpart.
  rewrite <- findNoteIn_counterpart. destruct (findNoteIn C s) as [c|]; simpl; [|reflexivity].
  now destruct (eventHasChanged (pointee s) (pointee c)).
Qed.

Lemma compareAutoEvents_spec S C :
  map pointee (addedEvents (compareAutoEvents S C))
  = filter (fun c => negb (idIn (map pointee S) c)) (map pointee C)
  /\ map pointee (removedEvents (compareAutoEvents S C))
     = filter (fun s => negb (idIn (map pointee C) s)) (map pointee S)
  /\ map pointee (changedEvents (compareAutoEvents S C))
     = flat_map (changedCounterpart (map pointee C)) (map pointee S).
Proof.
  unfold compareAutoEvents. rewrite compare_loop, fold_left_collect. simpl.
  split; [|split].
  - rewrite <- map_filter_pointee. f_equal. apply filter_ext. intros p.
    now rewrite foundNoteIn_idIn.
  - rewrite <- map_filter_pointee. f_equal. apply filter_ext. intros p.
    now rewrite foundNoteIn_idIn.
  - apply map_flat_map_changed.
Qed.

Lemma serializeAutoTrackChanges_group (l : list MidiEventPtr) description tag (res : list DeltaDiff) :
  (if size l >? 0
   then res ++ [serializeAutoTrackChanges l description (size l) tag]
   else res)
  = res ++ deltaGroup description tag (map pointee l).
Proof.
  unfold size, serializeAutoTrackChanges, deltaGroup.
  destruct l as [|p l].
  - simpl. now rewrite app_nil_r.
  - assert (H : (Z.of_nat (List.length (p :: l)) >? 0) = true).
    { apply Z.gtb_lt. simpl List.length. lia. }
    rewrite H, serializeAutoSequence_spec, length_map. reflexivity.
Qed.

Lemma createAutoEventsDiffs_spec state changes :
  createAutoEventsDiffs state changes
  = deltaGroup "added {x} events"%string eventsAdded
      (filter (fun c => negb (idIn (eventsOf state) c)) (eventsOf changes))
    ++ deltaGroup "removed {x} events"%string eventsRemoved
         (filter (fun s => negb (idIn (eventsOf changes) s)) (eventsOf state))
    ++ deltaGroup "changed {x} events"%string eventsChanged
         (flat_map (changedCounterpart (eventsOf changes)) (eventsOf state)).
Proof.
  unfold createAutoEventsDiffs.
  rewrite <- (deserialized_state state changes), <- (deserialized_changes state changes).
  destruct (deserializeAutoTrackChanges state changes) as [S C]. simpl fst. simpl snd.
  destruct (compareAutoEvents_spec S C) as [Ha [Hr Hc]].
  rewrite <- Ha, <- Hr, <- Hc.
  rewrite !serializeAutoTrackChanges_group. simpl. now rewrite <- app_assoc.
Qed.

Lemma changedCounterpart_In changesEvents l e :
  NoDup (ids changesEvents) ->
  In e (flat_map (changedCounterpart changesEvents) l) <->
  In e changesEvents
  /\ exists s, In s l /\ getId s = getId e /\ eventHasChanged s e = true.
Proof.
  intros Hn. rewrite in_flat_map. unfold changedCounterpart. split.
  - intros [s [Hs H]].
    destruct (counterpart changesEvents s) as [c|] eqn:E; [|contradiction].
    destruct (eventHasChanged s c) eqn:Hch; [|contradiction].
    destruct H as [<-|[]]. apply counterpart_Some in E. destruct E as [Hc Hid].
    split; [assumption|]. now exists s.
  - intros [He [s [Hs [Hid Hch]]]]. exists s. split; [assumption|].
    rewrite (counterpart_unique changesEvents s e), Hch; auto. now left.
Qed.

Lemma eventHasChanged_spec s c :
  eventHasChanged s c = true <->
  float_eqb (getBeat s) (getBeat c) = false
  \/ float_eqb (getCurvature s) (getCurvature c) = false
  \/ float_eqb (getControllerValue s) (getControllerValue c) = false.
Proof.
  unfold eventHasChanged. rewrite !orb_true_iff, !negb_true_iff. tauto.
Qed.

(** ** Merging twice *)

Lemma listedEvents_sequenceTree tag (events : list AutomationEvent) :
  listedEvents (sequenceTree tag events) = events.
Proof.
  unfold listedEvents. rewrite childrenWithType_sequenceTree, map_map.
  induction events as [|e l IH]; simpl; [reflexivity|].
  now rewrite deserialize_eventNode, IH.
Qed.

Lemma eventsOf_sequenceTree tag events :
  Permutation (eventsOf (sequenceTree tag events)) events.
Proof.
  rewrite eventsOf_Permutation. fold (listedEvents (sequenceTree tag events)).
  now rewrite listedEvents_sequenceTree.
Qed.

Lemma filter_none {A : Type} (f : A -> bool) l :
  (forall x, In x l -> f x = false) -> filter f l = [].
Proof.
  induction l as [|x l IH]; simpl; intros H; [reflexivity|].
  rewrite (H x) by now left. apply IH. intros y Hy. apply H. now right.
Qed.

(** C9, as amended. Merging the same changes a second time changes no
    record: the second payload lists the records of the first, each as many
    times, possibly in another order, since the second merge sorts by beat
    the records that the first one appended. *)
Theorem mergeAutoEventsAdded_twice state changes :
  exists once twice : list AutomationEvent,
    mergeAutoEventsAdded state changes = sequenceTree eventsAdded once
    /\ mergeAutoEventsAdded (mergeAutoEventsAdded state changes) changes
       = sequenceTree eventsAdded twice
    /\ Permutation once twice.
Proof.
  set (once := eventsOf state
               ++ filter (fun c => negb (idIn (eventsOf state) c)) (eventsOf changes)).
  exists once, (eventsOf (sequenceTree eventsAdded once)).
  split; [apply mergeAutoEventsAdded_spec|]. split.
  - rewrite (mergeAutoEventsAdded_spec state changes). fold once.
    rewrite mergeAutoEventsAdded_spec. f_equal.
    rewrite filter_none; [now rewrite app_nil_r|].
    intros c Hc. apply negb_false_iff, idIn_spec.
    assert (Hid : In (getId c) (ids once)).
    { unfold once, ids. rewrite map_app, in_app_iff.
      destruct (idIn (eventsOf state) c) eqn:E.
      - left. now apply idIn_spec.
      - right. apply in_map, filter_In. now rewrite E. }
    unfold ids in *. apply in_map_iff in Hid. destruct Hid as [e [He Hin]].
    apply in_map_iff. exists e. split; [assumption|].
    apply (Permutation_in _ (Permutation_sym (eventsOf_sequenceTree eventsAdded once))).
    assumption.
  - symmetry. apply eventsOf_sequenceTree.
Qed.

(** ** Order *)

Section Order.

Hypothesis float_ltb_asym : forall a b : float, float_ltb a b = true -> float_ltb b a = false.
Hypothesis float_ltb_trans : forall a b c : float,
  float_ltb a b = true -> float_ltb b c = true -> float_ltb a c = true.
Hypothesis float_ltb_incomparable : forall a b c : float,
  float_ltb a b = false -> float_ltb b c = false -> float_ltb a c = false.

Lemma compareElements_lt a b :
  (compareElements a b <? 0) = float_ltb (getBeat a) (getBeat b).
Proof.
  unfold compareElements. destruct (float_ltb (getBeat a) (getBeat b)); [reflexivity|].
  now destruct (float_ltb (getBeat b) (getBeat a)).
Qed.

Lemma compareElements_ge a b :
  (compareElements a b >=? 0) = negb (float_ltb (getBeat a) (getBeat b)).
Proof.
  unfold compareElements. destruct (float_ltb (getBeat a) (getBeat b)); [reflexivity|].
  now destruct (float_ltb (getBeat b) (getBeat a)).
Qed.

Lemma compareElements_zero a b :
  (compareElements a b =? 0) = true ->
  float_ltb (getBeat a) (getBeat b) = false /\ float_ltb (getBeat b) (getBeat a) = false.
Proof.
  unfold compareElements. destruct (float_ltb (getBeat a) (getBeat b)); [discriminate|].
  destruct (float_ltb (getBeat b) (getBeat a)); [discriminate|]. now split.
Qed.

Lemma float_ltb_irrefl (a : float) : float_ltb a a = false.
Proof.
  destruct (float_ltb a a) eqn:E; [|reflexivity].
  pose proof (float_ltb_asym _ _ E) as H. congruence.
Qed.

Lemma float_ltb_below (x a y : float) :
  float_ltb x a = true -> float_ltb y a = false -> float_ltb y x = false.
Proof.
  intros Hxa Hya. destruct (float_ltb y x) eqn:E; [|reflexivity].
  rewrite (float_ltb_trans _ _ _ E Hxa) in Hya. discriminate.
Qed.

Lemma StronglySorted_nth {A : Type} (R : A -> A -> Prop) (d : A) (l : list A) :
  StronglySorted R l ->
  forall j k, (j < k < List.length l)%nat -> R (nth j l d) (nth k l d).
Proof.
  induction 1 as [|a l Hl IH Ha]; intros j k Hjk; simpl in Hjk; [lia|].
  destruct k as [|k]; [lia|]. destruct j as [|j]; simpl.
  - rewrite Forall_forall in Ha. apply Ha, nth_In. lia.
  - apply IH. lia.
Qed.

Lemma StronglySorted_app_iff {A : Type} (R : A -> A -> Prop) (l1 l2 : list A) :
  StronglySorted R (l1 ++ l2) <->
  StronglySorted R l1 /\ StronglySorted R l2
  /\ (forall a b, In a l1 -> In b l2 -> R a b).
Proof.
  induction l1 as [|x l1 IH]; simpl.
  - split; [intros H|intros [_ [H _]]; exact H].
    split; [constructor|]. split; [exact H|]. intros a b [].
  - split.
    + intros H. inversion_clear H as [|? ? Hl Hx]. apply IH in Hl.
      destruct Hl as [H1 [H2 H12]]. rewrite Forall_forall in Hx.
      split; [|split; [exact H2|]].
      * constructor; [exact H1|]. apply Forall_forall. intros y Hy.
        apply Hx, in_app_iff. now left.
      * intros a b [<-|Ha] Hb; [|now apply H12]. apply Hx, in_app_iff. now right.
    + intros [H1 [H2 H12]]. inversion_clear H1 as [|? ? Hl Hx].
      rewrite Forall_forall in Hx. constructor.
      * apply IH. split; [exact Hl|]. split; [exact H2|].
        intros a b Ha Hb. apply H12; [now right|exact Hb].
      * apply Forall_forall. intros y Hy. apply in_app_iff in Hy.
        destruct Hy as [Hy|Hy]; [now apply Hx|]. apply H12; [now left|exact Hy].
Qed.

Lemma In_firstn_nth {A : Type} (d : A) (l : list A) : forall i a,
  In a (firstn i l) -> exists j, (j < i)%nat /\ (j < List.length l)%nat /\ nth j l d = a.
Proof.
  induction l as [|x l IH]; intros [|i] a; simpl; try contradiction.
  intros [<-|H].
  - exists 0%nat. repeat split; lia.
  - apply IH in H. destruct H as [j [Hj [Hl Hn]]]. exists (S j). repeat split; try lia.
    exact Hn.
Qed.

Lemma In_skipn_nth {A : Type} (d : A) (l : list A) : forall i b,
  In b (skipn i l) -> exists j, (i <= j < List.length l)%nat /\ nth j l d = b.
Proof.
  induction l as [|x l IH]; intros [|i] b; simpl; try contradiction.
  - intros H. destruct (In_nth (x :: l) b d H) as [j [Hj Hn]].
    exists j. split; [simpl in Hj; lia|exact Hn].
  - intros H. apply IH in H. destruct H as [j [Hj Hn]]. exists (S j).
    split; [lia|exact Hn].
Qed.

(** The binary search on a sorted array: no element in front of the index it
    returns is later than the new one, and none from there on is earlier. *)
Lemma findInsertIndexInSortedArray_sorted (l : list AutomationEvent) (x : AutomationEvent) :
  sortedByBeat l ->
  forall fuel f la : nat,
    (la - f <= fuel)%nat -> (f <= la <= List.length l)%nat ->
    (forall j, (j < f)%nat -> beatLe (nth j l x) x) ->
    (forall j, (la <= j < List.length l)%nat -> beatLe x (nth j l x)) ->
    (findInsertIndexInSortedArray compareElements l x fuel f la <= List.length l)%nat
    /\ (forall j, (j < findInsertIndexInSortedArray compareElements l x fuel f la)%nat ->
                  beatLe (nth j l x) x)
    /\ (forall j,
          (findInsertIndexInSortedArray compareElements l x fuel f la <= j
           < List.length l)%nat ->
          beatLe x (nth j l x)).
Proof.
  intros Hs.
  assert (Hle : forall j k, (j <= k < List.length l)%nat ->
                            float_ltb (getBeat (nth k l x)) (getBeat (nth j l x)) = false).
  { intros j k Hjk. destruct (Nat.eq_dec j k) as [->|Hne]; [apply float_ltb_irrefl|].
    apply (StronglySorted_nth beatLe x l Hs j k). lia. }
  unfold beatLe.
  induction fuel as [|fuel IH]; intros f la Hfuel Hbounds Hbefore Hafter; simpl.
  - split; [lia|]. split; [exact Hbefore|]. intros j Hj. apply Hafter. lia.
  - destruct (Nat.ltb_spec f la) as [Hlt|Hge].
    2:{ split; [lia|]. split; [exact Hbefore|]. intros j Hj. apply Hafter. lia. }
    destruct (compareElements x (nth f l x) =? 0) eqn:Ezero.
    + apply compareElements_zero in Ezero. destruct Ezero as [Hxa Hax].
      split; [lia|]. split.
      * intros j Hj. destruct (Nat.eq_dec j f) as [->|Hne]; [exact Hxa|].
        apply Hbefore. lia.
      * intros j Hj. apply (float_ltb_incomparable _ (getBeat (nth f l x))); [|exact Hax].
        apply Hle. lia.
    + pose proof (Nat.div2_div (f + la)) as Hhalf.
      assert (Hh : (f <= Nat.div2 (f + la) < la)%nat).
      { rewrite Hhalf. split.
        - apply Nat.div_le_lower_bound; lia.
        - apply Nat.Div0.div_lt_upper_bound; lia. }
      set (h := Nat.div2 (f + la)) in *.
      rewrite compareElements_ge.
      destruct (Nat.eqb_spec h f) as [Hhf|Hhf].
      * assert (Hla : la = S f).
        { assert (Hup : (f + la < 2 * (f + 1))%nat).
          { destruct (Nat.lt_ge_cases (f + la) (2 * (f + 1))) as [Hl|Hl]; [exact Hl|].
            assert (Hdiv : (f + 1 <= (f + la) / 2)%nat)
              by (apply Nat.div_le_lower_bound; lia).
            lia. }
          lia. }
        rewrite Hhf.
        destruct (float_ltb (getBeat x) (getBeat (nth f l x))) eqn:Exa; simpl.
        -- split; [lia|]. split; [exact Hbefore|].
           intros j Hj. apply (float_ltb_below _ _ _ Exa). apply Hle. lia.
        -- split; [lia|]. split.
           ++ intros j Hj. destruct (Nat.eq_dec j f) as [->|Hne]; [exact Exa|].
              apply Hbefore. lia.
           ++ intros j Hj. apply Hafter. lia.
      * destruct (float_ltb (getBeat x) (getBeat (nth h l x))) eqn:Exh; simpl.
        -- apply IH; [lia|lia|exact Hbefore|].
           intros j Hj. apply (float_ltb_below _ _ _ Exh). apply Hle. lia.
        -- apply IH; [lia|lia| |exact Hafter].
           intros j Hj. apply (float_ltb_incomparable _ (getBeat (nth h l x))); [exact Exh|].
           apply Hle. lia.
Qed.

Lemma addSorted_sorted_events (x : AutomationEvent) (l : list AutomationEvent) :
  sortedByBeat l -> sortedByBeat (addSorted compareElements x l).
Proof.
  intros Hs. unfold addSorted, insert.
  destruct (findInsertIndexInSortedArray_sorted l x Hs (List.length l) 0 (List.length l))
    as [Hi [Hbefore Hafter]]; try lia.
  set (i := findInsertIndexInSortedArray compareElements l x (List.length l) 0
              (List.length l)) in *.
  unfold sortedByBeat in *. rewrite <- (firstn_skipn i l) in Hs.
  apply StronglySorted_app_iff in Hs. destruct Hs as [H1 [H2 H12]].
  apply StronglySorted_app_iff. split; [exact H1|]. split.
  - constructor; [exact H2|]. apply Forall_forall. intros b Hb.
    destruct (In_skipn_nth x l i b Hb) as [j [Hj <-]]. now apply Hafter.
  - intros a b Ha [<-|Hb]; [|now apply H12].
    destruct (In_firstn_nth x l i a Ha) as [j [Hj [_ <-]]]. now apply Hbefore.
Qed.

Lemma addSorted_sorted p l :
  sortedByBeat (map pointee l) -> sortedByBeat (map pointee (addSorted compareEvents p l)).
Proof.
  intros H. rewrite addSorted_events. now apply addSorted_sorted_events.
Qed.

Lemma deserializeEvents_sorted nodes : forall h acc,
  sortedByBeat (map pointee acc) ->
  sortedByBeat (map pointee (snd (deserializeEvents h nodes acc))).
Proof.
  induction nodes as [|n nodes IH]; intros h acc H; simpl; [assumption|].
  apply IH. now apply addSorted_sorted.
Qed.

Lemma eventsOf_sorted d : sortedByBeat (eventsOf d).
Proof.
  unfold eventsOf. rewrite deserializeAutoTrackChanges_unfold. simpl.
  apply deserializeEvents_sorted. constructor.
Qed.

Lemma sortedByBeat_filter (f : AutomationEvent -> bool) l :
  sortedByBeat l -> sortedByBeat (filter f l).
Proof.
  unfold sortedByBeat. induction l as [|x l IH]; simpl; intros H; [constructor|].
  inversion_clear H as [|? ? Hl Hx]. destruct (f x); [|now apply IH].
  constructor; [now apply IH|].
  apply Forall_forall. intros y Hy. apply filter_In in Hy.
  rewrite Forall_forall in Hx. now apply Hx.
Qed.

Lemma deltaGroup_In description tag (events : list AutomationEvent) d :
  In d (deltaGroup description tag events) ->
  getType (delta d) = tag /\ deltaData d = sequenceTree tag events.
Proof.
  unfold deltaGroup. destruct events as [|e l]; simpl; [contradiction|].
  intros [<-|[]]. now split.
Qed.

(** C8, as amended. Deserialization sorts, serialization does not: when [<]
    on beats is a strict weak order (asymmetric, transitive, and such that
    [>=] is transitive, which rules out NaN), the binary search of
    [addSorted] keeps the two sequences the functions read, which hold the
    records the payloads list, sorted by beat, and so are the payloads that
    list a selection of one of them in its order, which are the payload of
    the removed-merge and the added and removed groups of the diff. *)
Theorem sortedByBeat_selections state changes :
  Permutation (eventsOf state) (listedEvents state)
  /\ Permutation (eventsOf changes) (listedEvents changes)
  /\ sortedByBeat (eventsOf state)
  /\ sortedByBeat (eventsOf changes)
  /\ sortedByBeat (listedEvents (mergeAutoEventsRemoved state changes))
  /\ (forall d, In d (createAutoEventsDiffs state changes) ->
                getType (delta d) <> eventsChanged ->
                sortedByBeat (listedEvents (deltaData d))).
Proof.
  split; [apply eventsOf_Permutation|]. split; [apply eventsOf_Permutation|].
  split; [apply eventsOf_sorted|]. split; [apply eventsOf_sorted|]. split.
  - rewrite mergeAutoEventsRemoved_spec, listedEvents_sequenceTree.
    apply sortedByBeat_filter, eventsOf_sorted.
  - intros d Hd Hty. rewrite createAutoEventsDiffs_spec in Hd.
    rewrite !in_app_iff in Hd. destruct Hd as [Hd|[Hd|Hd]];
      apply deltaGroup_In in Hd; destruct Hd as [Ht Hdata].
    + rewrite Hdata, listedEvents_sequenceTree.
      apply sortedByBeat_filter, eventsOf_sorted.
    + rewrite Hdata, listedEvents_sequenceTree.
      apply sortedByBeat_filter, eventsOf_sorted.
    + contradiction.
Qed.

End Order.

(** ** createMergedItem, step 1 *)

Lemma mergeTargetDelta_eq stateDelta stateDeltaData pass target :
  mergeTargetDelta stateDelta stateDeltaData pass target
  = mkMergePass
      (deltaFoundInChanges pass || matchesInTarget stateDelta (delta target))
      (mergedEvents stateDelta stateDeltaData (eventsDeltaData pass) target)
      (mergedClips stateDelta stateDeltaData (clipsDeltaData pass) target)
      (diff pass ++ strictMerge stateDelta target).
Proof.
  destruct pass as [found events clips d], target as [[desc tt] data].
  unfold mergeTargetDelta, strictMerge, matchesInTarget, mergedEvents, mergedClips.
  unfold mergePath, mergeColour, mergeInstrument, mergeController, mergeTimeSignature,
    createCopy, applyDelta.
  cbn [delta deltaData getType getDescription deltaFoundInChanges eventsDeltaData
       clipsDeltaData diff].
  generalize (checkIfDeltaIsEventsType stateDelta) as se.
  generalize (checkIfDeltaIsPatternType stateDelta) as sp.
  generalize (Identifier_eqb (getType stateDelta) tt) as strict.
  intros strict sp se.
  unfold checkIfDeltaIsEventsType, checkIfDeltaIsPatternType, hasType.
  cbn [getType].
  destruct tt, strict, se, sp, found;
    cbn -[mergeAutoEventsAdded mergeAutoEventsRemoved mergeAutoEventsChanged app];
    rewrite ?app_nil_r; reflexivity.
Qed.

Lemma mergeTargetDelta_loop stateDelta stateDeltaData target : forall pass,
  fold_left (mergeTargetDelta stateDelta stateDeltaData) target pass
  = mkMergePass
      (deltaFoundInChanges pass
       || existsb (fun t => matchesInTarget stateDelta (delta t)) target)
      (fold_left (mergedEvents stateDelta stateDeltaData) target (eventsDeltaData pass))
      (fold_left (mergedClips stateDelta stateDeltaData) target (clipsDeltaData pass))
      (diff pass ++ flat_map (strictMerge stateDelta) target).
Proof.
  induction target as [|t target IH]; intros pass; simpl.
  - rewrite orb_false_r, app_nil_r. now destruct pass.
  - rewrite IH, mergeTargetDelta_eq. simpl.
    now rewrite orb_assoc, <- app_assoc.
Qed.

Lemma mergeStateDelta_emitted target diff0 state :
  mergeStateDelta target diff0 state = diff0 ++ emitted target state.
Proof.
  unfold mergeStateDelta, emitted. rewrite mergeTargetDelta_loop.
  cbn [deltaFoundInChanges eventsDeltaData clipsDeltaData diff orb].
  fold (headDelta eventsAdded). fold (headDelta clipsAdded).
  rewrite Delta_createCopy_id. unfold applyDelta.
  destruct (isValid (fold_left (mergedEvents _ _) target None));
    destruct (isValid (fold_left (mergedClips _ _) target None));
    destruct (existsb _ target); simpl;
    rewrite <- ?app_assoc; simpl; rewrite ?app_nil_r; try reflexivity;
    now destruct state.
Qed.

Lemma mergeStateDelta_loop target state : forall diff0,
  fold_left (mergeStateDelta target) state diff0
  = diff0 ++ flat_map (emitted target) state.
Proof.
  induction state as [|s state IH]; intros diff0; simpl.
  - now rewrite app_nil_r.
  - now rewrite IH, mergeStateDelta_emitted, <- app_assoc.
Qed.

(** ** createMergedItem, step 2 *)

Lemma fold_left_orb {A : Type} (f : A -> bool) l : forall b,
  fold_left (fun has x => has || f x) l b = b || existsb f l.
Proof.
  induction l as [|x l IH]; intros b; simpl.
  - now rewrite orb_false_r.
  - now rewrite IH, orb_assoc.
Qed.

Lemma resolveTimeSignature_eq (target : TrackedItem) diff0 :
  resolveTimeSignature target diff0
  = diff0 ++ [ mkDeltaDiff (headDelta timeSignaturesChanged)
                 (orDefault (mergedTimeSignature target) timeSignaturesChanged) ].
Proof.
  unfold resolveTimeSignature, orDefault, applyDelta.
  fold (mergedTimeSignature target). fold (headDelta timeSignaturesChanged).
  now destruct (isValid (mergedTimeSignature target)).
Qed.

Lemma resolveClips_eq (target : TrackedItem) diff0 :
  resolveClips target diff0
  = diff0 ++ [ mkDeltaDiff (headDelta clipsAdded)
                 (orDefault (fold_left mergedPattern target None) clipsAdded) ].
Proof.
  unfold resolveClips, orDefault, applyDelta.
  change (fold_left _ target None) with (fold_left mergedPattern target None).
  fold (headDelta clipsAdded).
  now destruct (isValid (fold_left mergedPattern target None)).
Qed.

Lemma createMergedItem_eq target state :
  createMergedItem target state
  = flat_map (emitted target) state ++ synthesized target state.
Proof.
  unfold createMergedItem, synthesized.
  rewrite mergeStateDelta_loop, !fold_left_orb. simpl.
  destruct (existsb (fun s => hasType (delta s) timeSignaturesChanged) state);
    destruct (existsb (fun s => checkIfDeltaIsPatternType (delta s)) state); simpl;
    rewrite ?resolveClips_eq, ?resolveTimeSignature_eq, ?app_nil_r, <- ?app_assoc;
    reflexivity.
Qed.

(** ** Families *)

Lemma events_not_pattern d :
  checkIfDeltaIsEventsType d = true -> checkIfDeltaIsPatternType d = false.
Proof.
  unfold checkIfDeltaIsEventsType, checkIfDeltaIsPatternType, hasType.
  now destruct (getType d).
Qed.

Lemma scalar_not_events d :
  isScalarType (getType d) = true -> checkIfDeltaIsEventsType d = false.
Proof. unfold checkIfDeltaIsEventsType, hasType. now destruct (getType d). Qed.

Lemma scalar_not_pattern d :
  isScalarType (getType d) = true -> checkIfDeltaIsPatternType d = false.
Proof. unfold checkIfDeltaIsPatternType, hasType. now destruct (getType d). Qed.

Lemma same_type_events d d' :
  getType d = getType d' -> checkIfDeltaIsEventsType d = checkIfDeltaIsEventsType d'.
Proof. unfold checkIfDeltaIsEventsType, hasType. now intros ->. Qed.

Lemma same_type_pattern d d' :
  getType d = getType d' -> checkIfDeltaIsPatternType d = checkIfDeltaIsPatternType d'.
Proof. unfold checkIfDeltaIsPatternType, hasType. now intros ->. Qed.

Lemma isValid_serializeAutoSequence (l : list MidiEventPtr) tag :
  isValid (serializeAutoSequence l tag) = true.
Proof. now rewrite serializeAutoSequence_spec. Qed.

Lemma isValid_mergeAutoEventsAdded state changes :
  isValid (mergeAutoEventsAdded state changes) = true.
Proof. now rewrite mergeAutoEventsAdded_spec. Qed.

Lemma isValid_mergeAutoEventsRemoved state changes :
  isValid (mergeAutoEventsRemoved state changes) = true.
Proof. now rewrite mergeAutoEventsRemoved_spec. Qed.

Lemma isValid_mergeAutoEventsChanged state changes :
  isValid (mergeAutoEventsChanged state changes) = true.
Proof.
  unfold mergeAutoEventsChanged.
  destruct (deserializeAutoTrackChanges state changes) as [S C].
  apply isValid_serializeAutoSequence.
Qed.

Lemma mergedEvents_unmatched stateDelta stateDeltaData target :
  (forall t, In t target ->
     checkIfDeltaIsEventsType stateDelta && checkIfDeltaIsEventsType (delta t) = false) ->
  forall events, fold_left (mergedEvents stateDelta stateDeltaData) target events = events.
Proof.
  induction target as [|t target IH]; intros H events; simpl; [reflexivity|].
  unfold mergedEvents at 2. rewrite (H t) by now left.
  apply IH. intros u Hu. apply H. now right.
Qed.

Lemma mergedClips_unmatched stateDelta stateDeltaData target :
  (forall t, In t target ->
     checkIfDeltaIsPatternType stateDelta && checkIfDeltaIsPatternType (delta t) = false) ->
  forall clips, fold_left (mergedClips stateDelta stateDeltaData) target clips = clips.
Proof.
  induction target as [|t target IH]; intros H clips; simpl; [reflexivity|].
  unfold mergedClips at 2. rewrite (H t) by now left.
  apply IH. intros u Hu. apply H. now right.
Qed.

Lemma mergedEvents_valid stateDelta stateDeltaData target :
  checkIfDeltaIsEventsType stateDelta = true ->
  forall events,
    isValid (fold_left (mergedEvents stateDelta stateDeltaData) target events)
    = isValid events || existsb (fun t => checkIfDeltaIsEventsType (delta t)) target.
Proof.
  intros Hs. induction target as [|t target IH]; intros events; simpl.
  - now rewrite orb_false_r.
  - rewrite IH, orb_assoc. f_equal.
    unfold mergedEvents. rewrite Hs. simpl.
    unfold checkIfDeltaIsEventsType.
    destruct (hasType (delta t) eventsAdded); simpl.
    { now rewrite isValid_mergeAutoEventsAdded, orb_true_r. }
    destruct (hasType (delta t) eventsChanged) eqn:Hc; simpl.
    + destruct (hasType (delta t) eventsRemoved).
      * now rewrite isValid_mergeAutoEventsRemoved, orb_true_r.
      * now rewrite isValid_mergeAutoEventsChanged, orb_true_r.
    + destruct (hasType (delta t) eventsRemoved).
      * now rewrite isValid_mergeAutoEventsRemoved, orb_true_r.
      * now rewrite orb_false_r.
Qed.

(** ** What step 1 emits for one state delta *)

Lemma strictMerge_In stateDelta (t : DeltaDiff) x :
  In x (strictMerge stateDelta t) ->
  getType (delta x) = getType stateDelta
  /\ isScalarType (getType stateDelta) = true
  /\ x = mkDeltaDiff (mkDelta (getDescription (delta t)) (getType (delta t))) (deltaData t).
Proof.
  unfold strictMerge.
  destruct (Identifier_eqb (getType stateDelta) (getType (delta t))) eqn:E; simpl;
    [|contradiction].
  apply Identifier_eqb_eq in E.
  destruct (isScalarType (getType (delta t))) eqn:Hs; [|contradiction].
  intros [<-|[]]. simpl. rewrite E. auto.
Qed.

Lemma emitted_In target state x :
  In x (emitted target state) ->
  (getType (delta x) = getType (delta state)
   /\ (x = state \/ isScalarType (getType (delta state)) = true))
  \/ (x = mkDeltaDiff (headDelta eventsAdded)
             (fold_left (mergedEvents (delta state) (deltaData state)) target None)
      /\ checkIfDeltaIsEventsType (delta state) = true)
  \/ (x = mkDeltaDiff (headDelta clipsAdded)
             (fold_left (mergedClips (delta state) (deltaData state)) target None)
      /\ checkIfDeltaIsPatternType (delta state) = true).
Proof.
  unfold emitted. rewrite !in_app_iff, in_flat_map.
  intros [[t [Ht Hx]]|[Hx|[Hx|Hx]]].
  - apply strictMerge_In in Hx. left. tauto.
  - destruct (checkIfDeltaIsEventsType (delta state)) eqn:E.
    + destruct (isValid _); [|contradiction]. destruct Hx as [<-|[]]. right. left. auto.
    + rewrite mergedEvents_unmatched in Hx; [contradiction|].
      intros t _. now rewrite E.
  - destruct (checkIfDeltaIsPatternType (delta state)) eqn:E.
    + destruct (isValid _); [|contradiction]. destruct Hx as [<-|[]]. right. right. auto.
    + rewrite mergedClips_unmatched in Hx; [contradiction|].
      intros t _. now rewrite E.
  - destruct (existsb _ target); [contradiction|]. destruct Hx as [<-|[]]. left. auto.
Qed.

Lemma synthesized_In target state x :
  In x (synthesized target state) ->
  (x = mkDeltaDiff (headDelta timeSignaturesChanged)
         (orDefault (mergedTimeSignature target) timeSignaturesChanged)
   /\ existsb (fun s => hasType (delta s) timeSignaturesChanged) state = false)
  \/ (x = mkDeltaDiff (headDelta clipsAdded)
             (orDefault (fold_left mergedPattern target None) clipsAdded)
      /\ existsb (fun s => checkIfDeltaIsPatternType (delta s)) state = false).
Proof.
  unfold synthesized. rewrite in_app_iff.
  destruct (existsb (fun s => hasType (delta s) timeSignaturesChanged) state);
    destruct (existsb (fun s => checkIfDeltaIsPatternType (delta s)) state); simpl;
    intuition auto.
Qed.

(** ** Copy-forward *)

(** C4. A state delta that no target delta matches, neither by its type nor,
    for an events or a pattern delta, by its family, is in the merged item as
    it is in the state: the same delta with the same payload. *)
Theorem createMergedItem_copy_forward target state s :
  In s state ->
  (forall t, In t target -> getType (delta s) <> getType (delta t)) ->
  (isEventsFamily (delta s) = true ->
   forall t, In t target -> isEventsFamily (delta t) = false) ->
  (isClipsFamily (delta s) = true ->
   forall t, In t target -> isClipsFamily (delta t) = false) ->
  In (mkDeltaDiff (delta s) (deltaData s)) (createMergedItem target state).
Proof.
  intros Hs Htype Hevents Hclips.
  rewrite createMergedItem_eq, in_app_iff. left.
  apply in_flat_map. exists s. split; [assumption|].
  unfold emitted. rewrite !in_app_iff. do 3 right.
  assert (E : existsb (fun t => matchesInTarget (delta s) (delta t)) target = false).
  { apply not_true_is_false. intros H. apply existsb_exists in H.
    destruct H as [t [Ht Hm]]. unfold matchesInTarget in Hm.
    rewrite !orb_true_iff, !andb_true_iff in Hm. destruct Hm as [[Hm|[H1 H2]]|[H1 H2]].
    - apply Identifier_eqb_eq in Hm. now apply (Htype t).
    - unfold isEventsFamily in Hevents. rewrite (Hevents H1 t Ht) in H2. discriminate.
    - unfold isClipsFamily in Hclips. rewrite (Hclips H1 t Ht) in H2. discriminate. }
  rewrite E. left. now destruct s.
Qed.

(** ** Scalar deltas the state lacks *)

Lemma synthesized_timeSignature target state :
  (forall s, In s state -> hasType (delta s) timeSignaturesChanged = false) ->
  In (mkDeltaDiff (headDelta timeSignaturesChanged)
        (orDefault (mergedTimeSignature target) timeSignaturesChanged))
     (synthesized target state).
Proof.
  intros H. unfold synthesized.
  assert (E : existsb (fun s : DeltaDiff => hasType (delta s) timeSignaturesChanged) state
              = false).
  { apply not_true_is_false. intros He. apply existsb_exists in He.
    destruct He as [s [Hs Ht]]. rewrite (H s Hs) in Ht. discriminate. }
  rewrite E. now left.
Qed.

Lemma synthesized_clips target state :
  (forall s, In s state -> checkIfDeltaIsPatternType (delta s) = false) ->
  In (mkDeltaDiff (headDelta clipsAdded)
        (orDefault (fold_left mergedPattern target None) clipsAdded))
     (synthesized target state).
Proof.
  intros H. unfold synthesized.
  assert (E : existsb (fun s : DeltaDiff => checkIfDeltaIsPatternType (delta s)) state
              = false).
  { apply not_true_is_false. intros He. apply existsb_exists in He.
    destruct He as [s [Hs Ht]]. rewrite (H s Hs) in Ht. discriminate. }
  rewrite E. apply in_app_iff. right. now left.
Qed.

(** C10. A path, colour, instrument or controller delta that the state does
    not carry is not in the merged item, whatever the target carries: step 1
    emits deltas of the types of the state and [eventsAdded] and [clipsAdded],
    step 2 emits [timeSignaturesChanged] and [clipsAdded].  The two families
    that step 2 looks for are in the merged item also when the state lacks
    them. *)
Theorem createMergedItem_scalar_not_recovered target state :
  (forall t,
     In t [trackPath; trackColour; trackInstrument; trackController] ->
     (forall s, In s state -> getType (delta s) <> t) ->
     forall x, In x (createMergedItem target state) -> getType (delta x) <> t)
  /\ ((forall s, In s state -> hasType (delta s) timeSignaturesChanged = false) ->
      exists x, In x (createMergedItem target state)
                /\ getType (delta x) = timeSignaturesChanged)
  /\ ((forall s, In s state -> checkIfDeltaIsPatternType (delta s) = false) ->
      exists x, In x (createMergedItem target state)
                /\ getType (delta x) = clipsAdded).
Proof.
  rewrite createMergedItem_eq. split; [|split].
  - intros t Ht Hstate x Hx. rewrite in_app_iff, in_flat_map in Hx.
    destruct Hx as [[s [Hs Hx]]|Hx].
    + apply emitted_In in Hx. destruct Hx as [[Hx _]|[[-> _]|[-> _]]].
      * rewrite Hx. now apply Hstate.
      * simpl. intros <-. simpl in Ht. intuition discriminate.
      * simpl. intros <-. simpl in Ht. intuition discriminate.
    + apply synthesized_In in Hx. destruct Hx as [[-> _]|[-> _]].
      * simpl. intros <-. simpl in Ht. intuition discriminate.
      * simpl. intros <-. simpl in Ht. intuition discriminate.
  - intros H. eexists. split.
    + apply in_app_iff. right. now apply synthesized_timeSignature.
    + reflexivity.
  - intros H. eexists. split.
    + apply in_app_iff. right. now apply synthesized_clips.
    + reflexivity.
Qed.

(** ** Counting deltas *)

Lemma countDeltas_app p (l1 l2 : list DeltaDiff) :
  countDeltas p (l1 ++ l2) = (countDeltas p l1 + countDeltas p l2)%nat.
Proof. unfold countDeltas. now rewrite filter_app, length_app. Qed.

Lemma countDeltas_none p (l : list DeltaDiff) :
  (forall x, In x l -> p (delta x) = false) -> countDeltas p l = 0%nat.
Proof. intros H. unfold countDeltas. now rewrite filter_none. Qed.

Lemma countDeltas_flat_map_none {A : Type} p (f : A -> list DeltaDiff) l :
  (forall a, In a l -> countDeltas p (f a) = 0%nat) ->
  countDeltas p (flat_map f l) = 0%nat.
Proof.
  induction l as [|a l IH]; intros H; simpl; [reflexivity|].
  rewrite countDeltas_app, (H a) by now left. apply IH. intros b Hb. apply H. now right.
Qed.

Lemma countDeltas_cons p (x : DeltaDiff) l :
  countDeltas p (x :: l) = ((if p (delta x) then 1 else 0) + countDeltas p l)%nat.
Proof. unfold countDeltas. simpl. now destruct (p (delta x)). Qed.

Lemma existsb_false {A : Type} (f : A -> bool) l :
  existsb f l = false <-> (forall x, In x l -> f x = false).
Proof.
  split.
  - intros H x Hx. apply not_true_is_false. intros Hf.
    assert (existsb f l = true) by (apply existsb_exists; now exists x). congruence.
  - intros H. apply not_true_is_false. intros He. apply existsb_exists in He.
    destruct He as [x [Hx Hf]]. rewrite (H x Hx) in Hf. discriminate.
Qed.

Lemma countDeltas_existsb p (l : list DeltaDiff) :
  if existsb (fun x => p (delta x)) l
  then (1 <= countDeltas p l)%nat
  else countDeltas p l = 0%nat.
Proof.
  induction l as [|x l IH]; simpl; [reflexivity|].
  rewrite countDeltas_cons. destruct (p (delta x)); simpl; [lia|exact IH].
Qed.

Lemma strictMerge_count p stateDelta (target : list DeltaDiff) :
  (forall d, getType d = getType stateDelta ->
             isScalarType (getType stateDelta) = true -> p d = false) ->
  countDeltas p (flat_map (strictMerge stateDelta) target) = 0%nat.
Proof.
  intros H. apply countDeltas_none. intros x Hx. apply in_flat_map in Hx.
  destruct Hx as [t [_ Hx]]. apply strictMerge_In in Hx. apply H; tauto.
Qed.

Lemma matched_events stateDelta (target : TrackedItem) :
  checkIfDeltaIsEventsType stateDelta = true ->
  existsb (fun t => matchesInTarget stateDelta (delta t)) target
  = existsb (fun t => checkIfDeltaIsEventsType (delta t)) target.
Proof.
  intros Hs. induction target as [|t target IH]; simpl; [reflexivity|].
  rewrite IH. f_equal. unfold matchesInTarget.
  rewrite Hs, (events_not_pattern _ Hs). simpl. rewrite orb_false_r.
  destruct (Identifier_eqb (getType stateDelta) (getType (delta t))) eqn:E;
    [|reflexivity].
  apply Identifier_eqb_eq in E. now rewrite <- (same_type_events _ _ E), Hs.
Qed.

Lemma emitted_events_count target state :
  countDeltas isEventsFamily (emitted target state)
  = if checkIfDeltaIsEventsType (delta state) then 1%nat else 0%nat.
Proof.
  unfold emitted. rewrite !countDeltas_app, strictMerge_count.
  2:{ intros d Hd Hs. unfold isEventsFamily.
      rewrite (same_type_events _ _ Hd). now apply scalar_not_events. }
  destruct (checkIfDeltaIsEventsType (delta state)) eqn:E.
  - rewrite mergedEvents_valid, matched_events by assumption.
    rewrite mergedClips_unmatched.
    2:{ intros t _. now rewrite (events_not_pattern _ E). }
    simpl. destruct (existsb _ target); [reflexivity|].
    rewrite countDeltas_cons. unfold isEventsFamily. now rewrite E.
  - rewrite mergedEvents_unmatched.
    2:{ intros t _. now rewrite E. }
    simpl. rewrite (countDeltas_none isEventsFamily (if isValid _ then _ else _)).
    2:{ intros x Hx. destruct (isValid _); [|contradiction]. now destruct Hx as [<-|[]]. }
    destruct (existsb _ target); [reflexivity|].
    rewrite countDeltas_cons. unfold isEventsFamily. now rewrite E.
Qed.

Lemma emitted_clips_count target state :
  (countDeltas isClipsFamily (emitted target state)
   <= if checkIfDeltaIsPatternType (delta state) then 1 else 0)%nat.
Proof.
  unfold emitted. rewrite !countDeltas_app, strictMerge_count.
  2:{ intros d Hd Hs. unfold isClipsFamily.
      rewrite (same_type_pattern _ _ Hd). now apply scalar_not_pattern. }
  rewrite (countDeltas_none isClipsFamily (if isValid (fold_left (mergedEvents _ _) _ _)
                                           then _ else _)).
  2:{ intros x Hx. destruct (isValid _); [|contradiction]. now destruct Hx as [<-|[]]. }
  destruct (checkIfDeltaIsPatternType (delta state)) eqn:E.
  - destruct (existsb (fun t => matchesInTarget (delta state) (delta t)) target) eqn:Hm.
    + destruct (isValid _); simpl; unfold countDeltas; simpl; lia.
    + rewrite mergedClips_unmatched.
      2:{ intros t Ht. apply existsb_false with (x := t) in Hm; [|assumption].
          unfold matchesInTarget in Hm. apply orb_false_iff in Hm. tauto. }
      simpl. rewrite countDeltas_cons. unfold isClipsFamily. rewrite E.
      unfold countDeltas. simpl. lia.
  - rewrite mergedClips_unmatched.
    2:{ intros t _. now rewrite E. }
    simpl. destruct (existsb _ target); simpl; [unfold countDeltas; simpl; lia|].
    rewrite countDeltas_cons. unfold isClipsFamily. rewrite E.
    unfold countDeltas. simpl. lia.
Qed.

Lemma synthesized_events_count target state :
  countDeltas isEventsFamily (synthesized target state) = 0%nat.
Proof.
  apply countDeltas_none. intros x Hx. apply synthesized_In in Hx.
  now destruct Hx as [[-> _]|[-> _]].
Qed.

Lemma synthesized_clips_count target state :
  countDeltas isClipsFamily (synthesized target state)
  = if existsb (fun s => checkIfDeltaIsPatternType (delta s)) state then 0%nat else 1%nat.
Proof.
  unfold synthesized. rewrite countDeltas_app.
  destruct (existsb (fun s => hasType (delta s) timeSignaturesChanged) state);
    now destruct (existsb _ state).
Qed.

(** ** One delta per family *)

(** C7, as amended. Step 1 consolidates per state delta: the merged item
    holds exactly as many events deltas as the state does, and no more clips
    deltas than the state holds pattern deltas, or one when it holds none,
    however many deltas of the family the target carries. *)
Theorem createMergedItem_family_counts target state :
  countDeltas isEventsFamily (createMergedItem target state)
  = countDeltas isEventsFamily state
  /\ (countDeltas isClipsFamily (createMergedItem target state)
      <= Nat.max 1 (countDeltas isClipsFamily state))%nat.
Proof.
  rewrite createMergedItem_eq, !countDeltas_app.
  rewrite synthesized_events_count, synthesized_clips_count. split.
  - rewrite Nat.add_0_r. induction state as [|s state IH]; simpl; [reflexivity|].
    rewrite countDeltas_app, countDeltas_cons, emitted_events_count, IH.
    reflexivity.
  - pose proof (countDeltas_existsb isClipsFamily state) as He.
    unfold isClipsFamily at 1 in He.
    assert (Hle : (countDeltas isClipsFamily (flat_map (emitted target) state)
                   <= countDeltas isClipsFamily state)%nat).
    { clear He. induction state as [|s state IH]; simpl; [reflexivity|].
      rewrite countDeltas_app, countDeltas_cons.
      pose proof (emitted_clips_count target s) as H.
      unfold isClipsFamily at 3. lia. }
    destruct (existsb _ state); lia.
Qed.

(** ** Forward compatibility *)

Lemma fold_left_skip {A B : Type} (f : B -> A -> B) (skip : A -> Prop) l :
  (forall b a, skip a -> f b a = b) ->
  (forall a, In a l -> skip a) ->
  forall b, fold_left f l b = b.
Proof.
  intros Hf. induction l as [|a l IH]; intros H b; simpl; [reflexivity|].
  rewrite Hf by (apply H; now left). apply IH. intros x Hx. apply H. now right.
Qed.

Lemma mergedTimeSignature_none (target : TrackedItem) :
  (forall t, In t target -> hasType (delta t) timeSignaturesChanged = false) ->
  mergedTimeSignature target = None.
Proof.
  intros H. unfold mergedTimeSignature.
  apply (fold_left_skip _ (fun t => hasType (delta t) timeSignaturesChanged = false));
    [|assumption].
  intros b a Ha. now rewrite Ha.
Qed.

Lemma mergedTimeSignature_last (pre : TrackedItem) t post :
  hasType (delta t) timeSignaturesChanged = true ->
  (forall u, In u post -> hasType (delta u) timeSignaturesChanged = false) ->
  mergedTimeSignature (pre ++ t :: post)
  = mergeTimeSignature (emptyTree timeSignaturesChanged) (deltaData t).
Proof.
  intros Ht Hpost. unfold mergedTimeSignature. rewrite fold_left_app. simpl.
  rewrite Ht.
  apply (fold_left_skip _ (fun t => hasType (delta t) timeSignaturesChanged = false));
    [|assumption].
  intros b a Ha. now rewrite Ha.
Qed.

Lemma mergedPattern_none target :
  (forall t, In t target -> checkIfDeltaIsPatternType (delta t) = false) ->
  forall merged, fold_left mergedPattern target merged = merged.
Proof.
  intros H.
  apply (fold_left_skip _ (fun t => checkIfDeltaIsPatternType (delta t) = false));
    [|assumption].
  intros b a Ha. unfold mergedPattern. now rewrite Ha.
Qed.

Lemma emitted_timeSignature_count target state :
  hasType (delta state) timeSignaturesChanged = false ->
  countDeltas (fun d => hasType d timeSignaturesChanged) (emitted target state) = 0%nat.
Proof.
  intros H. apply countDeltas_none. intros x Hx. apply emitted_In in Hx.
  destruct Hx as [[Hx _]|[[-> _]|[-> _]]]; try reflexivity.
  unfold hasType in *. now rewrite Hx.
Qed.

(** C6. When the state carries no time-signature delta, the merged item
    carries exactly one: with the empty payload when the target carries none,
    and with the merge of the empty payload and the target's payload when the
    target carries one with a valid payload.  When the state carries no
    pattern delta, the merged item carries exactly one clips delta, tagged
    [clipsAdded], with a valid payload: the empty one when the target carries
    no pattern delta, and the merge of the empty payload and the target's
    when the target carries one added-clips delta and that merge is valid. *)
Theorem createMergedItem_forward_compatibility target state :
  ((forall s, In s state -> hasType (delta s) timeSignaturesChanged = false) ->
   countDeltas (fun d => hasType d timeSignaturesChanged) (createMergedItem target state)
   = 1%nat
   /\ ((forall t, In t target -> hasType (delta t) timeSignaturesChanged = false) ->
       In (mkDeltaDiff (headDelta timeSignaturesChanged) (emptyTree timeSignaturesChanged))
          (createMergedItem target state))
   /\ (forall pre t post,
         target = pre ++ t :: post ->
         hasType (delta t) timeSignaturesChanged = true ->
         (forall u, In u post -> hasType (delta u) timeSignaturesChanged = false) ->
         isValid (deltaData t) = true ->
         In (mkDeltaDiff (headDelta timeSignaturesChanged)
               (mergeTimeSignature (emptyTree timeSignaturesChanged) (deltaData t)))
            (createMergedItem target state)))
  /\ ((forall s, In s state -> checkIfDeltaIsPatternType (delta s) = false) ->
      countDeltas isClipsFamily (createMergedItem target state) = 1%nat
      /\ (exists data,
            isValid data = true
            /\ In (mkDeltaDiff (headDelta clipsAdded) data) (createMergedItem target state))
      /\ ((forall t, In t target -> checkIfDeltaIsPatternType (delta t) = false) ->
          In (mkDeltaDiff (headDelta clipsAdded) (emptyTree clipsAdded))
             (createMergedItem target state))
      /\ (forall pre t post,
            target = pre ++ t :: post ->
            hasType (delta t) clipsAdded = true ->
            (forall u, In u (pre ++ post) -> checkIfDeltaIsPatternType (delta u) = false) ->
            isValid (mergeClipsAdded (emptyTree clipsAdded) (deltaData t)) = true ->
            In (mkDeltaDiff (headDelta clipsAdded)
                  (mergeClipsAdded (emptyTree clipsAdded) (deltaData t)))
               (createMergedItem target state))).
Proof.
  rewrite createMergedItem_eq. split.
  - intros Hstate.
    assert (Hs : existsb (fun s => hasType (delta s) timeSignaturesChanged) state = false)
      by now apply existsb_false.
    assert (Hin : forall data,
              orDefault (mergedTimeSignature target) timeSignaturesChanged = data ->
              In (mkDeltaDiff (headDelta timeSignaturesChanged) data)
                 (flat_map (emitted target) state ++ synthesized target state)).
    { intros data <-. apply in_app_iff. right. unfold synthesized. rewrite Hs.
      now left. }
    split; [|split].
    + rewrite countDeltas_app, countDeltas_flat_map_none.
      2:{ intros s Hin'. now apply emitted_timeSignature_count, Hstate. }
      unfold synthesized. rewrite Hs, countDeltas_app.
      destruct (existsb (fun s => checkIfDeltaIsPatternType (delta s)) state); reflexivity.
    + intros Htarget. apply Hin. now rewrite mergedTimeSignature_none.
    + intros pre t post -> Ht Hpost Hvalid. apply Hin.
      rewrite mergedTimeSignature_last by assumption.
      unfold orDefault, mergeTimeSignature, createCopy. now rewrite Hvalid.
  - intros Hstate.
    assert (Hs : existsb (fun s => checkIfDeltaIsPatternType (delta s)) state = false)
      by now apply existsb_false.
    assert (Hin : forall data,
              orDefault (fold_left mergedPattern target None) clipsAdded = data ->
              In (mkDeltaDiff (headDelta clipsAdded) data)
                 (flat_map (emitted target) state ++ synthesized target state)).
    { intros data <-. apply in_app_iff. right. unfold synthesized. rewrite Hs.
      apply in_app_iff. right. now left. }
    split; [|split; [|split]].
    + rewrite countDeltas_app, synthesized_clips_count, Hs.
      rewrite countDeltas_flat_map_none; [reflexivity|].
      intros s Hin'. pose proof (emitted_clips_count target s) as Hle.
      rewrite (Hstate s Hin') in Hle. lia.
    + exists (orDefault (fold_left mergedPattern target None) clipsAdded). split.
      * unfold orDefault. now destruct (isValid (fold_left mergedPattern target None)) eqn:E.
      * now apply Hin.
    + intros Htarget. apply Hin. now rewrite mergedPattern_none.
    + intros pre t post -> Ht Hrest Hvalid. apply Hin.
      rewrite fold_left_app. simpl.
      rewrite (mergedPattern_none pre) by (intros u Hu; apply Hrest, in_app_iff; now left).
      rewrite (mergedPattern_none post) by (intros u Hu; apply Hrest, in_app_iff; now right).
      assert (Hp : checkIfDeltaIsPatternType (delta t) = true).
      { unfold checkIfDeltaIsPatternType. now rewrite Ht. }
      unfold mergedPattern. rewrite Hp, Ht. simpl. unfold orDefault. now rewrite Hvalid.
Qed.

(** ** Scalar deltas both sides carry *)

Lemma createMergedItem_scalar target state s t :
  In s state -> In t target ->
  getType (delta s) = getType (delta t) ->
  isScalarType (getType (delta t)) = true ->
  In (mkDeltaDiff (mkDelta (getDescription (delta t)) (getType (delta t))) (deltaData t))
     (createMergedItem target state).
Proof.
  intros Hs Ht Htype Hscalar. rewrite createMergedItem_eq, in_app_iff. left.
  apply in_flat_map. exists s. split; [assumption|].
  unfold emitted. apply in_app_iff. left. apply in_flat_map. exists t.
  split; [assumption|]. unfold strictMerge.
  rewrite Htype, Identifier_eqb_refl, Hscalar. now left.
Qed.

Lemma scalar_merges (state changes : SerializedData) :
  mergePath state changes = changes
  /\ mergeColour state changes = changes
  /\ mergeInstrument state changes = changes
  /\ mergeController state changes = changes
  /\ mergeTimeSignature state changes = changes.
Proof. repeat split. Qed.

(** ** The groups of the diff *)

Lemma createAutoEventsDiffs_groups state changes :
  NoDup (ids (eventsOf state)) ->
  NoDup (ids (eventsOf changes)) ->
  exists added removed changed : list AutomationEvent,
    createAutoEventsDiffs state changes
    = deltaGroup "added {x} events" eventsAdded added
      ++ deltaGroup "removed {x} events" eventsRemoved removed
      ++ deltaGroup "changed {x} events" eventsChanged changed
    /\ (forall e, In e removed <->
                  In e (eventsOf state) /\ ~ In (getId e) (ids (eventsOf changes)))
    /\ (forall e, In e changed <->
                  In e (eventsOf changes)
                  /\ exists s, In s (eventsOf state) /\ getId s = getId e
                               /\ (float_eqb (getBeat s) (getBeat e) = false
                                   \/ float_eqb (getCurvature s) (getCurvature e) = false
                                   \/ float_eqb (getControllerValue s)
                                        (getControllerValue e) = false))
    /\ (forall e, In e added <->
                  In e (eventsOf changes) /\ ~ In (getId e) (ids (eventsOf state))).
Proof.
  intros _ HC.
  exists (filter (fun c => negb (idIn (eventsOf state) c)) (eventsOf changes)),
         (filter (fun s => negb (idIn (eventsOf changes) s)) (eventsOf state)),
         (flat_map (changedCounterpart (eventsOf changes)) (eventsOf state)).
  split; [apply createAutoEventsDiffs_spec|]. split; [|split].
  - intros e. rewrite filter_In, negb_true_iff, idIn_false. tauto.
  - intros e. rewrite (changedCounterpart_In _ _ _ HC).
    split; intros [He [s [Hs [Hid Hch]]]]; (split; [assumption|]); exists s;
      (split; [assumption|]); (split; [assumption|]); now apply eventHasChanged_spec.
  - intros e. rewrite filter_In, negb_true_iff, idIn_false. tauto.
Qed.

(** * Further properties of the code *)

(** ** Payloads without events *)

Lemma eventsOf_nil_state state changes :
  eventsOf state = [] -> fst (deserializeAutoTrackChanges state changes) = [].
Proof.
  intros H. rewrite <- (deserialized_state state changes) in H.
  now destruct (fst (deserializeAutoTrackChanges state changes)).
Qed.

Lemma eventsOf_nil_changes state changes :
  eventsOf changes = [] -> snd (deserializeAutoTrackChanges state changes) = [].
Proof.
  intros H. rewrite <- (deserialized_changes state changes) in H.
  now destruct (snd (deserializeAutoTrackChanges state changes)).
Qed.

Lemma eventsOf_invalid : eventsOf (None : SerializedData) = [].
Proof. reflexivity. Qed.

Lemma eventsOf_emptyTree tag : eventsOf (emptyTree tag : SerializedData) = [].
Proof. reflexivity. Qed.

Lemma In_eventsOf_sequenceTree tag (events : list AutomationEvent) e :
  In e (eventsOf (sequenceTree tag events)) <-> In e events.
Proof.
  split; apply Permutation_in;
    [apply eventsOf_sequenceTree|symmetry; apply eventsOf_sequenceTree].
Qed.

Lemma ids_eventsOf_sequenceTree tag (events : list AutomationEvent) :
  Permutation (ids (eventsOf (sequenceTree tag events))) (ids events).
Proof. unfold ids. apply Permutation_map, eventsOf_sequenceTree. Qed.

Lemma In_ids_eventsOf_sequenceTree tag (events : list AutomationEvent) i :
  In i (ids (eventsOf (sequenceTree tag events))) <-> In i (ids events).
Proof.
  split; apply Permutation_in;
    [apply ids_eventsOf_sequenceTree|symmetry; apply ids_eventsOf_sequenceTree].
Qed.

Lemma mergeAutoEventsChanged_no_changes state changes :
  eventsOf changes = [] ->
  mergeAutoEventsChanged state changes = sequenceTree eventsAdded (eventsOf state).
Proof.
  intros H. unfold mergeAutoEventsChanged.
  rewrite <- (deserialized_state state changes).
  pose proof (eventsOf_nil_changes state changes H) as HC.
  destruct (deserializeAutoTrackChanges state changes) as [S C]. simpl in *. subst C.
  rewrite serializeAutoSequence_spec. do 2 f_equal.
  assert (Hloop : forall (l R : list MidiEventPtr),
            fold_left
              (fun result stateNote =>
                 match findNoteIn [] stateNote with
                 | Some changesNote =>
                     addIfNotAlreadyThere changesNote (removeAllInstancesOf stateNote result)
                 | None => result
                 end) l R = R).
  { induction l as [|s l IH]; intros R; simpl; [reflexivity|]. apply IH. }
  apply Hloop.
Qed.

Lemma mergeAutoEventsChanged_no_state state changes :
  eventsOf state = [] ->
  mergeAutoEventsChanged state changes = emptyTree eventsAdded.
Proof.
  intros H. unfold mergeAutoEventsChanged.
  pose proof (eventsOf_nil_state state changes H) as HS.
  destruct (deserializeAutoTrackChanges state changes) as [S C]. simpl in *. now subst S.
Qed.

(** X1. The removed-merge returns one payload tagged [eventsAdded] that lists
    the state's records whose id the changes do not have, and only those, in
    the order of the state; it adds no record, and ids that are unique in
    the state are unique in the result. *)
Theorem mergeAutoEventsRemoved_difference state changes :
  exists keep : AutomationEvent -> bool,
    mergeAutoEventsRemoved state changes
    = sequenceTree eventsAdded (filter keep (eventsOf state))
    /\ (forall e, In e (filter keep (eventsOf state)) <->
                  In e (eventsOf state) /\ ~ In (getId e) (ids (eventsOf changes)))
    /\ (forall e, In e (eventsOf changes) ->
                  ~ In (getId e) (ids (filter keep (eventsOf state))))
    /\ (NoDup (ids (eventsOf state)) ->
        NoDup (ids (filter keep (eventsOf state)))).
Proof.
  exists (fun s => negb (idIn (eventsOf changes) s)).
  split; [apply mergeAutoEventsRemoved_spec|].
  assert (Hin : forall e,
            In e (filter (fun s => negb (idIn (eventsOf changes) s)) (eventsOf state)) <->
            In e (eventsOf state) /\ ~ In (getId e) (ids (eventsOf changes))).
  { intros e. rewrite filter_In, negb_true_iff, idIn_false. tauto. }
  split; [exact Hin|]. split.
  - intros e He Hid. unfold ids in Hid. apply in_map_iff in Hid.
    destruct Hid as [s [Hs Hkept]]. apply Hin in Hkept. destruct Hkept as [_ Hkept].
    apply Hkept. rewrite Hs. now apply in_map.
  - apply NoDup_ids_filter.
Qed.

(** X2. A payload without event children, be it invalid, empty or made of
    other nodes, counts as the empty sequence: the added-merge then lists the
    other side, the removed-merge and the changed-merge list the state as it
    is when the changes have no event, and nothing when the state has none,
    whatever the changes hold. *)
Theorem merges_without_events state changes :
  (eventsOf changes = [] ->
   mergeAutoEventsAdded state changes = sequenceTree eventsAdded (eventsOf state)
   /\ mergeAutoEventsRemoved state changes = sequenceTree eventsAdded (eventsOf state)
   /\ mergeAutoEventsChanged state changes = sequenceTree eventsAdded (eventsOf state))
  /\ (eventsOf state = [] ->
      mergeAutoEventsAdded state changes = sequenceTree eventsAdded (eventsOf changes)
      /\ mergeAutoEventsRemoved state changes = emptyTree eventsAdded
      /\ mergeAutoEventsChanged state changes = emptyTree eventsAdded).
Proof.
  split; intros H.
  - split; [|split].
    + rewrite mergeAutoEventsAdded_spec, H. simpl. now rewrite app_nil_r.
    + rewrite mergeAutoEventsRemoved_spec, H. simpl. f_equal.
      induction (eventsOf state) as [|e l IH]; simpl; [reflexivity|]. now rewrite IH.
    + now apply mergeAutoEventsChanged_no_changes.
  - split; [|split].
    + rewrite mergeAutoEventsAdded_spec, H. simpl. f_equal.
      induction (eventsOf changes) as [|e l IH]; simpl; [reflexivity|]. now rewrite IH.
    + now rewrite mergeAutoEventsRemoved_spec, H.
    + now apply mergeAutoEventsChanged_no_state.
Qed.

Lemma sequenceTree_listedEvents tag (events : list AutomationEvent) :
  sequenceTree tag (listedEvents (sequenceTree tag events)) = sequenceTree tag events.
Proof. now rewrite listedEvents_sequenceTree. Qed.

(** X3. Whatever the two payloads hold, each of the three merges returns a
    valid tree in normal form: tagged [eventsAdded], without attributes, and
    with no child but the nodes of its events, so that writing the events it
    lists under [eventsAdded] gives the payload back.  Attributes of the
    inputs and children that are not events are not carried over. *)
Theorem merges_normal_form state changes :
  (isValid (mergeAutoEventsAdded state changes) = true
   /\ mergeAutoEventsAdded state changes
      = sequenceTree eventsAdded (listedEvents (mergeAutoEventsAdded state changes)))
  /\ (isValid (mergeAutoEventsRemoved state changes) = true
      /\ mergeAutoEventsRemoved state changes
         = sequenceTree eventsAdded (listedEvents (mergeAutoEventsRemoved state changes)))
  /\ (isValid (mergeAutoEventsChanged state changes) = true
      /\ mergeAutoEventsChanged state changes
         = sequenceTree eventsAdded (listedEvents (mergeAutoEventsChanged state changes))).
Proof.
  split; [|split].
  - rewrite mergeAutoEventsAdded_spec. split; [reflexivity|].
    now rewrite sequenceTree_listedEvents.
  - rewrite mergeAutoEventsRemoved_spec. split; [reflexivity|].
    now rewrite sequenceTree_listedEvents.
  - unfold mergeAutoEventsChanged.
    destruct (deserializeAutoTrackChanges state changes) as [S C].
    rewrite serializeAutoSequence_spec. split; [reflexivity|].
    now rewrite sequenceTree_listedEvents.
Qed.

(** ** The diff at its edges *)

Lemma filter_all {A : Type} (f : A -> bool) l :
  (forall x, In x l -> f x = true) -> filter f l = l.
Proof.
  induction l as [|x l IH]; simpl; intros H; [reflexivity|].
  rewrite (H x) by now left. f_equal. apply IH. intros y Hy. apply H. now right.
Qed.

Lemma flat_map_nil {A B : Type} (f : A -> list B) l :
  (forall x, In x l -> f x = []) -> flat_map f l = [].
Proof.
  induction l as [|x l IH]; simpl; intros H; [reflexivity|].
  rewrite (H x) by now left. apply IH. intros y Hy. apply H. now right.
Qed.

Lemma createAutoEventsDiffs_no_state state changes :
  eventsOf state = [] ->
  createAutoEventsDiffs state changes
  = deltaGroup "added {x} events" eventsAdded (eventsOf changes).
Proof.
  intros H. rewrite createAutoEventsDiffs_spec, H. simpl.
  rewrite filter_all by reflexivity. now rewrite app_nil_r.
Qed.

(** X4. Against a state without events the diff is the added group alone,
    with all the events of the changes; against changes without events it is
    the removed group alone, with all the events of the state; and it is
    empty when neither side has an event. *)
Theorem createAutoEventsDiffs_without_events state changes :
  (eventsOf state = [] ->
   createAutoEventsDiffs state changes
   = deltaGroup "added {x} events" eventsAdded (eventsOf changes))
  /\ (eventsOf changes = [] ->
      createAutoEventsDiffs state changes
      = deltaGroup "removed {x} events" eventsRemoved (eventsOf state))
  /\ (eventsOf state = [] -> eventsOf changes = [] ->
      createAutoEventsDiffs state changes = []).
Proof.
  split; [apply createAutoEventsDiffs_no_state|]. split.
  - intros H. rewrite createAutoEventsDiffs_spec, H. simpl.
    rewrite filter_all by reflexivity.
    rewrite flat_map_nil by reflexivity. now rewrite app_nil_r.
  - intros HS HC. now rewrite (createAutoEventsDiffs_no_state _ _ HS), HC.
Qed.

Lemma deltaGroup_nil description tag (events : list AutomationEvent) :
  deltaGroup description tag events = [] <-> events = [].
Proof. destruct events; simpl; split; intros H; congruence. Qed.

Lemma createAutoEventsDiffs_nil state changes :
  createAutoEventsDiffs state changes = [] <->
  filter (fun c => negb (idIn (eventsOf state) c)) (eventsOf changes) = []
  /\ filter (fun s => negb (idIn (eventsOf changes) s)) (eventsOf state) = []
  /\ flat_map (changedCounterpart (eventsOf changes)) (eventsOf state) = [].
Proof.
  rewrite createAutoEventsDiffs_spec. split.
  - intros H. apply app_eq_nil in H. destruct H as [Ha H].
    apply app_eq_nil in H. destruct H as [Hr Hc].
    now rewrite deltaGroup_nil in Ha, Hr, Hc.
  - intros [-> [-> ->]]. reflexivity.
Qed.

Lemma filter_nil {A : Type} (f : A -> bool) l :
  filter f l = [] -> forall x, In x l -> f x = false.
Proof.
  intros H x Hx. destruct (f x) eqn:E; [|reflexivity].
  assert (Hin : In x (filter f l)) by (apply filter_In; auto).
  rewrite H in Hin. contradiction.
Qed.

Lemma flat_map_eq_nil {A B : Type} (f : A -> list B) l :
  flat_map f l = [] -> forall x, In x l -> f x = [].
Proof.
  induction l as [|y l IH]; simpl; intros H x Hx; [contradiction|].
  apply app_eq_nil in H. destruct H as [Hy Hl].
  destruct Hx as [<-|Hx]; [assumption|now apply IH].
Qed.

Section FloatEquality.

Hypothesis float_eqb_spec : forall a b : float, float_eqb a b = true <-> a = b.

Lemma eventHasChanged_false (s c : AutomationEvent) :
  getId s = getId c -> eventHasChanged s c = false -> s = c.
Proof.
  unfold eventHasChanged. rewrite !orb_false_iff, !negb_false_iff.
  intros Hid [[Hb Hcu] Hv]. apply float_eqb_spec in Hb, Hcu, Hv.
  destruct s, c; simpl in *. congruence.
Qed.

Lemma eventHasChanged_same (s : AutomationEvent) : eventHasChanged s s = false.
Proof.
  unfold eventHasChanged.
  rewrite !(proj2 (float_eqb_spec _ _) eq_refl). reflexivity.
Qed.

(** X5. When [==] on floats is equality and ids are unique within each
    sequence, the diff emits no delta exactly when the two sequences hold the
    same records. *)
Theorem createAutoEventsDiffs_empty_iff state changes :
  NoDup (ids (eventsOf state)) ->
  NoDup (ids (eventsOf changes)) ->
  (createAutoEventsDiffs state changes = [] <->
   forall e, In e (eventsOf state) <-> In e (eventsOf changes)).
Proof.
  intros HS HC. rewrite createAutoEventsDiffs_nil. split.
  - intros [Ha [Hr Hc]] e. split; intros He.
    + pose proof (filter_nil _ _ Hr e He) as Hid.
      apply negb_false_iff, idIn_spec in Hid.
      destruct (counterpart (eventsOf changes) e) as [c|] eqn:E.
      2:{ apply counterpart_None in E. contradiction. }
      destruct (counterpart_Some _ _ _ E) as [Hcin Hsame].
      pose proof (flat_map_eq_nil _ _ Hc e He) as Hch.
      unfold changedCounterpart in Hch. rewrite E in Hch.
      destruct (eventHasChanged e c) eqn:Hchanged; [discriminate|].
      now rewrite (eventHasChanged_false e c Hsame Hchanged).
    + pose proof (filter_nil _ _ Ha e He) as Hid.
      apply negb_false_iff, idIn_spec in Hid.
      unfold ids in Hid. apply in_map_iff in Hid. destruct Hid as [s [Hsame Hs]].
      pose proof (flat_map_eq_nil _ _ Hc s Hs) as Hch.
      unfold changedCounterpart in Hch.
      rewrite (counterpart_unique _ s e HC He Hsame) in Hch.
      destruct (eventHasChanged s e) eqn:Hchanged; [discriminate|].
      now rewrite <- (eventHasChanged_false s e Hsame Hchanged).
  - intros Hsame. split; [|split].
    + apply filter_none. intros c Hc. apply negb_false_iff, idIn_spec.
      apply in_map. now apply Hsame.
    + apply filter_none. intros s Hs. apply negb_false_iff, idIn_spec.
      apply in_map. now apply Hsame.
    + apply flat_map_nil. intros s Hs. unfold changedCounterpart.
      rewrite (counterpart_unique _ s s HC) by (try reflexivity; now apply Hsame).
      now rewrite eventHasChanged_same.
Qed.

End FloatEquality.

Lemma length_partition {A : Type} (f : A -> bool) l :
  (List.length (filter (fun x => negb (f x)) l) + List.length (filter f l)
   = List.length l)%nat.
Proof.
  induction l as [|x l IH]; simpl; [reflexivity|].
  destruct (f x); simpl; lia.
Qed.

Lemma ids_common (l1 l2 : list AutomationEvent) :
  NoDup (ids l1) -> NoDup (ids l2) ->
  Permutation (ids (filter (idIn l2) l1)) (ids (filter (idIn l1) l2)).
Proof.
  intros H1 H2. apply NoDup_Permutation.
  - now apply NoDup_ids_filter.
  - now apply NoDup_ids_filter.
  - intros i. unfold ids. rewrite !in_map_iff.
    split; intros [e [He Hin]]; apply filter_In in Hin; destruct Hin as [Hin Hid];
      apply idIn_spec in Hid; unfold ids in Hid; apply in_map_iff in Hid;
      destruct Hid as [e' [He' Hin']]; exists e'; (split; [congruence|]);
      apply filter_In; (split; [assumption|]); apply idIn_spec;
      rewrite He'; now apply in_map.
Qed.

(** X6. With unique ids within each sequence the counts of the diff
    balance: the records added and the records of the state are as many as
    the records removed and the records of the changes, and no more records
    are changed than the state has records that the changes keep. *)
Theorem createAutoEventsDiffs_counts state changes :
  NoDup (ids (eventsOf state)) ->
  NoDup (ids (eventsOf changes)) ->
  exists added removed changed : list AutomationEvent,
    createAutoEventsDiffs state changes
    = deltaGroup "added {x} events" eventsAdded added
      ++ deltaGroup "removed {x} events" eventsRemoved removed
      ++ deltaGroup "changed {x} events" eventsChanged changed
    /\ (List.length added + List.length (eventsOf state)
        = List.length removed + List.length (eventsOf changes))%nat
    /\ (List.length changed + List.length removed <= List.length (eventsOf state))%nat.
Proof.
  intros HS HC.
  set (S := eventsOf state) in *. set (C := eventsOf changes) in *.
  exists (filter (fun c => negb (idIn S c)) C),
         (filter (fun s => negb (idIn C s)) S),
         (flat_map (changedCounterpart C) S).
  split; [apply createAutoEventsDiffs_spec|].
  pose proof (length_partition (idIn S) C) as HlC.
  pose proof (length_partition (idIn C) S) as HlS.
  pose proof (Permutation_length (ids_common S C HS HC)) as Hcommon.
  unfold ids in Hcommon. rewrite !length_map in Hcommon.
  split; [lia|].
  assert (Hch : (List.length (flat_map (changedCounterpart C) S)
                 <= List.length (filter (idIn C) S))%nat).
  { clear. induction S as [|s S IH]; simpl; [lia|].
    rewrite length_app. unfold changedCounterpart at 1.
    destruct (counterpart C s) as [c|] eqn:E.
    - apply counterpart_Some in E. destruct E as [Hc Hid].
      assert (Hin : idIn C s = true).
      { apply idIn_spec. rewrite Hid. now apply in_map. }
      rewrite Hin. destruct (eventHasChanged s c); simpl; lia.
    - destruct (idIn C s); simpl; lia. }
  lia.
Qed.

(** ** createMergedItem at its edges *)

Lemma emitted_no_target (state : DeltaDiff) : emitted [] state = [state].
Proof. reflexivity. Qed.

Lemma flat_map_singleton {A : Type} (l : list A) : flat_map (fun x => [x]) l = l.
Proof. induction l as [|x l IH]; simpl; [reflexivity|]. now rewrite IH. Qed.

(** X7. Merging with a target that carries no delta keeps the state as it
    is: the merged item lists the deltas of the state with their payloads,
    in their order, followed by an empty time-signature delta when the state
    has none and by an empty clips delta when the state has no pattern
    delta. *)
Theorem createMergedItem_no_target (state : TrackedItem) :
  createMergedItem [] state
  = state
    ++ (if existsb (fun s => hasType (delta s) timeSignaturesChanged) state then []
        else [mkDeltaDiff (headDelta timeSignaturesChanged)
                (emptyTree timeSignaturesChanged)])
    ++ (if existsb (fun s => checkIfDeltaIsPatternType (delta s)) state then []
        else [mkDeltaDiff (headDelta clipsAdded) (emptyTree clipsAdded)]).
Proof.
  rewrite createMergedItem_eq. f_equal.
  rewrite <- (flat_map_singleton state) at 2. apply flat_map_ext. intros s.
  apply emitted_no_target.
Qed.

(** X8. Merging into a state that carries no delta gives the two deltas of
    step 2 and nothing else, each with a valid payload: no path, colour,
    instrument, controller or events delta of the target reaches the merged
    item. *)
Theorem createMergedItem_no_state (target : TrackedItem) :
  exists timeSignatures clips : SerializedData,
    createMergedItem target []
    = [ mkDeltaDiff (headDelta timeSignaturesChanged) timeSignatures;
        mkDeltaDiff (headDelta clipsAdded) clips ]
    /\ isValid timeSignatures = true
    /\ isValid clips = true
    /\ ((forall t, In t target -> hasType (delta t) timeSignaturesChanged = false) ->
        timeSignatures = emptyTree timeSignaturesChanged)
    /\ ((forall t, In t target -> checkIfDeltaIsPatternType (delta t) = false) ->
        clips = emptyTree clipsAdded).
Proof.
  exists (orDefault (mergedTimeSignature target) timeSignaturesChanged),
         (orDefault (fold_left mergedPattern target None) clipsAdded).
  split; [now rewrite createMergedItem_eq|].
  split; [|split; [|split]].
  - unfold orDefault. now destruct (isValid (mergedTimeSignature target)) eqn:E.
  - unfold orDefault. now destruct (isValid (fold_left mergedPattern target None)) eqn:E.
  - intros H. now rewrite mergedTimeSignature_none.
  - intros H. now rewrite mergedPattern_none.
Qed.

Lemma not_dispatched type (d : Delta) :
  ~ In type dispatchedTypes -> getType d = type ->
  isScalarType (getType d) = false
  /\ checkIfDeltaIsEventsType d = false
  /\ checkIfDeltaIsPatternType d = false.
Proof.
  intros Hout Htype. unfold checkIfDeltaIsEventsType, checkIfDeltaIsPatternType, hasType.
  rewrite Htype. unfold dispatchedTypes in Hout.
  destruct type; simpl in Hout; try tauto; repeat split.
Qed.

Lemma strictMerge_not_scalar stateDelta (target : TrackedItem) :
  isScalarType (getType stateDelta) = false ->
  flat_map (strictMerge stateDelta) target = [].
Proof.
  intros H. apply flat_map_nil. intros t _. unfold strictMerge.
  destruct (Identifier_eqb (getType stateDelta) (getType (delta t))) eqn:E;
    [|reflexivity].
  apply Identifier_eqb_eq in E. now rewrite <- E, H.
Qed.

(** X9. A delta type that [createMergedItem] does not name is lost when both
    sides carry it: the loop over the target marks the state's delta as
    found and emits nothing for it, so the merged item has no delta of that
    type. *)
Theorem createMergedItem_drops_matched_unknown (target state : TrackedItem) type :
  ~ In type dispatchedTypes ->
  (exists t, In t target /\ getType (delta t) = type) ->
  forall x, In x (createMergedItem target state) -> getType (delta x) <> type.
Proof.
  intros Hout [t [Ht Htype]] x Hx Hxtype.
  rewrite createMergedItem_eq, in_app_iff, in_flat_map in Hx.
  destruct Hx as [[s [Hs Hx]]|Hx].
  - assert (Hsame : getType (delta s) = type).
    { apply emitted_In in Hx. destruct Hx as [[Hx _]|[[-> _]|[-> _]]].
      - congruence.
      - simpl in Hxtype. subst type. unfold dispatchedTypes in Hout. simpl in Hout. tauto.
      - simpl in Hxtype. subst type. unfold dispatchedTypes in Hout. simpl in Hout. tauto. }
    destruct (not_dispatched type (delta s) Hout Hsame) as [Hsc [Hev Hpa]].
    unfold emitted in Hx.
    rewrite strictMerge_not_scalar in Hx by assumption.
    rewrite mergedEvents_unmatched in Hx by (intros u _; now rewrite Hev).
    rewrite mergedClips_unmatched in Hx by (intros u _; now rewrite Hpa).
    assert (Hfound : existsb (fun t => matchesInTarget (delta s) (delta t)) target = true).
    { apply existsb_exists. exists t. split; [assumption|].
      unfold matchesInTarget. rewrite Hsame, Htype, Identifier_eqb_refl. reflexivity. }
    rewrite Hfound in Hx. simpl in Hx. contradiction.
  - apply synthesized_In in Hx. destruct Hx as [[-> _]|[-> _]];
      simpl in Hxtype; subst type; unfold dispatchedTypes in Hout; simpl in Hout; tauto.
Qed.

(** ** One delta of each kind *)

Lemma Identifier_eqb_false a b : Identifier_eqb a b = false -> a <> b.
Proof. unfold Identifier_eqb. destruct (Identifier_eq_dec a b); congruence. Qed.

Lemma NoDup_app_disjoint {A : Type} (l1 l2 : list A) :
  NoDup l1 -> NoDup l2 -> (forall x, In x l1 -> ~ In x l2) -> NoDup (l1 ++ l2).
Proof.
  induction l1 as [|x l1 IH]; simpl; intros H1 H2 H; [assumption|].
  inversion_clear H1 as [|? ? Hx Hl]. constructor.
  - rewrite in_app_iff. intros [Hin|Hin]; [contradiction|]. apply (H x); auto.
  - apply IH; auto.
Qed.

Lemma kindOf_same_type (d d' : Delta) : getType d = getType d' -> kindOf d = kindOf d'.
Proof.
  intros H. unfold kindOf.
  now rewrite (same_type_events _ _ H), (same_type_pattern _ _ H), H.
Qed.

Lemma strictMerge_at_most_one stateDelta (target : TrackedItem) :
  NoDup (map (fun t => getType (delta t)) target) ->
  (flat_map (strictMerge stateDelta) target = []
   /\ (isScalarType (getType stateDelta) = true ->
       forall t, In t target -> getType stateDelta <> getType (delta t)))
  \/ (exists x, flat_map (strictMerge stateDelta) target = [x]
                /\ getType (delta x) = getType stateDelta
                /\ exists t, In t target /\ getType stateDelta = getType (delta t)).
Proof.
  induction target as [|t target IH]; simpl; intros Hn.
  - left. split; [reflexivity|]. intros _ u [].
  - inversion_clear Hn as [|? ? Ht Hrest].
    unfold strictMerge at 1 3.
    destruct (Identifier_eqb (getType stateDelta) (getType (delta t))) eqn:E; simpl.
    + apply Identifier_eqb_eq in E.
      assert (Hnone : flat_map (strictMerge stateDelta) target = []).
      { apply flat_map_nil. intros u Hu. unfold strictMerge.
        destruct (Identifier_eqb (getType stateDelta) (getType (delta u))) eqn:E';
          [|reflexivity].
        apply Identifier_eqb_eq in E'. exfalso. apply Ht. rewrite <- E, E'.
        now apply (in_map (fun t => getType (delta t))). }
      rewrite Hnone. destruct (isScalarType (getType (delta t))) eqn:Hs; simpl.
      * right. eexists. split; [reflexivity|]. simpl. split; [now symmetry|].
        exists t. split; [now left|assumption].
      * left. split; [reflexivity|]. intros Hscalar. rewrite E, Hs in Hscalar.
        discriminate.
    + apply Identifier_eqb_false in E.
      destruct (IH Hrest) as [[Hnil Hno]|[x [Hx [Htype [u [Hu Hsame]]]]]].
      * left. split; [assumption|]. intros Hscalar u [<-|Hu]; [assumption|].
        now apply Hno.
      * right. exists x. split; [assumption|]. split; [assumption|].
        exists u. split; [now right|assumption].
Qed.

Lemma matched_by_type stateDelta (target : TrackedItem) :
  checkIfDeltaIsEventsType stateDelta = false ->
  checkIfDeltaIsPatternType stateDelta = false ->
  existsb (fun t => matchesInTarget stateDelta (delta t)) target
  = existsb (fun t => Identifier_eqb (getType stateDelta) (getType (delta t))) target.
Proof.
  intros He Hp. induction target as [|t target IH]; simpl; [reflexivity|].
  rewrite IH. f_equal. unfold matchesInTarget. rewrite He, Hp. simpl.
  now rewrite !orb_false_r.
Qed.

Lemma emitted_shape (target : TrackedItem) (state : DeltaDiff) :
  NoDup (map (fun t => getType (delta t)) target) ->
  emitted target state = []
  \/ exists x, emitted target state = [x] /\ kindOf (delta x) = kindOf (delta state).
Proof.
  intros Hn. unfold emitted.
  destruct (checkIfDeltaIsEventsType (delta state)) eqn:He.
  - (* an events delta *)
    rewrite strictMerge_not_scalar.
    2:{ destruct (isScalarType (getType (delta state))) eqn:Hs; [|reflexivity].
        rewrite (scalar_not_events _ Hs) in He. discriminate. }
    rewrite mergedClips_unmatched
      by (intros t _; now rewrite (events_not_pattern _ He)).
    pose proof (mergedEvents_valid (delta state) (deltaData state) target He None) as Hv.
    rewrite matched_events by assumption. simpl in Hv. rewrite Hv. simpl.
    right. destruct (existsb _ target); eexists; (split; [reflexivity|]).
    + unfold kindOf. now rewrite He.
    + reflexivity.
  - rewrite mergedEvents_unmatched by (intros t _; now rewrite He). simpl.
    destruct (checkIfDeltaIsPatternType (delta state)) eqn:Hp.
    + (* a pattern delta *)
      rewrite strictMerge_not_scalar.
      2:{ destruct (isScalarType (getType (delta state))) eqn:Hs; [|reflexivity].
          rewrite (scalar_not_pattern _ Hs) in Hp. discriminate. }
      simpl.
      destruct (existsb (fun t => matchesInTarget (delta state) (delta t)) target) eqn:Hm.
      * destruct (isValid _); simpl; [right|now left].
        eexists. split; [reflexivity|]. unfold kindOf. now rewrite He, Hp.
      * rewrite mergedClips_unmatched.
        2:{ intros t Ht. apply existsb_false with (x := t) in Hm; [|assumption].
            unfold matchesInTarget in Hm. apply orb_false_iff in Hm. tauto. }
        simpl. right. now exists state.
    + (* neither *)
      rewrite mergedClips_unmatched by (intros t _; now rewrite Hp). simpl.
      rewrite matched_by_type by assumption.
      destruct (strictMerge_at_most_one (delta state) target Hn)
        as [[Hnil Hno]|[x [Hx [Htype [t [Ht Hsame]]]]]].
      * rewrite Hnil. simpl. destruct (existsb _ target); [now left|].
        right. now exists state.
      * rewrite Hx. simpl.
        assert (Hfound : existsb (fun t => Identifier_eqb (getType (delta state))
                                             (getType (delta t))) target = true).
        { apply existsb_exists. exists t. split; [assumption|].
          now apply Identifier_eqb_eq. }
        rewrite Hfound. right. exists x. split; [reflexivity|].
        now apply kindOf_same_type.
Qed.

Lemma NoDup_flat_map_shape {A B K : Type} (k : A -> K) (k' : B -> K) (f : A -> list B) l :
  (forall a, f a = [] \/ exists b, f a = [b] /\ k' b = k a) ->
  NoDup (map k l) ->
  NoDup (map k' (flat_map f l))
  /\ (forall y, In y (map k' (flat_map f l)) -> In y (map k l)).
Proof.
  intros Hf. induction l as [|a l IH]; simpl; intros Hn.
  - split; [constructor|]. intros y [].
  - inversion_clear Hn as [|? ? Ha Hl]. destruct (IH Hl) as [IHn IHin].
    destruct (Hf a) as [->|[b [-> Hb]]]; simpl.
    + split; [assumption|]. intros y Hy. right. now apply IHin.
    + split.
      * constructor; [|assumption]. rewrite Hb. intros Hin. apply Ha. now apply IHin.
      * intros y [<-|Hy]; [now left|]. right. now apply IHin.
Qed.

Lemma NoDup_kinds_types (l : list DeltaDiff) :
  NoDup (map (fun x => kindOf (delta x)) l) ->
  NoDup (map (fun x => getType (delta x)) l).
Proof.
  induction l as [|x l IH]; simpl; intros Hn; [constructor|].
  inversion_clear Hn as [|? ? Hx Hl]. constructor; [|now apply IH].
  intros Hin. apply Hx. apply in_map_iff in Hin. destruct Hin as [y [Hy Hin]].
  apply in_map_iff. exists y. split; [|assumption]. now apply kindOf_same_type.
Qed.

(** X10. The merge keeps a snapshot well-formed: when the target carries at
    most one delta of each type and the state at most one delta of each kind
    (one of each scalar type, one of the events family, one of the pattern
    family), the merged item carries at most one delta of each kind, and so
    at most one of each type. *)
Theorem createMergedItem_one_delta_per_kind (target state : TrackedItem) :
  NoDup (map (fun t => getType (delta t)) target) ->
  NoDup (map (fun s => kindOf (delta s)) state) ->
  NoDup (map (fun x => kindOf (delta x)) (createMergedItem target state))
  /\ NoDup (map (fun x => getType (delta x)) (createMergedItem target state)).
Proof.
  intros Htarget Hstate.
  assert (Hkinds : NoDup (map (fun x => kindOf (delta x)) (createMergedItem target state))).
  2:{ split; [assumption|now apply NoDup_kinds_types]. }
  rewrite createMergedItem_eq, map_app.
  destruct (NoDup_flat_map_shape (fun s : DeltaDiff => kindOf (delta s))
              (fun x : DeltaDiff => kindOf (delta x)) (emitted target) state
              (fun s => emitted_shape target s Htarget) Hstate) as [Hn Hin].
  assert (Hts : existsb (fun s : DeltaDiff => hasType (delta s) timeSignaturesChanged) state
                = false ->
                ~ In (typeKind timeSignaturesChanged)
                    (map (fun s : DeltaDiff => kindOf (delta s)) state)).
  { intros He Hk. apply in_map_iff in Hk. destruct Hk as [s [Hk Hs]].
    apply existsb_false with (x := s) in He; [|assumption].
    unfold kindOf in Hk.
    destruct (checkIfDeltaIsEventsType (delta s)); [discriminate|].
    destruct (checkIfDeltaIsPatternType (delta s)); [discriminate|].
    injection Hk as Hk. unfold hasType in He. rewrite Hk, Identifier_eqb_refl in He.
    discriminate. }
  assert (Hclips : existsb (fun s : DeltaDiff => checkIfDeltaIsPatternType (delta s)) state
                   = false ->
                   ~ In clipsKind (map (fun s : DeltaDiff => kindOf (delta s)) state)).
  { intros He Hk. apply in_map_iff in Hk. destruct Hk as [s [Hk Hs]].
    apply existsb_false with (x := s) in He; [|assumption].
    unfold kindOf in Hk. rewrite He in Hk.
    destruct (checkIfDeltaIsEventsType (delta s)); discriminate. }
  unfold synthesized.
  destruct (existsb (fun s => hasType (delta s) timeSignaturesChanged) state) eqn:E1;
    destruct (existsb (fun s => checkIfDeltaIsPatternType (delta s)) state) eqn:E2;
    simpl.
  - now rewrite app_nil_r.
  - apply NoDup_app_disjoint; [assumption|repeat constructor; intros []|].
    intros y Hy [<-|[]]. apply (Hclips eq_refl). now apply Hin.
  - apply NoDup_app_disjoint; [assumption|repeat constructor; intros []|].
    intros y Hy [<-|[]]. apply (Hts eq_refl). now apply Hin.
  - apply NoDup_app_disjoint; [assumption| |].
    + constructor; [|repeat constructor; intros []]. intros [H|[]]. discriminate H.
    + intros y Hy [<-|[<-|[]]].
      * apply (Hts eq_refl). now apply Hin.
      * apply (Hclips eq_refl). now apply Hin.
Qed.

(** ** What the next reader of a merged payload finds *)

Lemma In_eventsOf_mergeAutoEventsAdded state changes e :
  In e (eventsOf (mergeAutoEventsAdded state changes)) <->
  In e (eventsOf state)
  \/ (In e (eventsOf changes) /\ ~ In (getId e) (ids (eventsOf state))).
Proof.
  rewrite mergeAutoEventsAdded_spec, In_eventsOf_sequenceTree, in_app_iff, filter_In.
  now rewrite negb_true_iff, idIn_false.
Qed.

Lemma In_eventsOf_mergeAutoEventsRemoved state changes e :
  In e (eventsOf (mergeAutoEventsRemoved state changes)) <->
  In e (eventsOf state) /\ ~ In (getId e) (ids (eventsOf changes)).
Proof.
  rewrite mergeAutoEventsRemoved_spec, In_eventsOf_sequenceTree, filter_In.
  now rewrite negb_true_iff, idIn_false.
Qed.

Lemma In_counterparts (changesEvents l : list AutomationEvent) e :
  NoDup (ids changesEvents) ->
  In e (flat_map (fun s => optionToList (counterpart changesEvents s)) l) <->
  In e changesEvents /\ In (getId e) (ids l).
Proof.
  intros Hn. rewrite in_flat_map. split.
  - intros [s [Hs Hc]].
    destruct (counterpart changesEvents s) as [c|] eqn:E; simpl in Hc; [|contradiction].
    destruct Hc as [<-|[]]. apply counterpart_Some in E. destruct E as [Hc Hid].
    split; [assumption|]. rewrite <- Hid. now apply in_map.
  - intros [He Hid]. apply in_map_iff in Hid. destruct Hid as [s [Hid Hs]].
    exists s. split; [assumption|].
    rewrite (counterpart_unique changesEvents s e); auto. now left.
Qed.

Lemma In_eventsOf_mergeAutoEventsChanged state changes e :
  NoDup (ids (eventsOf state)) ->
  NoDup (ids (eventsOf changes)) ->
  In e (eventsOf (mergeAutoEventsChanged state changes)) <->
  (In e (eventsOf state) /\ ~ In (getId e) (ids (eventsOf changes)))
  \/ (In e (eventsOf changes) /\ In (getId e) (ids (eventsOf state))).
Proof.
  intros HS HC.
  rewrite mergeAutoEventsChanged_spec by assumption.
  rewrite In_eventsOf_sequenceTree, in_app_iff, filter_In, In_counterparts by assumption.
  now rewrite negb_true_iff, idIn_false.
Qed.

Lemma NoDup_ids_Permutation (l l' : list AutomationEvent) :
  Permutation l l' -> NoDup (ids l) -> NoDup (ids l').
Proof.
  intros Hp. apply Permutation_NoDup. unfold ids. now apply Permutation_map.
Qed.

Lemma NoDup_ids_eventsOf_sequenceTree tag (events : list AutomationEvent) :
  NoDup (ids events) -> NoDup (ids (eventsOf (sequenceTree tag events))).
Proof.
  apply NoDup_ids_Permutation. symmetry. apply eventsOf_sequenceTree.
Qed.

Lemma NoDup_ids_mergeAutoEventsAdded state changes :
  NoDup (ids (eventsOf state)) ->
  NoDup (ids (eventsOf changes)) ->
  NoDup (ids (eventsOf (mergeAutoEventsAdded state changes))).
Proof.
  intros HS HC. rewrite mergeAutoEventsAdded_spec.
  apply NoDup_ids_eventsOf_sequenceTree, NoDup_ids_app;
    [assumption|now apply NoDup_ids_filter|].
  intros e He. apply filter_In in He. destruct He as [_ He].
  now apply negb_true_iff, idIn_false in He.
Qed.

Lemma NoDup_ids_mergeAutoEventsRemoved state changes :
  NoDup (ids (eventsOf state)) ->
  NoDup (ids (eventsOf (mergeAutoEventsRemoved state changes))).
Proof.
  intros HS. rewrite mergeAutoEventsRemoved_spec.
  now apply NoDup_ids_eventsOf_sequenceTree, NoDup_ids_filter.
Qed.

Lemma NoDup_ids_mergeAutoEventsChanged state changes :
  NoDup (ids (eventsOf state)) ->
  NoDup (ids (eventsOf (mergeAutoEventsChanged state changes))).
Proof.
  intros HS. rewrite mergeAutoEventsChanged_spec by assumption.
  apply NoDup_ids_eventsOf_sequenceTree.
  apply (Permutation_NoDup (l := ids (eventsOf state))); [|assumption].
  symmetry. unfold ids at 1. rewrite map_app.
  fold (ids (filter (fun e => negb (idIn (eventsOf changes) e)) (eventsOf state))).
  fold (ids (flat_map (fun e => optionToList (counterpart (eventsOf changes) e))
               (eventsOf state))).
  rewrite ids_counterparts. unfold ids. rewrite <- map_app.
  apply Permutation_map, Permutation_partition.
Qed.

(** X11. Ids stay unique through the merges: when no two records of the
    state share an id, and for the added-merge no two records of the changes
    either, no two records that the next reader finds in the merged payload
    share one. *)
Theorem merges_keep_ids_unique state changes :
  NoDup (ids (eventsOf state)) ->
  (NoDup (ids (eventsOf changes)) ->
   NoDup (ids (eventsOf (mergeAutoEventsAdded state changes))))
  /\ NoDup (ids (eventsOf (mergeAutoEventsRemoved state changes)))
  /\ NoDup (ids (eventsOf (mergeAutoEventsChanged state changes))).
Proof.
  intros HS. split; [|split].
  - now apply NoDup_ids_mergeAutoEventsAdded.
  - now apply NoDup_ids_mergeAutoEventsRemoved.
  - now apply NoDup_ids_mergeAutoEventsChanged.
Qed.

(** ** A diff merged back *)

Lemma mergedEvents_added_group stateDelta stateDeltaData description
    (events : list AutomationEvent) eventsData :
  checkIfDeltaIsEventsType stateDelta = true ->
  fold_left (mergedEvents stateDelta stateDeltaData)
    (deltaGroup description eventsAdded events) eventsData
  = match events with
    | [] => eventsData
    | _ :: _ => mergeAutoEventsAdded (mergeBase stateDeltaData eventsData)
                  (sequenceTree eventsAdded events)
    end.
Proof.
  intros Hs. destruct events as [|e l]; [reflexivity|].
  cbn [deltaGroup fold_left]. unfold mergedEvents. now rewrite Hs.
Qed.

Lemma mergedEvents_removed_group stateDelta stateDeltaData description
    (events : list AutomationEvent) eventsData :
  checkIfDeltaIsEventsType stateDelta = true ->
  fold_left (mergedEvents stateDelta stateDeltaData)
    (deltaGroup description eventsRemoved events) eventsData
  = match events with
    | [] => eventsData
    | _ :: _ => mergeAutoEventsRemoved (mergeBase stateDeltaData eventsData)
                  (sequenceTree eventsRemoved events)
    end.
Proof.
  intros Hs. destruct events as [|e l]; [reflexivity|].
  cbn [deltaGroup fold_left]. unfold mergedEvents. now rewrite Hs.
Qed.

Lemma mergedEvents_changed_group stateDelta stateDeltaData description
    (events : list AutomationEvent) eventsData :
  checkIfDeltaIsEventsType stateDelta = true ->
  fold_left (mergedEvents stateDelta stateDeltaData)
    (deltaGroup description eventsChanged events) eventsData
  = match events with
    | [] => eventsData
    | _ :: _ => mergeAutoEventsChanged (mergeBase stateDeltaData eventsData)
                  (sequenceTree eventsChanged events)
    end.
Proof.
  intros Hs. destruct events as [|e l]; [reflexivity|].
  cbn [deltaGroup fold_left]. unfold mergedEvents. now rewrite Hs.
Qed.

Lemma mergeBase_valid (stateDeltaData eventsData : SerializedData) :
  isValid eventsData = true -> mergeBase stateDeltaData eventsData = eventsData.
Proof. unfold mergeBase. now intros ->. Qed.

Lemma added_stage stateDeltaData eventsData (events : list AutomationEvent) :
  let base := mergeBase stateDeltaData eventsData in
  let next :=
    mergeBase stateDeltaData
      match events with
      | [] => eventsData
      | _ :: _ => mergeAutoEventsAdded base (sequenceTree eventsAdded events)
      end in
  (forall e, In e (eventsOf next) <->
             In e (eventsOf base)
             \/ (In e events /\ ~ In (getId e) (ids (eventsOf base))))
  /\ (NoDup (ids (eventsOf base)) -> NoDup (ids events) -> NoDup (ids (eventsOf next))).
Proof.
  intros base next. subst next. destruct events as [|a l].
  - fold base. split; [|tauto]. intros e. simpl. tauto.
  - rewrite mergeBase_valid by apply isValid_mergeAutoEventsAdded. split.
    + intros e. now rewrite In_eventsOf_mergeAutoEventsAdded, In_eventsOf_sequenceTree.
    + intros Hb Hl. apply NoDup_ids_mergeAutoEventsAdded; [assumption|].
      now apply NoDup_ids_eventsOf_sequenceTree.
Qed.

Lemma removed_stage stateDeltaData eventsData (events : list AutomationEvent) :
  let base := mergeBase stateDeltaData eventsData in
  let next :=
    mergeBase stateDeltaData
      match events with
      | [] => eventsData
      | _ :: _ => mergeAutoEventsRemoved base (sequenceTree eventsRemoved events)
      end in
  (forall e, In e (eventsOf next) <->
             In e (eventsOf base) /\ ~ In (getId e) (ids events))
  /\ (NoDup (ids (eventsOf base)) -> NoDup (ids (eventsOf next))).
Proof.
  intros base next. subst next. destruct events as [|a l].
  - fold base. split; [|tauto]. intros e. simpl. tauto.
  - rewrite mergeBase_valid by apply isValid_mergeAutoEventsRemoved. split.
    + intros e.
      now rewrite In_eventsOf_mergeAutoEventsRemoved, In_ids_eventsOf_sequenceTree.
    + apply NoDup_ids_mergeAutoEventsRemoved.
Qed.

Lemma changed_stage stateDeltaData eventsData (events : list AutomationEvent) :
  let base := mergeBase stateDeltaData eventsData in
  let next :=
    mergeBase stateDeltaData
      match events with
      | [] => eventsData
      | _ :: _ => mergeAutoEventsChanged base (sequenceTree eventsChanged events)
      end in
  NoDup (ids (eventsOf base)) ->
  NoDup (ids events) ->
  (forall e, In e (eventsOf next) <->
             (In e (eventsOf base) /\ ~ In (getId e) (ids events))
             \/ (In e events /\ In (getId e) (ids (eventsOf base))))
  /\ NoDup (ids (eventsOf next)).
Proof.
  intros base next Hb Hl. subst next. destruct events as [|a l].
  - fold base. split; [|assumption]. intros e. simpl. tauto.
  - rewrite mergeBase_valid by apply isValid_mergeAutoEventsChanged. split.
    + intros e. rewrite In_eventsOf_mergeAutoEventsChanged;
        [|assumption|now apply NoDup_ids_eventsOf_sequenceTree].
      now rewrite In_eventsOf_sequenceTree, In_ids_eventsOf_sequenceTree.
    + now apply NoDup_ids_mergeAutoEventsChanged.
Qed.

Lemma emitted_events (target : TrackedItem) (state : DeltaDiff) :
  checkIfDeltaIsEventsType (delta state) = true ->
  exists x,
    emitted target state = [x]
    /\ isEventsFamily (delta x) = true
    /\ deltaData x
       = mergeBase (deltaData state)
           (fold_left (mergedEvents (delta state) (deltaData state)) target None).
Proof.
  intros He. unfold emitted.
  rewrite strictMerge_not_scalar.
  2:{ destruct (isScalarType (getType (delta state))) eqn:Hs; [|reflexivity].
      rewrite (scalar_not_events _ Hs) in He. discriminate. }
  rewrite mergedClips_unmatched by (intros t _; now rewrite (events_not_pattern _ He)).
  pose proof (mergedEvents_valid (delta state) (deltaData state) target He None) as Hv.
  rewrite matched_events by assumption. simpl in Hv. unfold mergeBase. rewrite Hv. simpl.
  destruct (existsb _ target); eexists; (split; [reflexivity|]); split;
    try reflexivity; assumption.
Qed.

Lemma NoDup_of_ids (l : list AutomationEvent) : NoDup (ids l) -> NoDup l.
Proof. apply NoDup_map_inv. Qed.

Lemma In_ids (l : list AutomationEvent) i :
  In i (ids l) <-> exists e, In e l /\ getId e = i.
Proof.
  unfold ids. rewrite in_map_iff. split; intros [e [H1 H2]]; exists e; tauto.
Qed.

Section RoundTrip.

Hypothesis float_eqb_spec : forall a b : float, float_eqb a b = true <-> a = b.

Lemma diff_groups_merged (S C B1 B2 L : list AutomationEvent) :
  NoDup (ids S) -> NoDup (ids C) ->
  (forall e, In e B1 <->
             In e S
             \/ (In e (filter (fun c => negb (idIn S c)) C) /\ ~ In (getId e) (ids S))) ->
  (forall e, In e B2 <->
             In e B1 /\ ~ In (getId e) (ids (filter (fun s => negb (idIn C s)) S))) ->
  (forall e, In e L <->
             (In e B2 /\ ~ In (getId e) (ids (flat_map (changedCounterpart C) S)))
             \/ (In e (flat_map (changedCounterpart C) S) /\ In (getId e) (ids B2))) ->
  forall e, In e L <-> In e C.
Proof.
  intros HS HC HB1 HB2 HL0 e.
  assert (HL : forall e, In e L <->
     ((In e S \/ (In e (filter (fun c => negb (idIn S c)) C) /\ ~ In (getId e) (ids S)))
      /\ ~ In (getId e) (ids (filter (fun s => negb (idIn C s)) S)))
     /\ ~ In (getId e) (ids (flat_map (changedCounterpart C) S))
     \/ (In e (flat_map (changedCounterpart C) S)
         /\ exists b, ((In b S \/ (In b (filter (fun c => negb (idIn S c)) C)
                                   /\ ~ In (getId b) (ids S)))
                       /\ ~ In (getId b) (ids (filter (fun s => negb (idIn C s)) S)))
                      /\ getId b = getId e)).
  { intros x. rewrite HL0. split.
    - intros [[H1 H2]|[H1 H2]].
      + left. split; [|assumption]. apply HB2 in H1. now rewrite HB1 in H1.
      + right. split; [assumption|]. apply In_ids in H2. destruct H2 as [b [Hb Hid]].
        exists b. split; [|assumption]. apply HB2 in Hb. now rewrite HB1 in Hb.
    - intros [[H1 H2]|[H1 [b [Hb Hid]]]].
      + left. split; [|assumption]. apply HB2. now rewrite HB1.
      + right. split; [assumption|]. apply In_ids. exists b. split; [|assumption].
        apply HB2. now rewrite HB1. }
  clear HL0 HB1 HB2.
  assert (HA : forall a, In a (filter (fun c => negb (idIn S c)) C) <->
                         In a C /\ ~ In (getId a) (ids S)).
  { intros a. rewrite filter_In, negb_true_iff, idIn_false. tauto. }
  assert (HR : forall r, In r (filter (fun s => negb (idIn C s)) S) <->
                         In r S /\ ~ In (getId r) (ids C)).
  { intros r. rewrite filter_In, negb_true_iff, idIn_false. tauto. }
  assert (HCh : forall c, In c (flat_map (changedCounterpart C) S) <->
                          In c C /\ exists s, In s S /\ getId s = getId c
                                              /\ eventHasChanged s c = true).
  { intros c. now apply changedCounterpart_In. }
  assert (HidR : forall x, In x S -> In (getId x) (ids C) ->
                           ~ In (getId x) (ids (filter (fun s => negb (idIn C s)) S))).
  { intros x Hx Hid Hin. apply In_ids in Hin. destruct Hin as [r [Hr Hsame]].
    apply HR in Hr. destruct Hr as [_ Hr]. apply Hr. now rewrite Hsame. }
  rewrite HL. clear HL. split.
  - intros [[[[He|[He _]] HnR] HnCh]|[He _]].
    + (* a record of the state that was neither removed nor changed *)
      destruct (in_dec Z.eq_dec (getId e) (ids C)) as [Hid|Hid].
      * apply In_ids in Hid. destruct Hid as [c [Hc Hsame]].
        destruct (eventHasChanged e c) eqn:Hchanged.
        -- exfalso. apply HnCh. apply In_ids. exists c. split; [|assumption].
           apply HCh. split; [assumption|]. exists e. auto.
        -- now rewrite (eventHasChanged_false float_eqb_spec e c (eq_sym Hsame) Hchanged).
      * exfalso. apply HnR. apply In_ids. exists e. split; [|reflexivity].
        apply HR. now split.
    + now apply HA in He.
    + now apply HCh in He.
  - intros He. destruct (in_dec Z.eq_dec (getId e) (ids S)) as [Hid|Hid].
    + apply In_ids in Hid. destruct Hid as [s [Hs Hsame]].
      assert (HsC : In (getId s) (ids C)) by (rewrite Hsame; now apply in_map).
      destruct (eventHasChanged s e) eqn:Hchanged.
      * right. split.
        -- apply HCh. split; [assumption|]. exists s. auto.
        -- exists s. split; [|assumption]. split; [now left|]. now apply HidR.
      * left. rewrite <- (eventHasChanged_false float_eqb_spec s e Hsame Hchanged).
        split; [split; [now left|now apply HidR]|].
        intros Hin. apply In_ids in Hin. destruct Hin as [c [Hc Hcs]].
        apply HCh in Hc. destruct Hc as [Hc [s' [Hs' [Hs'c Hch']]]].
        assert (c = e) by (apply (same_id C); auto; congruence). subst c.
        assert (s' = s) by (apply (same_id S); auto; congruence). subst s'.
        congruence.
    + left. split; [split|].
      * right. split; [|assumption]. apply HA. now split.
      * intros Hin. apply In_ids in Hin. destruct Hin as [r [Hr Hsame]].
        apply HR in Hr. destruct Hr as [Hr _]. apply Hid. rewrite <- Hsame.
        now apply in_map.
      * intros Hin. apply In_ids in Hin. destruct Hin as [c [Hc Hsame]].
        apply HCh in Hc. destruct Hc as [_ [s [Hs [Hsc _]]]]. apply Hid.
        rewrite <- Hsame, <- Hsc. now apply in_map.
Qed.

Lemma NoDup_ids_changedCounterparts (S C : list AutomationEvent) :
  NoDup (ids S) -> NoDup (ids (flat_map (changedCounterpart C) S)).
Proof.
  intros HS.
  apply (NoDup_flat_map_shape getId getId (changedCounterpart C) S); [|exact HS].
  intros s. unfold changedCounterpart.
  destruct (counterpart C s) as [c|] eqn:E; [|now left].
  destruct (eventHasChanged s c); [|now left].
  right. exists c. split; [reflexivity|]. apply counterpart_Some in E. now symmetry.
Qed.

(** X12. A diff merged back gives the changes: when [==] on floats is
    equality and ids are unique within each sequence, merging the deltas
    that [createAutoEventsDiffs] makes of a state and of changes into an item
    that carries the state's events gives an item with one events delta,
    whose payload holds the records of the changes, each once. *)
Theorem createAutoEventsDiffs_merged_back stateDelta stateData changesData :
  checkIfDeltaIsEventsType stateDelta = true ->
  NoDup (ids (eventsOf stateData)) ->
  NoDup (ids (eventsOf changesData)) ->
  exists x,
    In x (createMergedItem (createAutoEventsDiffs stateData changesData)
            [mkDeltaDiff stateDelta stateData])
    /\ isEventsFamily (delta x) = true
    /\ (forall y,
          In y (createMergedItem (createAutoEventsDiffs stateData changesData)
                  [mkDeltaDiff stateDelta stateData]) ->
          isEventsFamily (delta y) = true -> y = x)
    /\ Permutation (eventsOf (deltaData x)) (eventsOf changesData).
Proof.
  intros He HS HC.
  set (diffs := createAutoEventsDiffs stateData changesData).
  destruct (emitted_events diffs (mkDeltaDiff stateDelta stateData) He)
    as [x [Hem [Hfam Hdata]]].
  assert (Hitem : createMergedItem diffs [mkDeltaDiff stateDelta stateData]
                  = x :: synthesized diffs [mkDeltaDiff stateDelta stateData]).
  { rewrite createMergedItem_eq. simpl. now rewrite Hem. }
  rewrite Hitem. exists x. split; [now left|]. split; [assumption|]. split.
  - intros y [<-|Hy] Hyfam; [reflexivity|].
    apply synthesized_In in Hy. destruct Hy as [[-> _]|[-> _]]; discriminate Hyfam.
  - cbn [delta deltaData] in Hdata. rewrite Hdata. unfold diffs.
    rewrite createAutoEventsDiffs_spec, !fold_left_app.
    rewrite mergedEvents_added_group, mergedEvents_removed_group,
      mergedEvents_changed_group by assumption.
    set (S := eventsOf stateData) in *. set (C := eventsOf changesData) in *.
    set (A := filter (fun c => negb (idIn S c)) C).
    set (R := filter (fun s => negb (idIn C s)) S).
    set (Ch := flat_map (changedCounterpart C) S).
    set (E1 := match A with
               | [] => None
               | _ :: _ => mergeAutoEventsAdded (mergeBase stateData None)
                             (sequenceTree eventsAdded A)
               end).
    set (E2 := match R with
               | [] => E1
               | _ :: _ => mergeAutoEventsRemoved (mergeBase stateData E1)
                             (sequenceTree eventsRemoved R)
               end).
    destruct (added_stage stateData None A) as [HB1 HN1].
    destruct (removed_stage stateData E1 R) as [HB2 HN2].
    fold E1 in HB1, HN1. fold E2 in HB2, HN2.
    change (eventsOf (mergeBase stateData None)) with S in HB1, HN1.
    assert (HnA : NoDup (ids A)) by now apply NoDup_ids_filter.
    assert (HnCh : NoDup (ids Ch)) by now apply NoDup_ids_changedCounterparts.
    specialize (HN1 HS HnA). specialize (HN2 HN1).
    destruct (changed_stage stateData E2 Ch HN2 HnCh) as [HL HN3].
    apply NoDup_Permutation.
    + now apply NoDup_of_ids.
    + now apply NoDup_of_ids.
    + apply (diff_groups_merged S C _ _ _ HS HC HB1 HB2 HL).
Qed.

End RoundTrip.

(** ** An addition taken back *)

Lemma Permutation_filter {A : Type} (f : A -> bool) (l l' : list A) :
  Permutation l l' -> Permutation (filter f l) (filter f l').
Proof.
  induction 1 as [|x l l' H IH|x y l|l l' l'' H1 IH1 H2 IH2]; simpl.
  - constructor.
  - destruct (f x); [now constructor|assumption].
  - destruct (f x), (f y); try reflexivity. apply perm_swap.
  - now transitivity (filter f l').
Qed.

(** X13. Removing with the changes that were just added takes them back:
    the payload lists the same records as the removed-merge of the state
    alone, which are the records of the state when the changes share no id
    with it. *)
Theorem mergeAutoEventsRemoved_after_added state changes :
  Permutation
    (listedEvents (mergeAutoEventsRemoved (mergeAutoEventsAdded state changes) changes))
    (listedEvents (mergeAutoEventsRemoved state changes))
  /\ ((forall e, In e (eventsOf state) -> ~ In (getId e) (ids (eventsOf changes))) ->
      Permutation
        (listedEvents (mergeAutoEventsRemoved (mergeAutoEventsAdded state changes) changes))
        (eventsOf state)).
Proof.
  assert (Hfirst : Permutation
            (listedEvents
               (mergeAutoEventsRemoved (mergeAutoEventsAdded state changes) changes))
            (listedEvents (mergeAutoEventsRemoved state changes))).
  { rewrite !mergeAutoEventsRemoved_spec, !listedEvents_sequenceTree.
    rewrite mergeAutoEventsAdded_spec.
    rewrite (Permutation_filter _ _ _ (eventsOf_sequenceTree eventsAdded _)).
    rewrite filter_app.
    rewrite (filter_none _
               (filter (fun c => negb (idIn (eventsOf state) c)) (eventsOf changes))).
    - now rewrite app_nil_r.
    - intros c Hc. apply filter_In in Hc. destruct Hc as [Hc _].
      apply negb_false_iff, idIn_spec. now apply in_map. }
  split; [exact Hfirst|].
  intros Hdisjoint. rewrite Hfirst.
  rewrite mergeAutoEventsRemoved_spec, listedEvents_sequenceTree.
  rewrite filter_all; [reflexivity|].
  intros s Hs. apply negb_true_iff, idIn_false. now apply Hdisjoint.
Qed.

(** ** createDiff *)

Section DiffProofs.

Context {trackDiffs : @TrackDiffs float}.

Local Abbreviation TargetDelta := (@TargetDelta float) (only parsing).

Lemma applyDeltaDiff_eq (diff : Diff) (d : DeltaDiff) : applyDeltaDiff diff d = diff ++ [d].
Proof. unfold applyDeltaDiff, applyDelta. now destruct d. Qed.

Lemma applyDeltas_eq (l : list DeltaDiff) : forall diff : Diff, applyDeltas diff l = diff ++ l.
Proof.
  unfold applyDeltas. induction l as [|d l IH]; intros diff; simpl.
  - now rewrite app_nil_r.
  - now rewrite IH, applyDeltaDiff_eq, <- app_assoc.
Qed.

Lemma diffTargetDelta_appends (initialState : TrackedItem) (diff : Diff) (my : TargetDelta) :
  diffTargetDelta initialState diff my = diff ++ diffTargetDelta initialState [] my.
Proof.
  unfold diffTargetDelta.
  destruct (findInState (delta (targetDelta my)) initialState) as [s|];
    (destruct (_ || _); [|now rewrite app_nil_r]);
    repeat (match goal with
            | |- context [if ?b then _ else _] => destruct b
            end);
    rewrite ?applyDeltaDiff_eq, ?applyDeltas_eq, ?app_nil_r; reflexivity.
Qed.

Lemma createDiff_loop (initialState : TrackedItem) (target : list TargetDelta) :
  forall diff : Diff,
    fold_left (diffTargetDelta initialState) target diff
    = diff ++ flat_map (diffTargetDelta initialState []) target.
Proof.
  induction target as [|my target IH]; intros diff; simpl.
  - now rewrite app_nil_r.
  - now rewrite IH, diffTargetDelta_appends, <- app_assoc.
Qed.

Lemma createDiff_eq (target : list TargetDelta) (initialState : TrackedItem) :
  createDiff target initialState
  = flat_map (diffTargetDelta initialState []) target.
Proof. unfold createDiff. now rewrite createDiff_loop. Qed.

Lemma diffTargetDelta_unchanged (initialState : TrackedItem) (my : TargetDelta) :
  match findInState (delta (targetDelta my)) initialState with
  | Some stateDelta =>
      isEquivalentTo (deltaData (targetDelta my)) (deltaData stateDelta) = true
  | None => deltaHasDefaultData my = true
  end ->
  diffTargetDelta initialState [] my = [].
Proof.
  unfold diffTargetDelta.
  destruct (findInState (delta (targetDelta my)) initialState) as [s|]; intros H;
    now rewrite H.
Qed.

(** X14. The diff of an item is empty when each of its deltas is either in
    the state, first of its type, with equivalent data, or not in the state
    and at its default: a delta at its default that the state lacks makes no
    diff, whatever its type. *)
Theorem createDiff_unchanged (target : list TargetDelta) (initialState : TrackedItem) :
  (forall my, In my target ->
     match findInState (delta (targetDelta my)) initialState with
     | Some stateDelta =>
         isEquivalentTo (deltaData (targetDelta my)) (deltaData stateDelta) = true
     | None => deltaHasDefaultData my = true
     end) ->
  createDiff target initialState = [].
Proof.
  intros H. rewrite createDiff_eq. apply flat_map_nil. intros my Hmy.
  now apply diffTargetDelta_unchanged, H.
Qed.

Lemma findInState_own (item : list TargetDelta) (my : TargetDelta) :
  NoDup (map (fun t => getType (delta (targetDelta t))) item) ->
  In my item ->
  findInState (delta (targetDelta my)) (map targetDelta item) = Some (targetDelta my).
Proof.
  unfold findInState. induction item as [|t item IH]; simpl; intros Hn Hin; [contradiction|].
  inversion_clear Hn as [|? ? Ht Hrest]. destruct Hin as [->|Hin].
  - now rewrite Identifier_eqb_refl.
  - destruct (Identifier_eqb (getType (delta (targetDelta my)))
                (getType (delta (targetDelta t)))) eqn:E.
    + apply Identifier_eqb_eq in E. exfalso. apply Ht. rewrite <- E.
      now apply (in_map (fun t => getType (delta (targetDelta t)))).
    + now apply IH.
Qed.

(** X15. An item diffed against itself gives no delta, provided that it
    carries at most one delta of each type and that each of its payloads is
    equivalent to itself. *)
Theorem createDiff_of_itself (item : list TargetDelta) :
  NoDup (map (fun t => getType (delta (targetDelta t))) item) ->
  (forall my, In my item ->
     isEquivalentTo (deltaData (targetDelta my)) (deltaData (targetDelta my)) = true) ->
  createDiff item (map targetDelta item) = [].
Proof.
  intros Hn Hrefl. rewrite createDiff_eq. apply flat_map_nil. intros my Hmy.
  apply diffTargetDelta_unchanged. rewrite (findInState_own item my Hn Hmy).
  now apply Hrefl.
Qed.

Lemma diffTargetDelta_not_diffed (initialState : TrackedItem) (my : TargetDelta) :
  isDiffedType (getType (delta (targetDelta my))) = false ->
  diffTargetDelta initialState [] my = [].
Proof.
  unfold diffTargetDelta, hasType.
  destruct (findInState (delta (targetDelta my)) initialState) as [s|];
    (destruct (_ || _); [|reflexivity]);
    destruct (getType (delta (targetDelta my))); simpl; intros Hout;
    try reflexivity; discriminate.
Qed.

(** X16. [createDiff] looks at seven delta types only.  A delta of the
    target of another type, be it one of removed or changed events or clips
    or a type of a later version, makes no diff: the diff of an item is the
    diff of its deltas of those seven types, and is empty when it has none. *)
Theorem createDiff_ignores_other_types (target : list TargetDelta) (initialState : TrackedItem) :
  createDiff target initialState
  = createDiff
      (filter (fun my => isDiffedType (getType (delta (targetDelta my)))) target)
      initialState
  /\ ((forall my, In my target ->
        isDiffedType (getType (delta (targetDelta my))) = false) ->
      createDiff target initialState = []).
Proof.
  split.
  - rewrite !createDiff_eq. induction target as [|my target IH]; [reflexivity|].
    cbn [filter flat_map].
    destruct (isDiffedType (getType (delta (targetDelta my)))) eqn:E; cbn [flat_map].
    + now rewrite IH.
    + now rewrite diffTargetDelta_not_diffed.
  - intros H. rewrite createDiff_eq. apply flat_map_nil. intros my Hmy.
    now apply diffTargetDelta_not_diffed, H.
Qed.

Lemma diffTargetDelta_events (initialState : TrackedItem) (my : TargetDelta) :
  hasType (delta (targetDelta my)) eventsAdded = true ->
  diffTargetDelta initialState [] my
  = match findInState (delta (targetDelta my)) initialState with
    | Some stateDelta =>
        if isEquivalentTo (deltaData (targetDelta my)) (deltaData stateDelta) then []
        else createAutoEventsDiffs (deltaData stateDelta) (deltaData (targetDelta my))
    | None =>
        if deltaHasDefaultData my then []
        else createAutoEventsDiffs None (deltaData (targetDelta my))
    end.
Proof.
  intros Ht. unfold diffTargetDelta.
  assert (Htype : getType (delta (targetDelta my)) = eventsAdded)
    by now apply Identifier_eqb_eq.
  unfold hasType. rewrite Htype. simpl.
  destruct (findInState (delta (targetDelta my)) initialState) as [s|]; simpl.
  - destruct (isEquivalentTo _ _); simpl; [reflexivity|]. now rewrite applyDeltas_eq.
  - destruct (deltaHasDefaultData my); simpl; [reflexivity|]. now rewrite applyDeltas_eq.
Qed.

(** X17. The events of an item are diffed against the first added-events
    delta of the state: when the data are not equivalent, the diff of the
    item holds the deltas of [createAutoEventsDiffs] of the two payloads;
    when the state has no such delta and the target's is not at its default,
    it holds one added group with all the events of the target, or none when
    the target has no event. *)
Theorem createDiff_events (target : list TargetDelta) (initialState : TrackedItem)
    (my : TargetDelta) :
  In my target ->
  hasType (delta (targetDelta my)) eventsAdded = true ->
  (forall stateDelta,
     findInState (delta (targetDelta my)) initialState = Some stateDelta ->
     isEquivalentTo (deltaData (targetDelta my)) (deltaData stateDelta) = false ->
     incl (createAutoEventsDiffs (deltaData stateDelta) (deltaData (targetDelta my)))
          (createDiff target initialState))
  /\ (findInState (delta (targetDelta my)) initialState = None ->
      deltaHasDefaultData my = false ->
      incl (deltaGroup "added {x} events" eventsAdded
              (eventsOf (deltaData (targetDelta my))))
           (createDiff target initialState)).
Proof.
  intros Hmy Ht. rewrite createDiff_eq. split.
  - intros s Hfound Hchanged d Hd. apply in_flat_map. exists my. split; [assumption|].
    now rewrite (diffTargetDelta_events _ _ Ht), Hfound, Hchanged.
  - intros Hnone Hdefault d Hd. apply in_flat_map. exists my. split; [assumption|].
    rewrite (diffTargetDelta_events _ _ Ht), Hnone, Hdefault.
    now rewrite (createAutoEventsDiffs_no_state None (deltaData (targetDelta my)) eq_refl).
Qed.

Lemma diffTargetDelta_changed (initialState : TrackedItem) (my : TargetDelta)
    (stateDeltaData : SerializedData) :
  (exists stateDelta,
     findInState (delta (targetDelta my)) initialState = Some stateDelta
     /\ deltaData stateDelta = stateDeltaData
     /\ isEquivalentTo (deltaData (targetDelta my)) stateDeltaData = false)
  \/ (findInState (delta (targetDelta my)) initialState = None
      /\ stateDeltaData = None
      /\ deltaHasDefaultData my = false) ->
  diffTargetDelta initialState [] my
  = let myDelta := delta (targetDelta my) in
    let myDeltaData := deltaData (targetDelta my) in
    if hasType myDelta trackPath
    then [createPathDiff stateDeltaData myDeltaData]
    else if hasType myDelta trackColour
    then [createColourDiff stateDeltaData myDeltaData]
    else if hasType myDelta trackInstrument
    then [createInstrumentDiff stateDeltaData myDeltaData]
    else if hasType myDelta timeSignaturesChanged
    then [createTimeSignatureDiff stateDeltaData myDeltaData]
    else if hasType myDelta trackController
    then [createAutoTrackControllerDiff stateDeltaData myDeltaData]
    else if hasType myDelta eventsAdded
    then createAutoEventsDiffs stateDeltaData myDeltaData
    else if hasType myDelta clipsAdded
    then createClipsDiffs stateDeltaData myDeltaData
    else [].
Proof.
  unfold diffTargetDelta.
  intros [[s [Hfound [Hdata Hchanged]]]|[Hnone [Hdata Hdefault]]].
  - rewrite Hfound, Hdata, Hchanged. simpl.
    repeat (match goal with
            | |- context [if ?b then _ else _] => destruct b
            end);
      rewrite ?applyDeltaDiff_eq, ?applyDeltas_eq; reflexivity.
  - rewrite Hnone, Hdata, Hdefault. simpl.
    repeat (match goal with
            | |- context [if ?b then _ else _] => destruct b
            end);
      rewrite ?applyDeltaDiff_eq, ?applyDeltas_eq; reflexivity.
Qed.

(** X18. A delta of the target that has changed, because its data are not
    equivalent to those of the first delta of its type in the state, or
    because the state has no delta of its type and it is not at its default,
    reaches the diff through the function of its type, which is given the
    state's data (invalid when the state has none) and the target's data.
    For the controller this is one delta described as "controller changed"
    that carries the target's data, whatever the state held. *)
Theorem createDiff_changed_scalars (target : list TargetDelta) (initialState : TrackedItem)
    (my : TargetDelta) (stateDeltaData : SerializedData) :
  In my target ->
  (exists stateDelta,
     findInState (delta (targetDelta my)) initialState = Some stateDelta
     /\ deltaData stateDelta = stateDeltaData
     /\ isEquivalentTo (deltaData (targetDelta my)) stateDeltaData = false)
  \/ (findInState (delta (targetDelta my)) initialState = None
      /\ stateDeltaData = None
      /\ deltaHasDefaultData my = false) ->
  let myDelta := delta (targetDelta my) in
  let myDeltaData := deltaData (targetDelta my) in
  (getType myDelta = trackPath ->
   In (createPathDiff stateDeltaData myDeltaData) (createDiff target initialState))
  /\ (getType myDelta = trackColour ->
      In (createColourDiff stateDeltaData myDeltaData) (createDiff target initialState))
  /\ (getType myDelta = trackInstrument ->
      In (createInstrumentDiff stateDeltaData myDeltaData) (createDiff target initialState))
  /\ (getType myDelta = timeSignaturesChanged ->
      In (createTimeSignatureDiff stateDeltaData myDeltaData)
         (createDiff target initialState))
  /\ (getType myDelta = trackController ->
      In (mkDeltaDiff
            (mkDelta (mkDeltaDescription "controller changed" None) trackController)
            myDeltaData)
         (createDiff target initialState))
  /\ (getType myDelta = clipsAdded ->
      incl (createClipsDiffs stateDeltaData myDeltaData) (createDiff target initialState)).
Proof.
  intros Hmy Hchanged myDelta myDeltaData. rewrite createDiff_eq.
  pose proof (diffTargetDelta_changed initialState my stateDeltaData Hchanged) as Hdiff.
  cbv zeta in Hdiff. fold myDelta myDeltaData in Hdiff. unfold hasType in Hdiff.
  repeat split; intros Htype; rewrite Htype in Hdiff; simpl in Hdiff;
    try (apply in_flat_map; exists my; split; [assumption|]; rewrite Hdiff; now left).
  intros d Hd. apply in_flat_map. exists my. split; [assumption|]. now rewrite Hdiff.
Qed.

End DiffProofs.

End Proofs.

(** * The claims at concrete snapshots *)

Import Examples.

#[local] Existing Instance Z_FloatOps.
#[local] Existing Instance clipsById.

Ltac distinct_ids :=
  vm_compute; repeat (constructor; [simpl; intuition discriminate|]); constructor.

Ltac not_sorted H :=
  vm_compute in H;
  repeat match goal with
         | H : StronglySorted _ (_ :: _) |- _ => inversion_clear H
         | H : Forall _ (_ :: _) |- _ => inversion_clear H
         end;
  discriminate.

Lemma Z_ltb_asym (a b : Z) : (a <? b) = true -> (b <? a) = false.
Proof. intros H. apply Z.ltb_lt in H. apply Z.ltb_ge. lia. Defined.

Lemma Z_ltb_trans (a b c : Z) : (a <? b) = true -> (b <? c) = true -> (a <? c) = true.
Proof. intros H1 H2. apply Z.ltb_lt in H1, H2. apply Z.ltb_lt. lia. Defined.

Lemma Z_ltb_incomparable (a b c : Z) :
  (a <? b) = false -> (b <? c) = false -> (a <? c) = false.
Proof. intros H1 H2. apply Z.ltb_ge in H1, H2. apply Z.ltb_ge. lia. Defined.

(** C1. With unique ids within the state sequence and within the changes
    sequence, the added-merge is the union keyed by id: the payload is one
    tree tagged [eventsAdded] that lists all of the state's records, then
    exactly the changes records whose id the state does not have; each id of
    either side occurs once, and a record whose id the state has is the
    state's copy.  The records of a side are those its payload lists, each
    as many times.  On the example of the spec's collection diff, the state
    with the events 1 and 2 and the changes with another event 2 and the
    event 3, the payload lists the state's events 1 and 2, then the event
    3. *)
Theorem mergeAutoEventsAdded_union :
  (forall (float : Type) (floatOps : FloatOps float) (state changes : @SerializedData float),
     NoDup (ids (eventsOf state)) ->
     NoDup (ids (eventsOf changes)) ->
     Permutation (eventsOf state) (listedEvents state)
     /\ Permutation (eventsOf changes) (listedEvents changes)
     /\ exists added : list AutomationEvent,
          mergeAutoEventsAdded state changes
          = sequenceTree eventsAdded (eventsOf state ++ added)
          /\ (forall e, In e added <->
                        In e (eventsOf changes) /\ ~ In (getId e) (ids (eventsOf state)))
          /\ NoDup (ids (eventsOf state ++ added))
          /\ (forall i, In i (ids (eventsOf state ++ added)) <->
                        In i (ids (eventsOf state)) \/ In i (ids (eventsOf changes)))
          /\ (forall e, In e (eventsOf state ++ added) ->
                        In (getId e) (ids (eventsOf state)) -> In e (eventsOf state)))
  /\ eventsOf diffState = [event 1 0; event 2 1]
  /\ eventsOf diffChanges = [event 2 2; event 3 3]
  /\ mergeAutoEventsAdded diffState diffChanges
     = sequenceTree eventsAdded [event 1 0; event 2 1; event 3 3].
Proof.
  split; [|split; [|split]].
  - intros float floatOps state changes HS HC.
    split; [apply eventsOf_Permutation|]. split; [apply eventsOf_Permutation|].
    now apply mergeAutoEventsAdded_records.
  - reflexivity.
  - reflexivity.
  - reflexivity.
Qed.

Lemma mergeAutoEventsAdded_union_witness :
  NoDup (ids (eventsOf diffState))
  /\ NoDup (ids (eventsOf diffChanges))
  /\ exists added : list (@AutomationEvent Z),
       mergeAutoEventsAdded diffState diffChanges
       = sequenceTree eventsAdded (eventsOf diffState ++ added)
       /\ NoDup (ids (eventsOf diffState ++ added)).
Proof.
  assert (HS : NoDup (ids (eventsOf diffState))) by distinct_ids.
  assert (HC : NoDup (ids (eventsOf diffChanges))) by distinct_ids.
  split; [exact HS|]. split; [exact HC|].
  destruct (proj1 mergeAutoEventsAdded_union Z Z_FloatOps diffState diffChanges HS HC)
    as [_ [_ [added [Hmerge [_ [Hids _]]]]]].
  exists added. now split.
Defined.

(** C2. With unique ids within the state sequence and within the changes
    sequence, the changed-merge lists exactly the state records whose id the
    changes do not have, unchanged, and the changes records whose id the
    state has, each in the place of the state record of that id: the result
    has the ids of the state, once each.  A changes record whose id the state
    does not have is not in the result; the function returns a payload in
    every case.  The records of a side are those its payload lists, each as
    many times.  On the example of the spec's collection diff, the state
    with the events 1 and 2 and the changes with another event 2 and the
    event 3, the payload lists the state's event 1 and the event 2 of the
    changes, and not the event 3. *)
Theorem mergeAutoEventsChanged_replaces :
  (forall (float : Type) (floatOps : FloatOps float) (state changes : @SerializedData float),
     NoDup (ids (eventsOf state)) ->
     NoDup (ids (eventsOf changes)) ->
     Permutation (eventsOf state) (listedEvents state)
     /\ Permutation (eventsOf changes) (listedEvents changes)
     /\ exists result : list AutomationEvent,
          mergeAutoEventsChanged state changes = sequenceTree eventsAdded result
          /\ (forall e, In e result <->
                        (In e (eventsOf state) /\ ~ In (getId e) (ids (eventsOf changes)))
                        \/ (In e (eventsOf changes) /\ In (getId e) (ids (eventsOf state))))
          /\ Permutation (ids result) (ids (eventsOf state))
          /\ (forall e, In e (eventsOf changes) -> ~ In (getId e) (ids (eventsOf state)) ->
                        ~ In e result))
  /\ eventsOf diffState = [event 1 0; event 2 1]
  /\ eventsOf diffChanges = [event 2 2; event 3 3]
  /\ mergeAutoEventsChanged diffState diffChanges
     = sequenceTree eventsAdded [event 1 0; event 2 2].
Proof.
  split; [|split; [|split]].
  - intros float floatOps state changes HS HC.
    split; [apply eventsOf_Permutation|]. split; [apply eventsOf_Permutation|].
    now apply mergeAutoEventsChanged_records.
  - reflexivity.
  - reflexivity.
  - reflexivity.
Qed.

Lemma mergeAutoEventsChanged_replaces_witness :
  NoDup (ids (eventsOf diffState))
  /\ NoDup (ids (eventsOf diffChanges))
  /\ exists result : list (@AutomationEvent Z),
       mergeAutoEventsChanged diffState diffChanges = sequenceTree eventsAdded result
       /\ Permutation (ids result) (ids (eventsOf diffState)).
Proof.
  assert (HS : NoDup (ids (eventsOf diffState))) by distinct_ids.
  assert (HC : NoDup (ids (eventsOf diffChanges))) by distinct_ids.
  split; [exact HS|]. split; [exact HC|].
  destruct (proj1 mergeAutoEventsChanged_replaces Z Z_FloatOps diffState diffChanges HS HC)
    as [_ [_ [result [Hmerge [_ [Hids _]]]]]].
  exists result. now split.
Defined.

(** C3. With unique ids, the diff of two sequences emits, in this order, the
    added, the removed and the changed group, each as one delta that carries
    its count when the group is not empty and as none when it is: removed are
    the state records whose id the changes lack, added the changes records
    whose id the state lacks, changed the changes records whose state record
    of the same id differs in beat, curvature or controller value.  On the
    example of the spec the groups are the events 3, 1 and 2. *)
Theorem createAutoEventsDiffs_partition :
  (forall (float : Type) (floatOps : FloatOps float) (state changes : @SerializedData float),
     NoDup (ids (eventsOf state)) ->
     NoDup (ids (eventsOf changes)) ->
     exists added removed changed : list AutomationEvent,
       createAutoEventsDiffs state changes
       = deltaGroup "added {x} events" eventsAdded added
         ++ deltaGroup "removed {x} events" eventsRemoved removed
         ++ deltaGroup "changed {x} events" eventsChanged changed
       /\ (forall e, In e removed <->
                     In e (eventsOf state) /\ ~ In (getId e) (ids (eventsOf changes)))
       /\ (forall e, In e changed <->
                     In e (eventsOf changes)
                     /\ exists s, In s (eventsOf state) /\ getId s = getId e
                                  /\ (float_eqb (getBeat s) (getBeat e) = false
                                      \/ float_eqb (getCurvature s) (getCurvature e) = false
                                      \/ float_eqb (getControllerValue s)
                                           (getControllerValue e) = false))
       /\ (forall e, In e added <->
                     In e (eventsOf changes) /\ ~ In (getId e) (ids (eventsOf state))))
  /\ createAutoEventsDiffs diffState diffChanges
     = [ mkDeltaDiff
           (mkDelta (mkDeltaDescription "added {x} events" (Some 1)) eventsAdded)
           (sequenceTree eventsAdded [event 3 3]);
         mkDeltaDiff
           (mkDelta (mkDeltaDescription "removed {x} events" (Some 1)) eventsRemoved)
           (sequenceTree eventsRemoved [event 1 0]);
         mkDeltaDiff
           (mkDelta (mkDeltaDescription "changed {x} events" (Some 1)) eventsChanged)
           (sequenceTree eventsChanged [event 2 2]) ].
Proof.
  split.
  - intros float floatOps state changes. apply createAutoEventsDiffs_groups.
  - reflexivity.
Qed.

Lemma createAutoEventsDiffs_partition_witness :
  NoDup (ids (eventsOf diffState))
  /\ NoDup (ids (eventsOf diffChanges))
  /\ exists added removed changed : list (@AutomationEvent Z),
       createAutoEventsDiffs diffState diffChanges
       = deltaGroup "added {x} events" eventsAdded added
         ++ deltaGroup "removed {x} events" eventsRemoved removed
         ++ deltaGroup "changed {x} events" eventsChanged changed.
Proof.
  assert (HS : NoDup (ids (eventsOf diffState))) by distinct_ids.
  assert (HC : NoDup (ids (eventsOf diffChanges))) by distinct_ids.
  split; [exact HS|]. split; [exact HC|].
  destruct (proj1 createAutoEventsDiffs_partition Z Z_FloatOps diffState diffChanges HS HC)
    as [added [removed [changed [Hdiff _]]]].
  now exists added, removed, changed.
Defined.

Lemma createMergedItem_copy_forward_witness :
  In (mkDeltaDiff (described "moved from" trackPath) (pathData "A"))
     (createMergedItem targetWithTimeSignature stateWithPathA).
Proof.
  apply (createMergedItem_copy_forward targetWithTimeSignature stateWithPathA
           (mkDeltaDiff (described "moved from" trackPath) (pathData "A"))).
  - now left.
  - intros t [<-|[]]. discriminate.
  - intros H. discriminate H.
  - intros H. discriminate H.
Defined.

(** C5. The five scalar merges return the changes, whatever the state; and
    when a state delta and a target delta have the same scalar type, the
    merged item carries the target's delta with the target's payload.  With
    the path "A" in the state and the path "B" in the target, the merged path
    is "B". *)
Theorem scalar_last_write_wins :
  (forall (float : Type) (state changes : @SerializedData float),
     mergePath state changes = changes
     /\ mergeColour state changes = changes
     /\ mergeInstrument state changes = changes
     /\ mergeController state changes = changes
     /\ mergeTimeSignature state changes = changes)
  /\ (forall (float : Type) (floatOps : FloatOps float)
             (patternDiffHelpers : @PatternDiffHelpers float)
             (target state : @TrackedItem float) (s t : @DeltaDiff float),
        In s state -> In t target ->
        getType (delta s) = getType (delta t) ->
        isScalarType (getType (delta t)) = true ->
        In (mkDeltaDiff (mkDelta (getDescription (delta t)) (getType (delta t)))
              (deltaData t))
           (createMergedItem target state))
  /\ mergePath (pathData "A") (pathData "B") = pathData "B"
  /\ createMergedItem targetWithPathB stateWithPathA
     = [ mkDeltaDiff (described "moved to" trackPath) (pathData "B");
         mkDeltaDiff (headDelta timeSignaturesChanged) (emptyTree timeSignaturesChanged);
         mkDeltaDiff (headDelta clipsAdded) (emptyTree clipsAdded) ].
Proof.
  split; [|split; [|split]].
  - intros float state changes. apply scalar_merges.
  - intros float floatOps patternDiffHelpers target state s t.
    apply createMergedItem_scalar.
  - reflexivity.
  - reflexivity.
Qed.

Lemma scalar_last_write_wins_witness :
  In (mkDeltaDiff (described "moved to" trackPath) (pathData "B"))
     (createMergedItem targetWithPathB stateWithPathA).
Proof.
  apply (proj1 (proj2 scalar_last_write_wins) Z Z_FloatOps clipsById
           targetWithPathB stateWithPathA
           (mkDeltaDiff (described "moved from" trackPath) (pathData "A"))
           (mkDeltaDiff (described "moved to" trackPath) (pathData "B"))).
  - now left.
  - now left.
  - reflexivity.
  - reflexivity.
Defined.

Lemma createMergedItem_forward_compatibility_witness :
  (forall s, In s stateWithEventsOnly -> hasType (delta s) timeSignaturesChanged = false)
  /\ countDeltas (fun d => hasType d timeSignaturesChanged)
       (createMergedItem targetWithTimeSignature stateWithEventsOnly) = 1%nat
  /\ In (mkDeltaDiff (headDelta timeSignaturesChanged) timeSignatureData)
        (createMergedItem targetWithTimeSignature stateWithEventsOnly)
  /\ In (mkDeltaDiff (headDelta clipsAdded) (emptyTree clipsAdded))
        (createMergedItem targetWithTimeSignature stateWithEventsOnly).
Proof.
  assert (Hts : forall s, In s stateWithEventsOnly ->
                          hasType (delta s) timeSignaturesChanged = false).
  { intros s [<-|[]]. reflexivity. }
  assert (Hclips : forall s, In s stateWithEventsOnly ->
                             checkIfDeltaIsPatternType (delta s) = false).
  { intros s [<-|[]]. reflexivity. }
  destruct (createMergedItem_forward_compatibility
              targetWithTimeSignature stateWithEventsOnly) as [H1 H2].
  destruct (H1 Hts) as [Hcount [_ Hmerged]].
  destruct (H2 Hclips) as [_ [_ [Hempty _]]].
  split; [exact Hts|]. split; [exact Hcount|]. split.
  - apply (Hmerged [] (mkDeltaDiff
                         (described "time signatures changed" timeSignaturesChanged)
                         timeSignatureData) []).
    + reflexivity.
    + reflexivity.
    + intros u [].
    + reflexivity.
  - apply Hempty. intros t [<-|[]]. reflexivity.
Defined.

(** C7, as stated, fails: a state that carries an added-events and a
    changed-events delta, merged with a target that carries the same two,
    gives two events deltas, one per state delta. *)
Lemma createMergedItem_two_events_deltas :
  NoDup (map (fun d => getType (delta d)) stateWithTwoEventsDeltas)
  /\ NoDup (map (fun d => getType (delta d)) targetWithTwoEventsDeltas)
  /\ ~ (countDeltas isEventsFamily
          (createMergedItem targetWithTwoEventsDeltas stateWithTwoEventsDeltas) <= 1)%nat.
Proof.
  split; [|split].
  - vm_compute. repeat (constructor; [simpl; intuition discriminate|]). constructor.
  - vm_compute. repeat (constructor; [simpl; intuition discriminate|]). constructor.
  - intros H. vm_compute in H. lia.
Qed.

(** C8, as stated, fails: the added-merge appends an earlier event after a
    later one, and the changed-merge and the changed group of the diff list
    the moved events in the order of the state. *)
Lemma appended_events_not_sorted :
  ~ sortedByBeat (listedEvents (mergeAutoEventsAdded lateState earlyChanges))
  /\ ~ sortedByBeat (listedEvents (mergeAutoEventsChanged orderedState swappedChanges))
  /\ exists d, In d (createAutoEventsDiffs orderedState swappedChanges)
               /\ ~ sortedByBeat (listedEvents (deltaData d)).
Proof.
  split; [|split].
  - intros H. not_sorted H.
  - intros H. not_sorted H.
  - eexists. split; [now left|]. intros H. not_sorted H.
Qed.

Lemma sortedByBeat_selections_witness :
  sortedByBeat (listedEvents (mergeAutoEventsRemoved diffState diffChanges))
  /\ (forall d, In d (createAutoEventsDiffs diffState diffChanges) ->
                getType (delta d) <> eventsChanged ->
                sortedByBeat (listedEvents (deltaData d))).
Proof.
  destruct (sortedByBeat_selections (floatOps := Z_FloatOps)
              Z_ltb_asym Z_ltb_trans Z_ltb_incomparable diffState diffChanges)
    as [_ [_ [_ [_ [Hremoved Hdiff]]]]].
  now split.
Defined.

(** Without the third condition on [<] the sequences read need not be
    sorted.  With a NaN among the beats [<] is asymmetric and transitive
    still; the search finds that the beat 7 compares equal to the NaN at the
    head of the array and puts it right behind, in front of the beat 5. *)
Lemma eventsOf_with_NaN_not_sorted :
  (forall a b : option Z,
     @float_ltb _ NaN_FloatOps a b = true -> @float_ltb _ NaN_FloatOps b a = false)
  /\ (forall a b c : option Z,
        @float_ltb _ NaN_FloatOps a b = true -> @float_ltb _ NaN_FloatOps b c = true ->
        @float_ltb _ NaN_FloatOps a c = true)
  /\ @eventsOf _ NaN_FloatOps beatsWithNaN
     = [eventAt 1 None; eventAt 3 (Some 7); eventAt 2 (Some 5)]
  /\ ~ @sortedByBeat _ NaN_FloatOps (@eventsOf _ NaN_FloatOps beatsWithNaN).
Proof.
  split; [|split; [|split]].
  - intros [a|] [b|]; simpl; try discriminate. apply Z_ltb_asym.
  - intros [a|] [b|] [c|]; simpl; try discriminate. apply Z_ltb_trans.
  - reflexivity.
  - intros H. not_sorted H.
Qed.

(** C9, as stated, fails: the first merge appends the earlier event of the
    changes after the later event of the state, the second merge reads that
    payload back sorted by beat. *)
Lemma mergeAutoEventsAdded_twice_differs :
  NoDup (ids (eventsOf lateState))
  /\ NoDup (ids (eventsOf earlyChanges))
  /\ mergeAutoEventsAdded (mergeAutoEventsAdded lateState earlyChanges) earlyChanges
     <> mergeAutoEventsAdded lateState earlyChanges.
Proof.
  split; [distinct_ids|]. split; [distinct_ids|].
  intros H. vm_compute in H. discriminate H.
Qed.

Lemma createMergedItem_scalar_not_recovered_witness :
  In trackPath [trackPath; trackColour; trackInstrument; trackController]
  /\ In (mkDeltaDiff (described "moved to" trackPath) (pathData "B")) targetWithPathB
  /\ (forall x, In x (createMergedItem targetWithPathB stateWithEventsOnly) ->
                getType (delta x) <> trackPath).
Proof.
  split; [now left|]. split; [now left|].
  apply (proj1 (createMergedItem_scalar_not_recovered targetWithPathB stateWithEventsOnly)
           trackPath).
  - now left.
  - intros s [<-|[]]. discriminate.
Defined.

(** * The further properties at concrete snapshots *)

#[local] Existing Instance diffsOfTrees.

Lemma Z_eqb_spec (a b : Z) : float_eqb a b = true <-> a = b.
Proof. apply Z.eqb_eq. Qed.

Lemma merges_without_events_witness :
  eventsOf (emptyTree eventsAdded : @SerializedData Z) = []
  /\ mergeAutoEventsAdded diffState (emptyTree eventsAdded)
     = sequenceTree eventsAdded (eventsOf diffState)
  /\ mergeAutoEventsChanged (emptyTree eventsAdded) diffChanges = emptyTree eventsAdded.
Proof.
  split; [reflexivity|]. split.
  - apply (proj1 (merges_without_events diffState (emptyTree eventsAdded)) eq_refl).
  - apply (proj2 (merges_without_events (emptyTree eventsAdded) diffChanges) eq_refl).
Defined.

Lemma createAutoEventsDiffs_without_events_witness :
  eventsOf (None : @SerializedData Z) = []
  /\ createAutoEventsDiffs None diffChanges
     = deltaGroup "added {x} events" eventsAdded (eventsOf diffChanges)
  /\ createAutoEventsDiffs diffState None
     = deltaGroup "removed {x} events" eventsRemoved (eventsOf diffState).
Proof.
  split; [reflexivity|]. split.
  - apply (proj1 (createAutoEventsDiffs_without_events None diffChanges) eq_refl).
  - apply (proj1 (proj2 (createAutoEventsDiffs_without_events diffState None)) eq_refl).
Defined.

Lemma createAutoEventsDiffs_empty_iff_witness :
  NoDup (ids (eventsOf diffState))
  /\ NoDup (ids (eventsOf diffChanges))
  /\ (createAutoEventsDiffs diffState diffChanges = [] <->
      forall e, In e (eventsOf diffState) <-> In e (eventsOf diffChanges)).
Proof.
  assert (HS : NoDup (ids (eventsOf diffState))) by distinct_ids.
  assert (HC : NoDup (ids (eventsOf diffChanges))) by distinct_ids.
  split; [exact HS|]. split; [exact HC|].
  exact (createAutoEventsDiffs_empty_iff (floatOps := Z_FloatOps) Z_eqb_spec
           diffState diffChanges HS HC).
Defined.

Lemma createAutoEventsDiffs_counts_witness :
  NoDup (ids (eventsOf diffState))
  /\ NoDup (ids (eventsOf diffChanges))
  /\ exists added removed changed : list (@AutomationEvent Z),
       createAutoEventsDiffs diffState diffChanges
       = deltaGroup "added {x} events" eventsAdded added
         ++ deltaGroup "removed {x} events" eventsRemoved removed
         ++ deltaGroup "changed {x} events" eventsChanged changed
       /\ (List.length added + List.length (eventsOf diffState)
           = List.length removed + List.length (eventsOf diffChanges))%nat.
Proof.
  assert (HS : NoDup (ids (eventsOf diffState))) by distinct_ids.
  assert (HC : NoDup (ids (eventsOf diffChanges))) by distinct_ids.
  split; [exact HS|]. split; [exact HC|].
  destruct (createAutoEventsDiffs_counts diffState diffChanges HS HC)
    as [added [removed [changed [Hdiff [Hcount _]]]]].
  exists added, removed, changed. now split.
Defined.

Lemma createMergedItem_drops_matched_unknown_witness :
  ~ In lyrics dispatchedTypes
  /\ In (mkDeltaDiff (described "lyrics changed" lyrics) (emptyTree lyrics)) stateWithLyrics
  /\ (forall x, In x (createMergedItem targetWithLyrics stateWithLyrics) ->
                getType (delta x) <> lyrics).
Proof.
  assert (Hout : ~ In lyrics dispatchedTypes).
  { intros H. simpl in H. intuition discriminate. }
  split; [exact Hout|]. split; [now left|].
  apply (createMergedItem_drops_matched_unknown targetWithLyrics stateWithLyrics lyrics Hout).
  exists (mkDeltaDiff (described "lyrics changed" lyrics) (emptyTree lyrics)).
  split; [now left|reflexivity].
Defined.

Lemma createMergedItem_one_delta_per_kind_witness :
  NoDup (map (fun t => getType (delta t)) targetWithTwoEventsDeltas)
  /\ NoDup (map (fun s => kindOf (delta s)) stateOfItem)
  /\ NoDup (map (fun x => kindOf (delta x))
              (createMergedItem targetWithTwoEventsDeltas stateOfItem)).
Proof.
  assert (HT : NoDup (map (fun t : @DeltaDiff Z => getType (delta t))
                        targetWithTwoEventsDeltas)).
  { vm_compute. repeat (constructor; [simpl; intuition discriminate|]). constructor. }
  assert (HS : NoDup (map (fun s : @DeltaDiff Z => kindOf (delta s)) stateOfItem)).
  { vm_compute. repeat (constructor; [simpl; intuition discriminate|]). constructor. }
  split; [exact HT|]. split; [exact HS|].
  exact (proj1 (createMergedItem_one_delta_per_kind
                  targetWithTwoEventsDeltas stateOfItem HT HS)).
Defined.

Lemma merges_keep_ids_unique_witness :
  NoDup (ids (eventsOf diffState))
  /\ NoDup (ids (eventsOf diffChanges))
  /\ NoDup (ids (eventsOf (mergeAutoEventsAdded diffState diffChanges)))
  /\ NoDup (ids (eventsOf (mergeAutoEventsChanged diffState diffChanges))).
Proof.
  assert (HS : NoDup (ids (eventsOf diffState))) by distinct_ids.
  assert (HC : NoDup (ids (eventsOf diffChanges))) by distinct_ids.
  split; [exact HS|]. split; [exact HC|].
  destruct (merges_keep_ids_unique diffState diffChanges HS) as [Hadded [_ Hchanged]].
  split; [exact (Hadded HC)|exact Hchanged].
Defined.

Lemma createAutoEventsDiffs_merged_back_witness :
  checkIfDeltaIsEventsType (headDelta eventsAdded) = true
  /\ NoDup (ids (eventsOf diffState))
  /\ NoDup (ids (eventsOf diffChanges))
  /\ exists x : @DeltaDiff Z,
       In x (createMergedItem (createAutoEventsDiffs diffState diffChanges)
               [mkDeltaDiff (headDelta eventsAdded) diffState])
       /\ Permutation (eventsOf (deltaData x)) (eventsOf diffChanges).
Proof.
  assert (HS : NoDup (ids (eventsOf diffState))) by distinct_ids.
  assert (HC : NoDup (ids (eventsOf diffChanges))) by distinct_ids.
  split; [reflexivity|]. split; [exact HS|]. split; [exact HC|].
  destruct (createAutoEventsDiffs_merged_back (floatOps := Z_FloatOps) Z_eqb_spec
              (headDelta eventsAdded) diffState diffChanges eq_refl HS HC)
    as [x [Hin [_ [_ Hsame]]]].
  exists x. now split.
Defined.

Lemma mergeAutoEventsRemoved_after_added_witness :
  (forall e, In e (eventsOf lateState) -> ~ In (getId e) (ids (eventsOf earlyChanges)))
  /\ Permutation
       (listedEvents
          (mergeAutoEventsRemoved (mergeAutoEventsAdded lateState earlyChanges) earlyChanges))
       (eventsOf lateState).
Proof.
  assert (Hfresh : forall e : @AutomationEvent Z,
            In e (eventsOf lateState) -> ~ In (getId e) (ids (eventsOf earlyChanges))).
  { intros e [<-|[]] [H|[]]. discriminate H. }
  split; [exact Hfresh|].
  exact (proj2 (mergeAutoEventsRemoved_after_added lateState earlyChanges) Hfresh).
Defined.

Lemma createDiff_unchanged_witness :
  (forall my, In my itemAtDefault ->
     match findInState (delta (targetDelta my)) stateOfItem with
     | Some stateDelta =>
         isEquivalentTo (deltaData (targetDelta my)) (deltaData stateDelta) = true
     | None => deltaHasDefaultData my = true
     end)
  /\ createDiff itemAtDefault stateOfItem = [].
Proof.
  assert (Hsame : forall my, In my itemAtDefault ->
            match findInState (delta (targetDelta my)) stateOfItem with
            | Some stateDelta =>
                isEquivalentTo (deltaData (targetDelta my)) (deltaData stateDelta) = true
            | None => deltaHasDefaultData my = true
            end).
  { intros my [<-|[<-|[<-|[]]]]; reflexivity. }
  split; [exact Hsame|].
  exact (createDiff_unchanged itemAtDefault stateOfItem Hsame).
Defined.

Lemma createDiff_of_itself_witness :
  NoDup (map (fun t => getType (delta (targetDelta t))) itemWithPathB)
  /\ createDiff itemWithPathB (map targetDelta itemWithPathB) = [].
Proof.
  assert (Hn : NoDup (map (fun t : @TargetDelta Z => getType (delta (targetDelta t)))
                        itemWithPathB)).
  { vm_compute. repeat (constructor; [simpl; intuition discriminate|]). constructor. }
  split; [exact Hn|].
  apply (createDiff_of_itself itemWithPathB Hn).
  intros my [<-|[<-|[]]]; reflexivity.
Defined.

Lemma createDiff_ignores_other_types_witness :
  (forall my, In my (map (fun d => mkTargetDelta d false) targetWithLyrics) ->
     isDiffedType (getType (delta (targetDelta my))) = false)
  /\ createDiff (map (fun d => mkTargetDelta d false) targetWithLyrics) stateOfItem = [].
Proof.
  assert (Hout : forall my : @TargetDelta Z,
            In my (map (fun d => mkTargetDelta d false) targetWithLyrics) ->
            isDiffedType (getType (delta (targetDelta my))) = false).
  { intros my [<-|[]]. reflexivity. }
  split; [exact Hout|].
  exact (proj2 (createDiff_ignores_other_types
                  (map (fun d => mkTargetDelta d false) targetWithLyrics) stateOfItem) Hout).
Defined.

Lemma createDiff_events_witness :
  isEquivalentTo diffChanges diffState = false
  /\ incl (createAutoEventsDiffs diffState diffChanges)
          (createDiff itemWithPathB stateOfItem).
Proof.
  split; [reflexivity|].
  apply (proj1 (createDiff_events itemWithPathB stateOfItem
                  (mkTargetDelta (mkDeltaDiff (headDelta eventsAdded) diffChanges) false)
                  (or_intror (or_introl eq_refl)) eq_refl)
           (mkDeltaDiff (headDelta eventsAdded) diffState)).
  - reflexivity.
  - reflexivity.
Defined.

Lemma createDiff_changed_scalars_witness :
  isEquivalentTo (pathData "B") (pathData "A") = false
  /\ In (createPathDiff (pathData "A") (pathData "B"))
        (createDiff itemWithPathB stateOfItem).
Proof.
  split; [reflexivity|].
  refine (proj1 (createDiff_changed_scalars itemWithPathB stateOfItem
                   (mkTargetDelta
                      (mkDeltaDiff (described "moved to" trackPath) (pathData "B")) false)
                   (pathData "A") _ _) _).
  - now left.
  - left. exists (mkDeltaDiff (described "moved from" trackPath) (pathData "A")).
    repeat split.
  - reflexivity.
Defined.

(** * The collection of chords: proofs *)

Module ChordsCollectionFacts.

Import ChordsCollection.

Lemma wrap_small (z : Z) : - 2 ^ 31 <= z < 2 ^ 31 -> wrap z = z.
Proof.
  intros H. unfold wrap. rewrite Z.mod_small; lia.
Qed.

Lemma indexOfFrom_range (order : list string) (id : string) : forall index,
  indexOfFrom index order id = -1
  \/ index <= indexOfFrom index order id < index + Z.of_nat (List.length order).
Proof.
  induction order as [|s rest IH]; intros index; simpl; [now left|].
  destruct (String.eqb s id).
  - right. lia.
  - destruct (IH (index + 1)) as [H|H]; [now left|right; lia].
Qed.

Lemma indexOfFrom_absent (order : list string) (id : string) : forall index,
  0 <= index ->
  (indexOfFrom index order id = -1 <-> ~ In id order).
Proof.
  induction order as [|s rest IH]; intros index Hi; simpl.
  - tauto.
  - destruct (String.eqb s id) eqn:E.
    + apply String.eqb_eq in E. split; [lia|]. intros H. exfalso. apply H. now left.
    + apply String.eqb_neq in E. rewrite IH by lia. tauto.
Qed.

Lemma indexOf_absent (order : list string) (id : string) :
  indexOf order id = -1 <-> ~ In id order.
Proof. apply indexOfFrom_absent. lia. Qed.

Lemma indexOf_present (order : list string) (id : string) :
  In id order -> 0 <= indexOf order id < Z.of_nat (List.length order).
Proof.
  intros Hin. unfold indexOf.
  destruct (indexOfFrom_range order id 0) as [H|H]; [|lia].
  apply indexOf_absent in H. contradiction.
Qed.

Lemma indexOfFrom_shift (order : list string) (id : string) : forall index,
  In id order -> indexOfFrom index order id = index + indexOfFrom 0 order id.
Proof.
  induction order as [|s rest IH]; intros index Hin; [contradiction|].
  cbn [indexOfFrom].
  destruct (String.eqb s id) eqn:E; [lia|].
  apply String.eqb_neq in E. destruct Hin as [Hin|Hin]; [contradiction|].
  rewrite (IH (index + 1) Hin), (IH (0 + 1) Hin). lia.
Qed.

Lemma indexOf_nth (order : list string) (id : string) :
  In id order -> nth_error order (Z.to_nat (indexOf order id)) = Some id.
Proof.
  unfold indexOf. induction order as [|s rest IH]; intros Hin; [contradiction|].
  cbn [indexOfFrom].
  destruct (String.eqb s id) eqn:E.
  - apply String.eqb_eq in E. now subst s.
  - apply String.eqb_neq in E. destruct Hin as [Hin|Hin]; [contradiction|].
    rewrite (indexOfFrom_shift rest id (0 + 1) Hin).
    pose proof (indexOf_present rest id Hin) as Hr. unfold indexOf in Hr.
    replace (Z.to_nat (0 + 1 + indexOfFrom 0 rest id))
      with (S (Z.to_nat (indexOfFrom 0 rest id))) by lia.
    simpl. now apply IH.
Qed.

Lemma indexOf_injective (order : list string) (a b : string) :
  In a order -> In b order -> indexOf order a = indexOf order b -> a = b.
Proof.
  intros Ha Hb E. pose proof (indexOf_nth order a Ha) as Hna.
  pose proof (indexOf_nth order b Hb) as Hnb. rewrite E in Hna. congruence.
Qed.

Lemma indexOfFrom_app_fresh (pre rest : list string) (id : string) :
  ~ In id pre -> In id rest ->
  forall index,
    indexOfFrom index (pre ++ rest) id
    = index + Z.of_nat (List.length pre) + indexOfFrom 0 rest id.
Proof.
  induction pre as [|s pre IH]; intros Hpre Hin index.
  - simpl. rewrite (indexOfFrom_shift rest id index Hin). lia.
  - cbn [app indexOfFrom List.length].
    destruct (String.eqb s id) eqn:E.
    + apply String.eqb_eq in E. exfalso. apply Hpre. now left.
    + rewrite IH; [lia| |assumption]. intros H. apply Hpre. now right.
Qed.

Lemma indexOf_app_fresh (pre rest : list string) (id : string) :
  ~ In id pre -> In id rest ->
  indexOf (pre ++ rest) id = Z.of_nat (List.length pre) + indexOf rest id.
Proof.
  intros Hpre Hin. unfold indexOf. now rewrite indexOfFrom_app_fresh.
Qed.

Section Facts.

Context {float : Type}.
Context {Chord : Type} {chordResource : ChordResource (float := float) Chord}.
Context {stringCompare : StringCompare}.

Variable order : list string.
Hypothesis order_fits : Z.of_nat (List.length order) <= 2 ^ 31 - 1.

Lemma compareElements_cases (first second : Chord) :
  let i1 := indexOf order (getResourceId first) in
  let i2 := indexOf order (getResourceId second) in
  compareElements order first second
  = if (i1 =? -1) && negb (i2 =? -1) then 1
    else if negb (i1 =? -1) && (i2 =? -1) then -1
    else if i1 <? i2 then -1
    else if i2 <? i1 then 1
    else String_compare (getResourceId first) (getResourceId second).
Proof.
  intros i1 i2. unfold compareElements. fold i1 i2.
  assert (H1 : i1 = -1 \/ 0 <= i1 < Z.of_nat (List.length order)).
  { destruct (indexOfFrom_range order (getResourceId first) 0); [now left|right].
    unfold i1, indexOf. lia. }
  assert (H2 : i2 = -1 \/ 0 <= i2 < Z.of_nat (List.length order)).
  { destruct (indexOfFrom_range order (getResourceId second) 0); [now left|right].
    unfold i2, indexOf. lia. }
  assert (Hsub : wrap (i1 - i2) = i1 - i2 \/ (i1 =? -1) <> (i2 =? -1)).
  { destruct H1 as [->|H1], H2 as [->|H2].
    - left. now apply wrap_small.
    - right. simpl. destruct (i2 =? -1) eqn:E; [apply Z.eqb_eq in E; lia|discriminate].
    - right. simpl. destruct (i1 =? -1) eqn:E; [apply Z.eqb_eq in E; lia|discriminate].
    - left. apply wrap_small. lia. }
  destruct (i1 =? -1) eqn:E1, (i2 =? -1) eqn:E2; simpl.
  - (* both unlisted *)
    apply Z.eqb_eq in E1, E2. rewrite E1, E2. simpl. reflexivity.
  - reflexivity.
  - reflexivity.
  - (* both listed *)
    destruct Hsub as [Hsub|Hsub]; [|congruence]. rewrite Hsub.
    change (wrap (0 - 0)) with 0. simpl.
    destruct (i1 <? i2) eqn:Hlt.
    + apply Z.ltb_lt in Hlt.
      assert (Hg : (i1 - i2 >? 0) = false) by (rewrite Z.gtb_ltb; apply Z.ltb_ge; lia).
      assert (Hl : (i1 - i2 <? 0) = true) by (apply Z.ltb_lt; lia).
      now rewrite Hg, Hl.
    + apply Z.ltb_ge in Hlt. destruct (i2 <? i1) eqn:Hgt.
      * apply Z.ltb_lt in Hgt.
        assert (Hg : (i1 - i2 >? 0) = true) by (apply Z.gtb_lt; lia).
        assert (Hl : (i1 - i2 <? 0) = false) by (apply Z.ltb_ge; lia).
        now rewrite Hg, Hl.
      * apply Z.ltb_ge in Hgt.
        assert (Hg : (i1 - i2 >? 0) = false) by (rewrite Z.gtb_ltb; apply Z.ltb_ge; lia).
        assert (Hl : (i1 - i2 <? 0) = false) by (apply Z.ltb_ge; lia).
        now rewrite Hg, Hl.
Qed.

(** X19. Chords that the order lists sort before chords that it does not
    list; two listed chords sort by the place where their ids first occur;
    two unlisted chords sort as their ids compare.  This holds for an order
    of at most [INT_MAX] ids, where the subtraction of two indices does not
    wrap. *)
Theorem compareElements_by_order (first second : Chord) :
  let id1 := getResourceId first in
  let id2 := getResourceId second in
  (In id1 order -> ~ In id2 order -> compareElements order first second = -1)
  /\ (~ In id1 order -> In id2 order -> compareElements order first second = 1)
  /\ (In id1 order -> In id2 order -> indexOf order id1 < indexOf order id2 ->
      compareElements order first second = -1)
  /\ (In id1 order -> In id2 order -> indexOf order id2 < indexOf order id1 ->
      compareElements order first second = 1)
  /\ (~ In id1 order -> ~ In id2 order ->
      compareElements order first second = String_compare id1 id2).
Proof.
  intros id1 id2. rewrite compareElements_cases. cbv zeta. fold id1 id2.
  assert (H1 : ~ In id1 order -> (indexOf order id1 =? -1) = true).
  { intros H. now apply Z.eqb_eq, indexOf_absent. }
  assert (H2 : ~ In id2 order -> (indexOf order id2 =? -1) = true).
  { intros H. now apply Z.eqb_eq, indexOf_absent. }
  assert (H3 : In id1 order -> (indexOf order id1 =? -1) = false).
  { intros H. apply Z.eqb_neq. pose proof (indexOf_present order id1 H). lia. }
  assert (H4 : In id2 order -> (indexOf order id2 =? -1) = false).
  { intros H. apply Z.eqb_neq. pose proof (indexOf_present order id2 H). lia. }
  repeat split.
  - intros Ha Hb. now rewrite (H3 Ha), (H2 Hb).
  - intros Ha Hb. now rewrite (H1 Ha), (H4 Hb).
  - intros Ha Hb Hlt. rewrite (H3 Ha), (H4 Hb). simpl.
    now rewrite (proj2 (Z.ltb_lt _ _) Hlt).
  - intros Ha Hb Hlt. rewrite (H3 Ha), (H4 Hb). simpl.
    rewrite (proj2 (Z.ltb_ge _ _)) by lia. now rewrite (proj2 (Z.ltb_lt _ _) Hlt).
  - intros Ha Hb. rewrite (H1 Ha), (H2 Hb). simpl.
    apply Z.eqb_eq in H1, H2; try assumption. now rewrite H1, H2.
Qed.

Section Ordering.

Hypothesis compare_eq : forall a b : string, String_compare a b = 0 <-> a = b.
Hypothesis compare_antisym : forall a b : string,
  String_compare a b < 0 <-> 0 < String_compare b a.
Hypothesis compare_trans : forall a b c : string,
  String_compare a b < 0 -> String_compare b c < 0 -> String_compare a c < 0.

Lemma compareElements_same_place (a b : Chord) :
  indexOf order (getResourceId a) = indexOf order (getResourceId b) ->
  indexOf order (getResourceId a) <> -1 ->
  getResourceId a = getResourceId b.
Proof.
  intros E Ha. apply (indexOf_injective order); [| |assumption].
  - destruct (in_dec string_dec (getResourceId a) order) as [H|H]; [assumption|].
    apply indexOf_absent in H. contradiction.
  - destruct (in_dec string_dec (getResourceId b) order) as [H|H]; [assumption|].
    apply indexOf_absent in H. congruence.
Qed.

Ltac by_cases :=
  repeat match goal with
         | |- context [?x =? ?y] => destruct (Z.eqb_spec x y)
         | |- context [?x <? ?y] => destruct (Z.ltb_spec x y)
         end; simpl.

(** X20. When the comparison of strings is an order (zero for equal
    strings only, antisymmetric, transitive), so is the comparator of the
    chords, on their ids: it answers zero exactly for chords of the same
    id, it is antisymmetric, and it is transitive. *)
Theorem compareElements_is_an_order (a b c : Chord) :
  (compareElements order a b = 0 <-> getResourceId a = getResourceId b)
  /\ (compareElements order a b < 0 <-> 0 < compareElements order b a)
  /\ (compareElements order a b < 0 -> compareElements order b c < 0 ->
      compareElements order a c < 0).
Proof.
  pose proof (compareElements_same_place a b) as Hab.
  pose proof (compareElements_same_place b a) as Hba.
  pose proof (compareElements_same_place b c) as Hbc.
  pose proof (compareElements_same_place a c) as Hac.
  rewrite !compareElements_cases. cbv zeta.
  set (ia := indexOf order (getResourceId a)) in *.
  set (ib := indexOf order (getResourceId b)) in *.
  set (ic := indexOf order (getResourceId c)) in *.
  split; [|split].
  - split.
    + by_cases; intros Hzero; try lia; try now apply compare_eq.
    + intros E. assert (Hi : ia = ib) by (unfold ia, ib; now rewrite E).
      by_cases; try lia; now apply compare_eq.
  - by_cases; try lia; apply compare_antisym.
  - by_cases; try lia; try apply compare_trans.
    all: try (intros Hfirst Hsecond;
              first [ assert (E : getResourceId a = getResourceId b) by (apply Hab; lia);
                      rewrite E, (proj2 (compare_eq _ _) eq_refl) in Hfirst; lia
                    | assert (E : getResourceId b = getResourceId c) by (apply Hbc; lia);
                      rewrite E, (proj2 (compare_eq _ _) eq_refl) in Hsecond; lia ]).
Qed.

End Ordering.

End Facts.

Section Reading.

Context {float : Type}.
Context {Chord : Type} {chordResource : ChordResource (float := float) Chord}.
Context {stringCompare : StringCompare}.

Lemma find_app_first {A : Type} (f : A -> bool) (l1 l2 : list A) :
  find f (l1 ++ l2) = match find f l1 with Some x => Some x | None => find f l2 end.
Proof.
  induction l1 as [|x l1 IH]; simpl; [reflexivity|]. now destruct (f x).
Qed.

Lemma deserializeResources_loop (nodes : list (@Node float)) :
  forall collection : Collection,
    let read :=
      fold_left
        (fun collection chordNode =>
           let c := deserializeChord chordNode in
           mkCollection
             (setResource (resources collection) (getResourceId c) c)
             (order collection ++ [getResourceId c]))
        nodes collection in
    order read = order collection ++ map getResourceId (map deserializeChord nodes)
    /\ (forall id,
          resources read id
          = match find (fun c => String.eqb id (getResourceId c))
                    (rev (map deserializeChord nodes)) with
            | Some c => Some c
            | None => resources collection id
            end).
Proof.
  induction nodes as [|n nodes IH]; intros collection; simpl.
  - split; [now rewrite app_nil_r|reflexivity].
  - destruct (IH (mkCollection
                    (setResource (resources collection)
                       (getResourceId (deserializeChord n)) (deserializeChord n))
                    (order collection ++ [getResourceId (deserializeChord n)])))
      as [Horder Hres].
    simpl in Horder, Hres. split.
    + rewrite Horder. now rewrite <- app_assoc.
    + intros id. rewrite Hres, find_app_first. simpl. unfold setResource.
      destruct (find _ (rev (map deserializeChord nodes))); [reflexivity|].
      now destruct (String.eqb id (getResourceId (deserializeChord n))).
Qed.

Lemma deserializeResources_order (tree : @SerializedData float) (collection : Collection) :
  order (deserializeResources tree collection)
  = order collection ++ map getResourceId (chordsOf tree).
Proof.
  unfold deserializeResources, chordsOf.
  set (root := if treeHasType tree chords then tree else getChildWithName tree chords).
  destruct root as [r|]; simpl negb; cbv iota.
  - apply deserializeResources_loop.
  - simpl. now rewrite app_nil_r.
Qed.

(** X21. Reading a tree appends the ids of its chords to the order, in the
    order of the file and as often as they occur, and maps each of these ids
    to the last chord of the file that has it; the other ids keep what they
    mapped to.  A tree that holds no chord, be it invalid, of another type
    without a child of chords, or empty, changes nothing. *)
Theorem deserializeResources_reads (tree : @SerializedData float) (collection : Collection) :
  order (deserializeResources tree collection)
  = order collection ++ map getResourceId (chordsOf tree)
  /\ (forall id,
        resources (deserializeResources tree collection) id
        = match find (fun c => String.eqb id (getResourceId c)) (rev (chordsOf tree)) with
          | Some c => Some c
          | None => resources collection id
          end)
  /\ (chordsOf tree = [] -> deserializeResources tree collection = collection).
Proof.
  unfold deserializeResources, chordsOf.
  set (root := if treeHasType tree chords then tree else getChildWithName tree chords).
  destruct root as [r|] eqn:E; simpl negb; cbv iota.
  - destruct (deserializeResources_loop (childrenWithType (Some r) chord) collection)
      as [Horder Hres].
    split; [exact Horder|]. split; [exact Hres|].
    intros Hnil. destruct (childrenWithType (Some r) chord); [reflexivity|discriminate].
  - simpl. split; [now rewrite app_nil_r|]. split; reflexivity.
Qed.

Lemma NoDup_middle {A : Type} (l1 l2 : list A) (x : A) :
  NoDup (l1 ++ x :: l2) -> ~ In x l1.
Proof.
  intros H Hin. apply NoDup_remove_2 in H. apply H. apply in_app_iff. now left.
Qed.

(** X22. Read into a collection whose order is empty, chords sort in the
    order of the file: of two chords of a file whose ids are distinct, the
    one that the file lists first compares less than the other.  The file
    holds at most [INT_MAX] chords. *)
Theorem chords_sort_in_file_order (tree : @SerializedData float)
    (outResources : string -> option Chord) (pre mid post : list Chord) (a b : Chord) :
  chordsOf tree = pre ++ a :: mid ++ b :: post ->
  NoDup (map getResourceId (chordsOf tree)) ->
  Z.of_nat (List.length (chordsOf tree)) <= 2 ^ 31 - 1 ->
  let read := deserializeResources tree (mkCollection outResources []) in
  compareElements (order read) a b = -1
  /\ compareElements (order read) b a = 1.
Proof.
  intros Hfile Hn Hfits read.
  pose proof (deserializeResources_order tree (mkCollection outResources [])) as Horder.
  fold read in Horder. simpl in Horder.
  rewrite Hfile in Hn, Hfits, Horder.
  assert (Hlen : Z.of_nat (List.length (order read)) <= 2 ^ 31 - 1).
  { rewrite Horder, length_map. exact Hfits. }
  rewrite !map_app in Hn, Horder. cbn [map] in Hn, Horder.
  rewrite !map_app in Hn, Horder. cbn [map] in Hn, Horder.
  assert (Ha : indexOf (order read) (getResourceId a)
               = Z.of_nat (List.length (map getResourceId pre))).
  { rewrite Horder, indexOf_app_fresh.
    - unfold indexOf. simpl. rewrite String.eqb_refl. lia.
    - now apply NoDup_middle in Hn.
    - now left. }
  assert (Hb : indexOf (order read) (getResourceId b)
               = Z.of_nat (List.length (map getResourceId pre)) + 1
                 + Z.of_nat (List.length (map getResourceId mid))).
  { rewrite Horder.
    change (map getResourceId pre
            ++ getResourceId a :: map getResourceId mid
            ++ getResourceId b :: map getResourceId post)
      with (map getResourceId pre
            ++ (getResourceId a :: map getResourceId mid)
            ++ getResourceId b :: map getResourceId post).
    rewrite app_assoc, indexOf_app_fresh.
    - unfold indexOf. simpl. rewrite String.eqb_refl.
      rewrite length_app. simpl List.length. lia.
    - change (map getResourceId pre
              ++ getResourceId a :: map getResourceId mid
              ++ getResourceId b :: map getResourceId post)
        with (map getResourceId pre
              ++ (getResourceId a :: map getResourceId mid)
              ++ getResourceId b :: map getResourceId post) in Hn.
      rewrite app_assoc in Hn. now apply NoDup_middle in Hn.
    - now left. }
  rewrite !(compareElements_cases (order read) Hlen). cbv zeta. rewrite Ha, Hb.
  set (p := Z.of_nat (List.length (map getResourceId pre))).
  set (m := Z.of_nat (List.length (map getResourceId mid))).
  assert (Hp : 0 <= p) by (unfold p; lia). assert (Hm : 0 <= m) by (unfold m; lia).
  split.
  - destruct (Z.eqb_spec p (-1)); [lia|].
    destruct (Z.eqb_spec (p + 1 + m) (-1)); [lia|]. simpl.
    destruct (Z.ltb_spec p (p + 1 + m)); [reflexivity|lia].
  - destruct (Z.eqb_spec p (-1)); [lia|].
    destruct (Z.eqb_spec (p + 1 + m) (-1)); [lia|]. simpl.
    destruct (Z.ltb_spec (p + 1 + m) p); [lia|].
    destruct (Z.ltb_spec p (p + 1 + m)); [reflexivity|lia].
Qed.

End Reading.

(** ** The chords of the examples *)

Lemma lexicographic_eq (a b : string) :
  @String_compare lexicographic a b = 0 <-> a = b.
Proof.
  simpl. split.
  - destruct (String.compare a b) eqn:E; try discriminate.
    intros _. now apply String.compare_eq_iff.
  - intros ->. pose proof (String.compare_antisym b b) as H.
    destruct (String.compare b b); [reflexivity|discriminate|discriminate].
Qed.

Lemma lexicographic_antisym (a b : string) :
  @String_compare lexicographic a b < 0 <-> 0 < @String_compare lexicographic b a.
Proof.
  simpl. rewrite (String.compare_antisym b a).
  destruct (String.compare a b); simpl; lia.
Qed.

Lemma lexicographic_trans (a b c : string) :
  @String_compare lexicographic a b < 0 -> @String_compare lexicographic b c < 0 ->
  @String_compare lexicographic a c < 0.
Proof.
  simpl.
  destruct (String.compare a b) eqn:Eab; try lia.
  destruct (String.compare b c) eqn:Ebc; try lia.
  intros _ _.
  apply OrderedTypeEx.String_as_OT.cmp_lt in Eab, Ebc.
  pose proof (OrderedTypeEx.String_as_OT.lt_trans _ _ _ Eab Ebc) as Hac.
  apply OrderedTypeEx.String_as_OT.cmp_lt in Hac.
  unfold OrderedTypeEx.String_as_OT.cmp in Hac. rewrite Hac. lia.
Qed.

#[local] Existing Instance namedChords.
#[local] Existing Instance lexicographic.

Lemma compareElements_by_order_witness :
  Z.of_nat (List.length ["min"; "maj"]%string) <= 2 ^ 31 - 1
  /\ compareElements ["min"; "maj"]%string "maj"%string "dim"%string = -1
  /\ compareElements ["min"; "maj"]%string "maj"%string "min"%string = 1.
Proof.
  assert (Hfits : Z.of_nat (List.length ["min"; "maj"]%string) <= 2 ^ 31 - 1)
    by (vm_compute; discriminate).
  split; [exact Hfits|]. split.
  - apply (proj1 (compareElements_by_order (chordResource := namedChords)
                    ["min"; "maj"]%string Hfits "maj"%string "dim"%string)).
    + right. now left.
    + intros [H|[H|[]]]; discriminate H.
  - apply (proj1 (proj2 (proj2 (proj2
             (compareElements_by_order (chordResource := namedChords)
                ["min"; "maj"]%string Hfits "maj"%string "min"%string))))).
    + right. now left.
    + now left.
    + reflexivity.
Defined.

Lemma compareElements_is_an_order_witness :
  Z.of_nat (List.length ["min"; "maj"]%string) <= 2 ^ 31 - 1
  /\ (compareElements ["min"; "maj"]%string "dim"%string "sus"%string < 0 <->
      0 < compareElements ["min"; "maj"]%string "sus"%string "dim"%string).
Proof.
  assert (Hfits : Z.of_nat (List.length ["min"; "maj"]%string) <= 2 ^ 31 - 1)
    by (vm_compute; discriminate).
  split; [exact Hfits|].
  exact (proj1 (proj2
           (compareElements_is_an_order (chordResource := namedChords)
              (stringCompare := lexicographic) ["min"; "maj"]%string Hfits
              lexicographic_eq lexicographic_antisym lexicographic_trans
              "dim"%string "sus"%string "min"%string))).
Defined.

Lemma deserializeResources_reads_witness :
  chordsOf (emptyTree chords : @SerializedData Z) = []
  /\ deserializeResources (emptyTree chords) (mkCollection (fun _ => None) ["min"%string])
     = mkCollection (fun _ => None) ["min"%string].
Proof.
  split; [reflexivity|].
  exact (proj2 (proj2 (deserializeResources_reads (chordResource := namedChords)
                         (emptyTree chords)
                         (mkCollection (fun _ => None) ["min"%string]))) eq_refl).
Defined.

Lemma chords_sort_in_file_order_witness :
  NoDup (map getResourceId (chordsOf chordsFile))
  /\ compareElements
       (order (deserializeResources chordsFile (mkCollection (fun _ => None) [])))
       "min"%string "dim"%string = -1
  /\ compareElements
       (order (deserializeResources chordsFile (mkCollection (fun _ => None) [])))
       "dim"%string "min"%string = 1.
Proof.
  assert (Hn : NoDup (map getResourceId (chordsOf chordsFile))).
  { vm_compute. repeat (constructor; [simpl; intuition discriminate|]). constructor. }
  split; [exact Hn|].
  apply (chords_sort_in_file_order (chordResource := namedChords) chordsFile
           (fun _ => None) [] ["maj"%string] [] "min"%string "dim"%string).
  - reflexivity.
  - exact Hn.
  - vm_compute. discriminate.
Defined.

End ChordsCollectionFacts.
